(** * Pulumi Go SDK: dependency aggregation, property marshaling and the
      versioned registry (sdk/go/pulumi/rpc.go)

    A shallow embedding of the functions of [rpc.go] that convert between
    typed runtime values and wire [PropertyValue]s, followed by the
    properties proved about them.

    Part I holds the definitions, Part II the lemmas and theorems. *)

From Stdlib Require Import ZArith NArith Bool Ascii String List SpecFloat Lia.
From stdpp Require Import base option list sorting gmap strings fin_maps.

Set Warnings "-register-all,-clear-no-such-hyp".

Local Open Scope string_scope.
Local Open Scope list_scope.

(* ===================================================================== *)
(** * Part I: definitions *)
(* ===================================================================== *)

(** ** Semantic versions (github.com/blang/semver)

    [rpc.go] imports [semver.Version] and uses its fields and its methods
    [EQ], [GTE] (both through [Compare]).  The record and the precedence
    rules below are the library's: numeric fields are [uint64], build
    metadata has no precedence, a version without pre-release tags is
    greater than one with, and pre-release tags compare left to right,
    numeric ones below alphanumeric ones. *)
Module semver.

Record PRVersion : Type := mkPR {
  VersionStr : string;
  VersionNum : N;
  IsNum : bool
}.

Record Version : Type := mkVersion {
  Major : N;
  Minor : N;
  Patch : N;
  Pre : list PRVersion;
  Build : list string
}.

(** [PRVersion.Compare]: [Lt], [Eq], [Gt] stand for the Go results -1, 0, 1. *)
Definition PRCompare (v o : PRVersion) : comparison :=
  if IsNum v && negb (IsNum o) then Lt
  else if negb (IsNum v) && IsNum o then Gt
  else if IsNum v && IsNum o then N.compare (VersionNum v) (VersionNum o)
  else String.compare (VersionStr v) (VersionStr o).

(** The loop of [Version.Compare] over the two pre-release slices, entered
    only when both are non-empty; a strict prefix is the smaller one. *)
Fixpoint PreCompare (v o : list PRVersion) : comparison :=
  match v, o with
  | [], [] => Eq
  | [], _ :: _ => Lt
  | _ :: _, [] => Gt
  | a :: v', b :: o' =>
      match PRCompare a b with
      | Eq => PreCompare v' o'
      | c => c
      end
  end.

Definition Compare (v o : Version) : comparison :=
  if negb (Major v =? Major o)%N then (if (Major o <? Major v)%N then Gt else Lt)
  else if negb (Minor v =? Minor o)%N then (if (Minor o <? Minor v)%N then Gt else Lt)
  else if negb (Patch v =? Patch o)%N then (if (Patch o <? Patch v)%N then Gt else Lt)
  else match Pre v, Pre o with
       | [], [] => Eq
       | [], _ :: _ => Gt
       | _ :: _, [] => Lt
       | _ :: _, _ :: _ => PreCompare (Pre v) (Pre o)
       end.

(** [v.EQ(o)] is [v.Compare(o) == 0] and [v.GTE(o)] is [v.Compare(o) >= 0]. *)
Definition EQ (v o : Version) : bool :=
  match Compare v o with Eq => true | _ => false end.

Definition GTE (v o : Version) : bool :=
  match Compare v o with Lt => false | _ => true end.

End semver.

(** ** Go types as seen through [reflect] *)

(** The kinds the marshaler distinguishes.  The sized variants of a kind
    ([Int8] .. [Int64], [Float32], [Float64], ...) share a case in every
    switch of [rpc.go] and are not told apart; [KOther] stands for the
    kinds no case handles (channels, functions, complex numbers, ...). *)
Inductive Kind : Type :=
| KBool | KInt | KUint | KFloat | KString
| KPtr | KInterface | KSlice | KArray | KMap | KStruct | KOther.

Inductive BasicKind : Type := BBool | BInt | BUint | BFloat | BString | BOther.

(** A [reflect.Type].  A struct field is the triple of its Go name, the
    value of [Tag.Get("pulumi")] (empty when the field has no such tag) and
    its type.  [name] is the declared name of a defined type, empty for a
    type literal. *)
Inductive GoType : Type :=
| TBasic (name : string) (k : BasicKind)
| TInterface (name : string)
| TPtr (elem : GoType)
| TSlice (name : string) (elem : GoType)
| TArray (name : string) (len : nat) (elem : GoType)
| TMap (name : string) (key elem : GoType)
| TStruct (name : string) (fields : list (string * string * GoType)).

Abbreviation StructField := (string * string * GoType)%type.

Definition fieldName (f : StructField) : string := f.1.1.
Definition fieldTag (f : StructField) : string := f.1.2.
Definition fieldType (f : StructField) : GoType := f.2.

Fixpoint GoType_eq_dec (a b : GoType) {struct a} : {a = b} + {a <> b}.
Proof.
  decide equality; try apply String.string_dec; try apply Nat.eq_dec.
  - decide equality.
  - apply List.list_eq_dec.
    intros [[x1 x2] x3] [[y1 y2] y3].
    destruct (String.string_dec x1 y1); [|right; congruence].
    destruct (String.string_dec x2 y2); [|right; congruence].
    destruct (GoType_eq_dec x3 y3); [left|right]; congruence.
Defined.

#[global] Instance GoType_EqDecision : EqDecision GoType := GoType_eq_dec.

Definition basicKind (k : BasicKind) : Kind :=
  match k with
  | BBool => KBool | BInt => KInt | BUint => KUint
  | BFloat => KFloat | BString => KString | BOther => KOther
  end.

(** [t.Kind()] *)
Definition kindOf (t : GoType) : Kind :=
  match t with
  | TBasic _ k => basicKind k
  | TInterface _ => KInterface
  | TPtr _ => KPtr
  | TSlice _ _ => KSlice
  | TArray _ _ _ => KArray
  | TMap _ _ _ => KMap
  | TStruct _ _ => KStruct
  end.

#[global] Instance Kind_EqDecision : EqDecision Kind.
Proof. solve_decision. Defined.

(** [t.Elem()]; [None] where [reflect] panics. *)
Definition Elem (t : GoType) : option GoType :=
  match t with
  | TPtr e | TSlice _ e | TArray _ _ e | TMap _ _ e => Some e
  | _ => None
  end.

(** [t.Key()]; [None] where [reflect] panics. *)
Definition Key (t : GoType) : option GoType :=
  match t with
  | TMap _ k _ => Some k
  | _ => None
  end.

(** [anyType]: the type [interface{}]. *)
Definition anyType : GoType := TInterface "".

(** ** Errors and outcomes *)

(** The error values built in [rpc.go], one constructor per message, with
    the values its format verbs print. *)
Inductive Error : Type :=
| ErrAwaitingInputProperty (pname : string) (cause : Error)
| ErrNotStructOrMap (t : GoType)
| ErrCannotMarshalInput (inputType valueType destType : GoType)
| ErrCannotAwait (outputType : GoType)
| ErrInvalidAsset
| ErrInvalidArchive
| ErrMapKeys (keyType : GoType)
| ErrUnrecognizedInput (t : GoType)
| ErrParseProviderVersion (packageVersion : string)
| ErrExpectedAssetKind
| ErrExpected (destType : GoType) (got : string)
| ErrMapKeysNotString
| ErrNonEmptyInterface (destType : GoType)
| ErrCannotUnmarshalInto (destType : GoType)
| ErrExistingRegistration (key : string) (version : semver.Version)
| ErrExternal (msg : string).

(** What a call does: it returns normally, returns a non-nil [error],
    panics (a failed [contract.Assertf] or a [reflect] panic), or never
    returns because it awaits a future that is never settled. *)
Inductive Outcome (A : Type) : Type :=
| Ok (a : A)
| Err (e : Error)
| Panic (msg : string)
| Blocked.
Arguments Ok {A} _.
Arguments Err {A} _.
Arguments Panic {A} _.
Arguments Blocked {A}.

#[global] Instance Outcome_ret : MRet Outcome := fun A a => Ok a.
#[global] Instance Outcome_bind : MBind Outcome := fun A B f m =>
  match m with
  | Ok a => f a
  | Err e => Err e
  | Panic msg => Panic msg
  | Blocked => Blocked
  end.

(** [contract.Assertf(cond, msg)] *)
Definition Assertf (cond : bool) (msg : string) : Outcome unit :=
  if cond then Ok tt else Panic msg.

(** ** The versioned registry *)

(** [type Versioned interface { Version() semver.Version }] *)
Class Versioned (V : Type) : Type := Version : V -> semver.Version.

(** [var nullVersion semver.Version]: the zero value, used as the wildcard. *)
Definition nullVersion : semver.Version :=
  semver.mkVersion 0 0 0 [] [].

(** [type versionedMap struct { sync.RWMutex; versions map[string][]Versioned }].
    The mutex has no counterpart in a sequential model; a missing key reads
    as the nil slice, as indexing a Go map does. *)
Record versionedMap (V : Type) : Type := mkVersionedMap {
  versions : gmap string (list V)
}.
Arguments mkVersionedMap {V} _.
Arguments versions {V} _.

Section Registry.
Context {V : Type} `{Versioned V}.

(** The [for _, v := range vm.versions[key]] loop of [Load], with the
    variable [bestVersion] ([None] is the nil interface) as loop state.  An
    early [return v, true] ends the scan. *)
Fixpoint Load_scan (version : semver.Version) (wildcard : bool)
    (entries : list V) (bestVersion : option V) : option V * bool :=
  match entries with
  | [] => (bestVersion, bool_decide (is_Some bestVersion))
  | v :: rest =>
      if negb wildcard && negb (semver.Major (Version v) =? semver.Major version)%N
      then Load_scan version wildcard rest bestVersion
      else if semver.EQ (Version v) version then (Some v, true)
      else match bestVersion with
           | None => Load_scan version wildcard rest (Some v)
           | Some best =>
               if semver.GTE (Version v) (Version best)
               then Load_scan version wildcard rest (Some v)
               else Load_scan version wildcard rest bestVersion
           end
  end.

Definition Load (vm : versionedMap V) (key : string) (version : semver.Version)
    : option V * bool :=
  let wildcard := semver.EQ version nullVersion in
  Load_scan version wildcard (default [] (versions vm !! key)) None.

(** The closure [hasVersion] of [Store]; as in the source it compares with
    the version of the value being stored, not with its second argument. *)
Definition hasVersion (value : V) (vs : list V) (version : semver.Version) : bool :=
  existsb (fun v => semver.EQ (Version v) (Version value)) vs.

(** [Store].  The map is mutated in place by the source; here the updated
    map is returned, or the "existing registration" error. *)
Definition Store (vm : versionedMap V) (key : string) (value : V)
    : Outcome (versionedMap V) :=
  match versions vm !! key with
  | Some vs =>
      if hasVersion value vs (Version value)
      then Err (ErrExistingRegistration key (Version value))
      else mret (mkVersionedMap (<[key := vs ++ [value]]> (versions vm)))
  | None => mret (mkVersionedMap (<[key := [value]]> (versions vm)))
  end.

End Registry.

(** The result of awaiting a future that carries no dependency list
    ([awaitURN], [awaitID]): the value with its known and secret flags, the
    error it was rejected with, or no result at all. *)
Inductive Awaited (A : Type) : Type :=
| Settled (value : A) (known secret : bool)
| Failed (err : Error)
| NeverSettles.
Arguments Settled {A} _ _ _.
Arguments Failed {A} _.
Arguments NeverSettles {A}.

Definition await {A : Type} (o : Awaited A) : Outcome (A * bool * bool) :=
  match o with
  | Settled v known secret => Ok (v, known, secret)
  | Failed e => Err e
  | NeverSettles => Blocked
  end.

(** ** Resources and the dependency aggregator *)

Abbreviation URN := string (only parsing).
Abbreviation ID := string (only parsing).

Inductive ResourceKind : Type :=
| Custom | LocalComponent | RemoteComponent | DependencyOnly | Rehydrated.

#[global] Instance ResourceKind_EqDecision : EqDecision ResourceKind.
Proof. solve_decision. Defined.

(** A [Resource] value.  [res_addr] is the identity of the object behind
    the interface value (what [res == from] compares), [res_urn] and
    [res_id] what [URN().awaitURN] and [ID().awaitID] yield, [res_children]
    what [getChildren()] returns. *)
Inductive Resource : Type := mkResource {
  res_addr : N;
  res_kind : ResourceKind;
  res_urn : Awaited URN;
  res_id : Awaited ID;
  res_children : list Resource
}.

(** [_, custom := res.(CustomResource)] *)
Definition isCustomResource (res : Resource) : bool :=
  bool_decide (res_kind res = Custom).

(** Modelled from the spec: [keepDependency()], a method of the resource
    states declared outside [rpc.go].  Section 4.3 of the specification and
    the comment in [addDependency] give its value: true for remote
    component resources, dependency resources and rehydrated component
    resources, false for local components. *)
Definition keepDependency (res : Resource) : bool :=
  match res_kind res with
  | RemoteComponent | DependencyOnly | Rehydrated => true
  | Custom | LocalComponent => false
  end.

(** [res == from], where [from] may be the nil interface. *)
Definition sameResource (res : Resource) (from : option Resource) : bool :=
  match from with
  | None => false
  | Some f => (res_addr res =? res_addr f)%N
  end.

Definition awaitURN (res : Resource) : Outcome (URN * bool * bool) := await (res_urn res).
Definition awaitID (res : Resource) : Outcome (ID * bool * bool) := await (res_id res).

(** [addDependency].  The map [deps] is mutated in place by the source; here
    it is passed in and returned.  On an error the callers drop the map, so
    only the error is returned then. *)
Fixpoint addDependency (deps : gmap URN Resource) (res : Resource) (from : option Resource)
    {struct res} : Outcome (gmap URN Resource) :=
  let add (deps : gmap URN Resource) : Outcome (gmap URN Resource) :=
    '(urn, _, _) ← awaitURN res;
    mret (<[urn := res]> deps) in
  if negb (isCustomResource res) then
    if sameResource res from then mret deps
    else
      deps ← (fix children (cs : list Resource) (deps : gmap URN Resource)
                : Outcome (gmap URN Resource) :=
                match cs with
                | [] => mret deps
                | child :: cs' =>
                    deps ← addDependency deps child from;
                    children cs' deps
                end) (res_children res) deps;
      if negb (keepDependency res) then mret deps
      else add deps
  else add deps.

(** [expandDependencies] *)
Definition expandDependencies_loop : list Resource -> gmap URN Resource ->
    Outcome (gmap URN Resource) :=
  fix loop (deps : list Resource) (set : gmap URN Resource) :=
    match deps with
    | [] => mret set
    | r :: deps' =>
        set ← addDependency set r None;
        loop deps' set
    end.

Definition expandDependencies (deps : list Resource) : Outcome (gmap URN Resource) :=
  expandDependencies_loop deps ∅.

(** The contribution of one root as section 4.3 of the specification words
    it, as a set of URNs: a custom resource gives its own URN and its
    children are not visited; a non-custom resource equal to [from] gives
    nothing; any other gives what its children give and, when it keeps its
    dependency, its own URN. *)
Definition urnOf (res : Resource) : URN :=
  match res_urn res with
  | Settled u _ _ => u
  | _ => ""
  end.

Fixpoint contribution (from : option Resource) (res : Resource) : gset URN :=
  match res_kind res with
  | Custom => {[ urnOf res ]}
  | _ =>
      if sameResource res from then ∅
      else
        (fix children (cs : list Resource) : gset URN :=
           match cs with
           | [] => ∅
           | child :: cs' => contribution from child ∪ children cs'
           end) (res_children res)
        ∪ (match res_kind res with
           | RemoteComponent | DependencyOnly | Rehydrated => {[ urnOf res ]}
           | _ => ∅
           end)
  end.

Definition contributions (from : option Resource) (roots : list Resource) : gset URN :=
  ⋃ (contribution from <$> roots).

(** ** Wire values ([resource.PropertyValue]) *)

(** [float64] as an IEEE 754 binary64 datum; [float64(i)] for an integer
    [i] rounds to nearest, ties to even. *)
Abbreviation float64 := spec_float (only parsing).

Definition float64_of_Z (i : Z) : float64 := binary_normalize 53 1024 i 0 false.

(** [rasset.Asset] *)
Record rasset : Type := mkRasset {
  asset_Path : string;
  asset_Text : string;
  asset_URI : string
}.

(** Modelled from the spec: [resource.ResourceReference], declared in the
    package [sdk/go/common/resource].  Section 3 of the specification gives
    its shape: [ResourceReference{URN, optional ID, package version}]. *)
Record ResourceReference : Type := mkResourceReference {
  ref_URN : URN;
  ref_ID : option ID;
  ref_PackageVersion : string
}.

(** The variants of section 3 of the specification.  The entries of an
    archive's asset map are kept as wire values (the source stores their
    payload [aa.V] and reads it back with [resource.NewPropertyValue]). *)
Inductive PropertyValue : Type :=
| PVNull
| PVBool (b : bool)
| PVNumber (n : float64)
| PVString (s : string)
| PVArray (elems : list PropertyValue)
| PVObject (props : gmap string PropertyValue)
| PVAsset (a : rasset)
| PVArchive (assets : option (gmap string PropertyValue)) (path uri : string)
| PVSecret (element : PropertyValue)
| PVOutput (element : PropertyValue) (known secret : bool) (dependencies : list URN)
| PVComputed
| PVResourceReference (ref : ResourceReference).

Abbreviation PropertyMap := (gmap string PropertyValue) (only parsing).

(** [v.IsNull()] *)
Definition IsNull (v : PropertyValue) : bool :=
  match v with PVNull => true | _ => false end.

(** Modelled from the spec: [resource.MakeCustomResourceReference] and
    [resource.MakeComponentResourceReference] of [sdk/go/common/resource];
    section 4.4 has a resource marshal "as ResourceReference{URN, ID if
    custom, package version}". *)
Definition MakeCustomResourceReference (urn : URN) (id : ID) (packageVersion : string)
    : PropertyValue :=
  PVResourceReference (mkResourceReference urn (Some id) packageVersion).

Definition MakeComponentResourceReference (urn : URN) (packageVersion : string)
    : PropertyValue :=
  PVResourceReference (mkResourceReference urn None packageVersion).

(** ** Go values as the marshaler inspects them *)

(** What awaiting an [Output] yields ([awaitWithContext]): the value with
    its flags and dependency resources, the error of a rejected output, or
    nothing when the output is never settled. *)
Inductive OutputState (A : Type) : Type :=
| Resolved (value : A) (known secret : bool) (deps : list Resource)
| Rejected (err : Error)
| Unsettled.
Arguments Resolved {A} _ _ _ _.
Arguments Rejected {A} _.
Arguments Unsettled {A}.

(** The struct [asset] behind a [*asset]. *)
Record asset : Type := mkAsset {
  asset_path : string;
  asset_text : string;
  asset_uri : string;
  asset_invalid : bool
}.

(** A value held in an [interface{}].

    [VNil] is the nil interface.  [VInput] is a value whose dynamic type
    implements [Input]: [ElementType] is the result of that method,
    [ToOutput destType] the output that [internal.CallToOutputMethod]
    obtains from the value's conversion method for [destType] (with the
    type of that output), [None] when the type has no such method, and
    [asOutput] is the state of the value itself when its type also
    implements [Output].  [VPlain] is any other non-nil value.

    [Data] is the value under the interface, by [reflect] kind, with the
    parts of its type that the kind does not fix.  [DAsset], [DArchive] and
    [DResource] are non-nil pointers of the types the type switch of
    [marshalInputOptionsImpl] names; a nil pointer of any type is
    [DPtr _ None].  [DResource] carries, besides the resource, the name and
    the fields of the struct it points to.  The entries of a map come in
    the order in which [MapKeys] or [range] happens to deliver them. *)
Inductive Value : Type :=
| VNil
| VPlain (d : Data)
| VInput (ElementType : GoType)
         (ToOutput : GoType -> option (GoType * OutputState Value))
         (asOutput : option (OutputState Value))
         (d : Data)
with Data : Type :=
| DBool (name : string) (b : bool)
| DInt (name : string) (i : Z)
| DUint (name : string) (u : Z)
| DFloat (name : string) (f : float64)
| DString (name : string) (s : string)
| DOther (name : string)
| DPtr (elem : GoType) (p : option Value)
| DSlice (name : string) (elem : GoType) (elems : option (list Value))
| DArray (name : string) (elem : GoType) (elems : list Value)
| DMap (name : string) (key elem : GoType) (entries : option (list (string * Value)))
| DStruct (name : string) (fields : list (StructField * Value))
| DAsset (a : asset)
| DArchive (invalid : bool) (assets : option (list (string * Value))) (path uri : string)
| DResource (name : string) (r : Resource) (fields : list (StructField * Value)).

Definition assetPtrType : GoType := TPtr (TStruct "pulumi.asset" []).
Definition archivePtrType : GoType := TPtr (TStruct "pulumi.archive" []).
Definition stringType : GoType := TBasic "string" BString.

(** [reflect.TypeOf] of a non-nil value *)
Definition typeOfData (d : Data) : GoType :=
  match d with
  | DBool n _ => TBasic n BBool
  | DInt n _ => TBasic n BInt
  | DUint n _ => TBasic n BUint
  | DFloat n _ => TBasic n BFloat
  | DString n _ => TBasic n BString
  | DOther n => TBasic n BOther
  | DPtr e _ => TPtr e
  | DSlice n e _ => TSlice n e
  | DArray n e l => TArray n (length l) e
  | DMap n k e _ => TMap n k e
  | DStruct n fs => TStruct n (fs.*1)
  | DAsset _ => assetPtrType
  | DArchive _ _ _ _ => archivePtrType
  | DResource n _ fs => TPtr (TStruct n (fs.*1))
  end.

(** [val.Kind() == reflect.Ptr && val.IsNil()] *)
Definition isNilPtr (d : Data) : bool :=
  match d with DPtr _ None => true | _ => false end.

(** [type marshalOptions struct]; the functions take a [*marshalOptions],
    nil being [None]. *)
Record marshalOptions : Type := mkMarshalOptions {
  ErrorOnOutput : bool;
  ExcludeResourceRefsFromDeps : bool
}.

(** [opts != nil && opts.ErrorOnOutput] *)
Definition errorOnOutput (opts : option marshalOptions) : bool :=
  match opts with Some o => ErrorOnOutput o | None => false end.

(** [opts == nil || !opts.ExcludeResourceRefsFromDeps] *)
Definition includeResourceRefs (opts : option marshalOptions) : bool :=
  match opts with Some o => negb (ExcludeResourceRefsFromDeps o) | None => true end.

(** [strings.Split(tag, ",")[0]]: the part of [tag] before its first comma,
    all of it when it has none. *)
Fixpoint tagName (tag : string) : string :=
  match tag with
  | EmptyString => EmptyString
  | String c rest => if Ascii.eqb c "," then EmptyString else String c (tagName rest)
  end.

(** [maps.Keys(m)] and the [for k := range m] loops that collect keys: the
    keys of a map as a slice, in the order the runtime delivers them. *)
Definition mapKeys {A : Type} (m : gmap string A) : list string := (map_to_list m).*1.

(** [sort.Slice(urns, func(i, j int) bool { return urns[i] < urns[j] })] on
    strings, compared bytewise. *)
Definition string_le (a b : string) : Prop := String.leb a b = true.

#[global] Instance string_le_dec : RelDecision string_le.
Proof. intros a b. unfold string_le. apply _. Defined.

Definition sortURNs (urns : list URN) : list URN := merge_sort string_le urns.

(** The values that [rpc.go] takes from the [reflect] and [internal]
    packages without their being a function of the types modelled above:
    assignability and convertibility of types, [internal.MapStructTypes],
    which yields for two struct types the function from a field index of the
    first to the matching field of the second ([None] where the Go function
    panics), and [StructField.IsExported] as a function of the name of the
    field: Go exports a name whose first character is an upper-case letter
    of Unicode, whose tables are not part of the source.  A field of a
    struct value can be read with [rv.Field(i).Interface()], and a field of
    a settable struct can be set ([fieldV.CanSet()]), exactly when it is
    exported. *)
Class Reflection : Type := {
  AssignableTo : GoType -> GoType -> bool;
  ConvertibleTo : GoType -> GoType -> bool;
  MapStructTypes : GoType -> GoType -> option (nat -> option StructField);
  IsExported : string -> bool
}.

(** The panic of [reflect.Value.Interface] on an unexported field. *)
Definition unexportedField : string :=
  "reflect.Value.Interface: cannot return value obtained from unexported field or method".

(** ** The marshaling engine *)

Section Marshal.
Context {reflection : Reflection}.

Section WithOptions.
Variable opts : option marshalOptions.

(** The output branch of [marshalInputOptionsImpl] once the output has been
    awaited and, when it is known, its value marshaled into [element]:
    inline the element, or expand the dependencies and wrap. *)
Definition wrapOutput (element : PropertyValue) (known secret : bool)
    (outputDeps : list Resource) : Outcome (PropertyValue * list Resource) :=
  if known && negb secret && bool_decide (length outputDeps = 0%nat)
  then mret (element, [])
  else
    depSet ← expandDependencies outputDeps;
    let dependencies :=
      if bool_decide (0 < size depSet)%nat then sortURNs (mapKeys depSet) else [] in
    mret (PVOutput element known secret dependencies, outputDeps).

(** [marshalInputOptionsImpl].  [marshalLoop] is the body of its [for]
    loop up to the end of the input check, with the loop variables [v],
    [destType], [skipInputCheck] and [deps] as arguments; [marshalData] is
    the rest of the body, from [skipInputCheck = false] on, where
    [valueType] has its final value.  The [continue] of the pointer case is
    the call of [marshalLoop] on the pointee. *)
Fixpoint marshalLoop (v : Value) (destType : GoType) (skipInputCheck : bool)
    (deps : list Resource) {struct v} : Outcome (PropertyValue * list Resource) :=
  match v with
  | VNil => mret (PVNull, [])
  | VPlain d => marshalData d (typeOfData d) destType deps
  | VInput elementType toOutput asOutput d =>
      if skipInputCheck then marshalData d (typeOfData d) destType deps
      else if isNilPtr d then mret (PVNull, [])
      else
        let valueType := elementType in
        let destType :=
          if bool_decide (valueType ≠ destType) && bool_decide (kindOf destType = KPtr)
             && bool_decide (Elem destType = Some valueType)
          then valueType else destType in
        let awaitOutput (outputType : GoType) (output : OutputState Value)
            : Outcome (PropertyValue * list Resource) :=
          if errorOnOutput opts then Err (ErrCannotAwait outputType)
          else
            match output with
            | Rejected err => Err err
            | Unsettled => Blocked
            | Resolved ov known secret outputDeps =>
                if known then
                  '(element, _) ← marshalLoop ov destType true [];
                  wrapOutput element known secret outputDeps
                else wrapOutput PVNull known secret outputDeps
            end in
        let direct (valueType : GoType) : Outcome (PropertyValue * list Resource) :=
          match asOutput with
          | Some output => awaitOutput (typeOfData d) output
          | None => marshalData d valueType destType deps
          end in
        if bool_decide (valueType ≠ destType) && bool_decide (destType ≠ anyType) then
          match toOutput destType with
          | Some (newType, newOutput) => awaitOutput newType newOutput
          | None =>
              if negb (AssignableTo valueType destType)
              then Err (ErrCannotMarshalInput (typeOfData d) valueType destType)
              else direct valueType
          end
        else direct valueType
  end
with marshalData (d : Data) (valueType destType : GoType) (deps : list Resource)
    {struct d} : Outcome (PropertyValue * list Resource) :=
  match d with
  | DPtr _ None => mret (PVNull, [])
  | DAsset a =>
      if asset_invalid a then Err ErrInvalidAsset
      else mret (PVAsset (mkRasset (asset_path a) (asset_text a) (asset_uri a)), deps)
  | DArchive invalid assets path uri =>
      if invalid then Err ErrInvalidArchive
      else
        assets ← match assets with
                 | None => mret None
                 | Some entries =>
                     m ← (fix each (entries : list (string * Value))
                              (assets : gmap string PropertyValue)
                            : Outcome (gmap string PropertyValue) :=
                            match entries with
                            | [] => mret assets
                            | (k, a) :: rest =>
                                '(aa, _) ← marshalLoop a anyType false [];
                                each rest (<[k := aa]> assets)
                            end) entries ∅;
                     mret (Some m)
                 end;
        mret (PVArchive assets path uri, deps)
  | DResource _ r _ =>
      let deps := if includeResourceRefs opts then deps ++ [r] else deps in
      '(urn, known, secretURN) ← awaitURN r;
      _ ← Assertf known "URN must be known";
      _ ← Assertf (negb secretURN) "URN must not be secret";
      if isCustomResource r then
        '(id, _, secretID) ← awaitID r;
        _ ← Assertf (negb secretID) "CustomResource must not have a secret ID";
        mret (MakeCustomResourceReference urn id "", deps)
      else mret (MakeComponentResourceReference urn "", deps)
  | _ =>
      let valueType :=
        if bool_decide (kindOf destType = KInterface) && bool_decide (kindOf valueType = KInterface)
        then typeOfData d else valueType in
      let destType :=
        if bool_decide (kindOf destType = KInterface) then valueType else destType in
      _ ← match d with
          | DSlice _ _ _ | DArray _ _ _ | DMap _ _ _ _ => mret tt
          | _ => Assertf (AssignableTo valueType destType || ConvertibleTo valueType destType)
                         "cannot assign value to destination type"
          end;
      match d with
      | DBool _ b => mret (PVBool b, deps)
      | DInt _ i => mret (PVNumber (float64_of_Z i), deps)
      | DUint _ u => mret (PVNumber (float64_of_Z u), deps)
      | DFloat _ f => mret (PVNumber f, deps)
      | DPtr _ None => mret (PVNull, deps)
      | DPtr _ (Some p) =>
          let destType := if bool_decide (kindOf destType = KPtr)
                          then default destType (Elem destType) else destType in
          marshalLoop p destType false deps
      | DString _ s => mret (PVString s, deps)
      | DArray _ _ _ => Panic "reflect: call of reflect.Value.IsNil on array Value"
      | DSlice _ _ None => mret (PVNull, deps)
      | DSlice _ _ (Some elems) =>
          match Elem destType with
          | None => Panic "reflect: Elem of invalid type"
          | Some destElem =>
              (fix each (elems : list Value) (arr : list PropertyValue) (deps : list Resource)
                 : Outcome (PropertyValue * list Resource) :=
                 match elems with
                 | [] => mret (PVArray arr, deps)
                 | elem :: rest =>
                     '(e, d) ← marshalLoop elem destElem false [];
                     each rest (arr ++ [e]) (deps ++ d)
                 end) elems [] deps
          end
      | DMap _ key _ entries =>
          if bool_decide (kindOf key ≠ KString) then Err (ErrMapKeys key)
          else
            match entries with
            | None => mret (PVNull, deps)
            | Some entries =>
                match Elem destType with
                | None => Panic "reflect: Elem of invalid type"
                | Some destElem =>
                    (fix each (entries : list (string * Value)) (obj : gmap string PropertyValue)
                         (deps : list Resource) : Outcome (PropertyValue * list Resource) :=
                       match entries with
                       | [] => mret (PVObject obj, deps)
                       | (key, value) :: rest =>
                           '(mv, d) ← marshalLoop value destElem false [];
                           each rest (if negb (IsNull mv) then <[key := mv]> obj else obj)
                                (deps ++ d)
                       end) entries ∅ deps
                end
            end
      | DStruct _ fields =>
          match MapStructTypes (typeOfData d) destType with
          | None => Panic "MapStructTypes: expected struct types"
          | Some getMappedField =>
              (fix each (i : nat) (fields : list (StructField * Value))
                   (obj : gmap string PropertyValue) (deps : list Resource)
                 : Outcome (PropertyValue * list Resource) :=
                 match fields with
                 | [] => mret (PVObject obj, deps)
                 | (sourceField, field) :: rest =>
                     match getMappedField i with
                     | None => Panic "MapStructTypes: unknown field"
                     | Some destField =>
                         let tag := tagName (fieldTag destField) in
                         if bool_decide (tag = "") then each (S i) rest obj deps
                         else if negb (IsExported (fieldName sourceField))
                         then Panic unexportedField
                         else
                           '(fv, d) ← marshalLoop field (fieldType destField) false [];
                           each (S i) rest (if negb (IsNull fv) then <[tag := fv]> obj else obj)
                                (deps ++ d)
                     end
                 end) 0%nat fields ∅ deps
          end
      | _ => Err (ErrUnrecognizedInput (typeOfData d))
      end
  end.

End WithOptions.

Definition marshalInputOptionsImpl (v : Value) (destType : GoType)
    (opts : option marshalOptions) (skipInputCheck : bool)
    : Outcome (PropertyValue * list Resource) :=
  marshalLoop opts v destType skipInputCheck [].

Definition marshalInputOptions (v : Value) (destType : GoType)
    (opts : option marshalOptions) : Outcome (PropertyValue * list Resource) :=
  marshalInputOptionsImpl v destType opts false.

Definition marshalInput (v : Value) (destType : GoType)
    : Outcome (PropertyValue * list Resource) :=
  marshalInputOptions v destType None.

(** The variables [pmap], [pdeps] and [deps] that the closure
    [marshalProperty] of [marshalInputsOptions] updates. *)
Record MarshalState : Type := mkMarshalState {
  pmap : gmap string PropertyValue;
  pdeps : gmap string (list URN);
  deps : gset URN
}.

Definition marshalProperty (opts : option marshalOptions) (pname : string) (pv : Value)
    (pt : GoType) (st : MarshalState) : Outcome MarshalState :=
  match marshalInputOptions pv pt opts with
  | Err err => Err (ErrAwaitingInputProperty pname err)
  | Panic msg => Panic msg
  | Blocked => Blocked
  | Ok (v, resourceDeps) =>
      allDeps ← expandDependencies resourceDeps;
      let deps := deps st ∪ dom allDeps in
      if negb (IsNull v) || bool_decide (0 < size allDeps)%nat then
        let urns := mapKeys allDeps in
        mret (mkMarshalState (<[pname := v]> (pmap st)) (<[pname := urns]> (pdeps st)) deps)
      else mret (mkMarshalState (pmap st) (pdeps st) deps)
  end.

(** [pv := reflect.ValueOf(props)] after the pointer step of
    [marshalInputsOptions]: a nil pointer, the value a pointer leads to, or
    a value of interface kind (the element of a pointer to an interface
    type), which no case of the switch on [pt.Kind()] accepts. *)
Inductive TopValue : Type :=
| TopNil
| TopData (d : Data)
| TopInterface (t : GoType).

Definition topElem (d : Data) : TopValue :=
  match d with
  | DPtr _ None => TopNil
  | DPtr elem (Some p) =>
      if bool_decide (kindOf elem = KInterface) then TopInterface elem
      else match p with
           | VNil => TopInterface elem
           | VPlain d' | VInput _ _ _ d' => TopData d'
           end
  | DAsset _ => TopData (DStruct "pulumi.asset" [])
  | DArchive _ _ _ _ => TopData (DStruct "pulumi.archive" [])
  | DResource name _ fields => TopData (DStruct name fields)
  | _ => TopData d
  end.

(** The loop over the fields of a struct in [marshalInputsOptions];
    [pv.Field(i).Interface()] panics on an unexported field. *)
Fixpoint marshalFields (opts : option marshalOptions)
    (getMappedField : nat -> option StructField) (i : nat)
    (fields : list (StructField * Value)) (st : MarshalState) : Outcome MarshalState :=
  match fields with
  | [] => mret st
  | (sourceField, field) :: rest =>
      match getMappedField i with
      | None => Panic "MapStructTypes: unknown field"
      | Some destField =>
          let tag := tagName (fieldTag destField) in
          if bool_decide (tag = "") then marshalFields opts getMappedField (S i) rest st
          else if negb (IsExported (fieldName sourceField)) then Panic unexportedField
          else
            st ← marshalProperty opts tag field (fieldType destField) st;
            marshalFields opts getMappedField (S i) rest st
      end
  end.

(** The loop over the keys of a map in [marshalInputsOptions];
    [key.Interface().(string)] panics unless the key type is [string]. *)
Fixpoint marshalEntries (opts : option marshalOptions) (keyType elemType : GoType)
    (entries : list (string * Value)) (st : MarshalState) : Outcome MarshalState :=
  match entries with
  | [] => mret st
  | (keyname, val) :: rest =>
      if bool_decide (keyType ≠ stringType)
      then Panic "interface conversion: interface {} is not string"
      else
        st ← marshalProperty opts keyname val elemType st;
        marshalEntries opts keyType elemType rest st
  end.

(** [marshalInputsOptions].  [props] has the static type [Input], so it is
    the nil interface or a value with an [ElementType] method; the source
    cannot be called with a [VPlain] value, for which the model panics. *)
Definition marshalInputsOptions (props : Value) (opts : option marshalOptions)
    : Outcome (gmap string PropertyValue * gmap string (list URN) * list URN) :=
  let st0 := mkMarshalState ∅ ∅ ∅ in
  let finish (st : Outcome MarshalState) :=
    st ← st; mret (pmap st, pdeps st, elements (deps st)) in
  match props with
  | VNil => mret (∅, ∅, [])
  | VPlain _ => Panic "props is not an Input"
  | VInput elementType _ _ d =>
      match topElem d with
      | TopNil => mret (∅, ∅, [])
      | TopInterface pt => Err (ErrNotStructOrMap pt)
      | TopData pv =>
          let pt := typeOfData pv in
          let rt := if bool_decide (kindOf elementType = KPtr)
                    then default elementType (Elem elementType) else elementType in
          match pv with
          | DStruct _ fields =>
              finish (
                _ ← Assertf (bool_decide (kindOf rt = KStruct)) "expected struct";
                match MapStructTypes pt rt with
                | None => Panic "MapStructTypes: expected struct types"
                | Some getMappedField => marshalFields opts getMappedField 0 fields st0
                end)
          | DMap _ keyType _ entries =>
              finish (
                match Key rt, Elem rt with
                | Some ktype, Some elemType =>
                    _ ← Assertf (bool_decide (kindOf ktype = KString))
                                "expected map with string keys";
                    marshalEntries opts keyType elemType (default [] entries) st0
                | _, _ => Panic "reflect: Key of non-map type"
                end)
          | _ => Err (ErrNotStructOrMap pt)
          end
      end
  end.

(** [marshalInputs] *)
Definition marshalInputs (props : Value)
    : Outcome (gmap string PropertyValue * gmap string (list URN) * list URN) :=
  marshalInputsOptions props None.

End Marshal.

(** ** The unmarshaling engine *)

(** [ResourcePackage] and [ResourceModule]: a [Versioned] value with a
    constructor taking [name], [typ] and [urn] (the [*Context] argument is
    left out).  A constructor returns a resource or an error. *)
Record ResourcePackage : Type := mkResourcePackage {
  pkg_Version : semver.Version;
  ConstructProvider : string -> string -> string -> Outcome Resource
}.

Record ResourceModule : Type := mkResourceModule {
  mod_Version : semver.Version;
  Construct : string -> string -> string -> Outcome Resource
}.

#[global] Instance ResourcePackage_Versioned : Versioned ResourcePackage := pkg_Version.
#[global] Instance ResourceModule_Versioned : Versioned ResourceModule := mod_Version.

(** [RegisterResourcePackage], [moduleKey] and [RegisterResourceModule], on
    the package variables [resourcePackages] and [resourceModules]; an
    error of [Store] becomes a panic. *)
Definition RegisterResourcePackage (resourcePackages : versionedMap ResourcePackage)
    (pkg : string) (resourcePackage : ResourcePackage)
    : Outcome (versionedMap ResourcePackage) :=
  match Store resourcePackages pkg resourcePackage with
  | Err _ => Panic "existing registration"
  | other => other
  end.

Definition moduleKey (pkg mod_ : string) : string :=
  String.append pkg (String.append ":" mod_).

Definition RegisterResourceModule (resourceModules : versionedMap ResourceModule)
    (pkg mod_ : string) (module : ResourceModule) : Outcome (versionedMap ResourceModule) :=
  match Store resourceModules (moduleKey pkg mod_) module with
  | Err _ => Panic "existing registration"
  | other => other
  end.

(** What [rpc.go] calls in other packages when it unmarshals:
    [semver.ParseTolerant] ([None] for its error), the accessors of
    [resource.URN] and [tokens.Type], [resource.IsInternalPropertyKey], the
    methods of [*Context] that build dependency resources, [reflect]'s
    [Implements], and the dynamic type of a resource value. *)
Class Runtime : Type := {
  ParseTolerant : string -> option semver.Version;
  URN_Name : URN -> string;
  URN_Type : URN -> string;
  HasModuleMember : string -> bool;
  Type_Module : string -> string;
  Type_Name : string -> string;
  IsInternalPropertyKey : string -> bool;
  newDependencyProviderResource : URN -> ID -> Resource;
  newDependencyCustomResource : URN -> ID -> Resource;
  newDependencyResource : URN -> Resource;
  Implements : GoType -> GoType -> bool;
  resourceType : Resource -> GoType
}.

(** [ref.IDString()] *)
Definition IDString (ref : ResourceReference) : ID * bool :=
  match ref_ID ref with
  | Some id => (id, true)
  | None => ("", false)
  end.

(** The values [unmarshalPropertyValue] returns in an [interface{}]: nil,
    the payload of a scalar, a [[]interface{}], a [map[string]interface{}],
    the result of one of the asset or archive constructors of the package,
    or a resource. *)
Inductive RuntimeValue : Type :=
| RNil
| RBool (b : bool)
| RNumber (n : float64)
| RString (s : string)
| RSlice (elems : list RuntimeValue)
| RMap (entries : gmap string RuntimeValue)
| RNewFileAsset (path : string)
| RNewStringAsset (text : string)
| RNewRemoteAsset (uri : string)
| RNewAssetArchive (assets : gmap string RuntimeValue)
| RNewFileArchive (path : string)
| RNewRemoteArchive (uri : string)
| RResource (r : Resource).

(** Modelled from the spec: the tests [IsPath], [IsText], [IsURI] of
    [rasset.Asset] and [IsAssets], [IsPath], [IsURI] of [rarchive.Archive],
    declared outside [rpc.go].  Section 7 of the specification calls a
    sub-variant recognized when it is populated. *)
Definition populated (s : string) : bool := negb (String.eqb s "").

Definition assetType : GoType := TInterface "pulumi.Asset".
Definition archiveType : GoType := TInterface "pulumi.Archive".

(** [e, ok := obj[key]] followed by a call [f e]: the entry of [obj] under
    [key] is found by a traversal, so that [f] is applied to a component of
    the map ([lookupWith_lookup] relates it to the map's lookup). *)
Definition lookupWith {A B : Type} (f : A -> B) (key : string) (obj : gmap string A)
    : option B :=
  map_fold (fun k e acc => if String.eqb k key then Some (f e) else acc) None obj.

Section Unmarshal.
Context {reflection : Reflection} {runtime : Runtime}.

(** The package variables [resourcePackages] and [resourceModules]. *)
Variable resourcePackages : versionedMap ResourcePackage.
Variable resourceModules : versionedMap ResourceModule.

(** [unmarshalResourceReference] *)
Definition unmarshalResourceReference (ref : ResourceReference) : Outcome Resource :=
  match (if bool_decide (0 < String.length (ref_PackageVersion ref))%nat
         then ParseTolerant (ref_PackageVersion ref)
         else Some nullVersion) with
  | None => Err (ErrParseProviderVersion (ref_PackageVersion ref))
  | Some version =>
      let resName := URN_Name (ref_URN ref) in
      let resType := URN_Type (ref_URN ref) in
      let isProvider :=
        HasModuleMember resType && String.eqb (Type_Module resType) "pulumi:providers" in
      if isProvider then
        let pkgName := Type_Name resType in
        let '(resourcePackageV, ok) := Load resourcePackages pkgName version in
        if ok then
          match resourcePackageV with
          | Some resourcePackage =>
              ConstructProvider resourcePackage resName resType (ref_URN ref)
          | None => Panic "interface conversion: interface is nil, not ResourcePackage"
          end
        else
          let '(id, _) := IDString ref in
          mret (newDependencyProviderResource (ref_URN ref) id)
      else
        let modName := Type_Module resType in
        let '(resourceModuleV, ok) := Load resourceModules modName version in
        if ok then
          match resourceModuleV with
          | Some resourceModule =>
              Construct resourceModule resName resType (ref_URN ref)
          | None => Panic "interface conversion: interface is nil, not ResourceModule"
          end
        else
          let '(id, hasID) := IDString ref in
          if hasID then mret (newDependencyCustomResource (ref_URN ref) id)
          else mret (newDependencyResource (ref_URN ref))
  end.

(** [unmarshalPropertyValue].  A [range] over a Go map visits the entries
    in an unspecified order; the model visits them in the order of
    [map_fold]. *)
Fixpoint unmarshalPropertyValue (v : PropertyValue) : Outcome (RuntimeValue * bool) :=
  match v with
  | PVComputed => mret (RNil, false)
  | PVOutput element known secret _ =>
      if negb known then mret (RNil, secret)
      else
        '(ov, _) ← unmarshalPropertyValue element;
        mret (ov, secret)
  | PVSecret element =>
      '(sv, _) ← unmarshalPropertyValue element;
      mret (sv, true)
  | PVArray arr =>
      (fix each (arr : list PropertyValue) (rv : list RuntimeValue) (secret : bool)
         : Outcome (RuntimeValue * bool) :=
         match arr with
         | [] => mret (RSlice rv, secret)
         | e :: rest =>
             '(ev, esecret) ← unmarshalPropertyValue e;
             each rest (rv ++ [ev]) (secret || esecret)
         end) arr [] false
  | PVObject props =>
      '(m, secret) ← map_fold (fun k e (acc : Outcome (gmap string RuntimeValue * bool)) =>
                         '(m, secret) ← acc;
                         '(ev, esecret) ← unmarshalPropertyValue e;
                         mret (<[k := ev]> m, secret || esecret))
                      (mret (∅, false)) props;
      mret (RMap m, secret)
  | PVAsset asset =>
      if populated (asset_Path asset) then mret (RNewFileAsset (asset_Path asset), false)
      else if populated (asset_Text asset) then mret (RNewStringAsset (asset_Text asset), false)
      else if populated (asset_URI asset) then mret (RNewRemoteAsset (asset_URI asset), false)
      else Err ErrExpectedAssetKind
  | PVArchive assets path uri =>
      match assets with
      | Some assets =>
          '(m, secret) ← map_fold (fun k a (acc : Outcome (gmap string RuntimeValue * bool)) =>
                             '(m, secret) ← acc;
                             '(a, asecret) ← unmarshalPropertyValue a;
                             mret (<[k := a]> m, secret || asecret))
                          (mret (∅, false)) assets;
          mret (RNewAssetArchive m, secret)
      | None =>
          if populated path then mret (RNewFileArchive path, false)
          else if populated uri then mret (RNewRemoteArchive uri, false)
          else Err ErrExpectedAssetKind
      end
  | PVResourceReference ref =>
      resource ← unmarshalResourceReference ref;
      mret (RResource resource, false)
  | PVNull => mret (RNil, false)
  | PVBool b => mret (RBool b, false)
  | PVNumber n => mret (RNumber n, false)
  | PVString s => mret (RString s, false)
  end.

(** The loop [for dest.Kind() == reflect.Ptr] of [unmarshalOutput], on the
    type of [dest]: the type under the pointers, and whether there was one. *)
Fixpoint allocate (t : GoType) : GoType * bool :=
  match t with
  | TPtr elem => ((allocate elem).1, true)
  | _ => (t, false)
  end.

(** [v.TypeString()], used in error messages only. *)
Definition TypeString (v : PropertyValue) : string :=
  match v with
  | PVNull => "null" | PVBool _ => "bool" | PVNumber _ => "number"
  | PVString _ => "string" | PVArray _ => "[]" | PVObject _ => "object"
  | PVAsset _ => "asset" | PVArchive _ _ _ => "archive" | PVSecret _ => "secret"
  | PVOutput _ _ _ _ => "output" | PVComputed => "output<unknown>"
  | PVResourceReference _ => "resourceReference"
  end.

(** [unmarshalOutput], as a function of the wire value and of the type of
    the settable destination.  It returns the secret flag or the error; the
    value stored into [dest] does not influence either and is not
    tracked. *)
Fixpoint unmarshalOutput (v : PropertyValue) (destType : GoType) {struct v} : Outcome bool :=
  let '(dest, allocatedPointer) := allocate destType in
  let scalar (ok : bool) : Outcome bool :=
    if ok then mret false else Err (ErrExpected dest (TypeString v)) in
  match v with
  | PVNull | PVComputed => mret false
  | PVOutput element known secret _ =>
      if negb known then mret false
      else
        _ ← unmarshalOutput element dest;
        mret secret
  | PVAsset _ =>
      if negb (AssignableTo assetType dest) then Err (ErrExpected dest "asset")
      else
        '(_, secret) ← unmarshalPropertyValue v;
        mret secret
  | PVArchive _ _ _ =>
      if negb (AssignableTo archiveType dest) then Err (ErrExpected dest "archive")
      else
        '(_, secret) ← unmarshalPropertyValue v;
        mret secret
  | PVSecret element =>
      _ ← unmarshalOutput element dest;
      mret true
  | PVResourceReference ref =>
      res ← unmarshalResourceReference ref;
      match resourceType res with
      | TPtr resElem =>
          if negb allocatedPointer && bool_decide (kindOf dest = KInterface)
             && AssignableTo resElem dest
          then mret false
          else if negb (AssignableTo resElem dest) then Err (ErrExpected dest "resource")
          else mret false
      | _ => Panic "reflect: call of reflect.Value.Elem on a non-pointer Value"
      end
  | _ =>
      match dest with
      | TBasic _ BBool => scalar (match v with PVBool _ => true | _ => false end)
      | TBasic _ BInt | TBasic _ BUint | TBasic _ BFloat =>
          scalar (match v with PVNumber _ => true | _ => false end)
      | TBasic _ BString => scalar (match v with PVString _ => true | _ => false end)
      | TSlice _ elemType =>
          match v with
          | PVArray arr =>
              (fix each (arr : list PropertyValue) (secret : bool) : Outcome bool :=
                 match arr with
                 | [] => mret secret
                 | e :: rest =>
                     isecret ← unmarshalOutput e elemType;
                     each rest (secret || isecret)
                 end) arr false
          | _ => Err (ErrExpected dest (TypeString v))
          end
      | TMap _ keyType elemType =>
          match v with
          | PVObject props =>
              if bool_decide (kindOf keyType ≠ KString) then Err ErrMapKeysNotString
              else
                map_fold (fun k e (acc : Outcome bool) =>
                            secret ← acc;
                            if IsInternalPropertyKey k then mret secret
                            else
                              esecret ← unmarshalOutput e elemType;
                              mret (secret || esecret))
                         (mret false) props
          | _ => Err (ErrExpected dest (TypeString v))
          end
      | TInterface _ =>
          if bool_decide (dest = assetType) || bool_decide (dest = archiveType) then
            '(_, secret) ← unmarshalPropertyValue v;
            mret secret
          else if negb (Implements anyType dest) then Err (ErrNonEmptyInterface dest)
          else
            '(_, secret) ← unmarshalPropertyValue v;
            mret secret
      | TStruct _ fields =>
          match v with
          | PVObject obj =>
              (fix each (fields : list StructField) (secret : bool) : Outcome bool :=
                 match fields with
                 | [] => mret secret
                 | field :: rest =>
                     if negb (IsExported (fieldName field)) then each rest secret
                     else
                       let tag := tagName (fieldTag field) in
                       if bool_decide (tag = "") then each rest secret
                       else
                         match lookupWith (fun e => unmarshalOutput e (fieldType field))
                                          tag obj with
                         | None => each rest secret
                         | Some result =>
                             osecret ← result;
                             each rest (secret || osecret)
                         end
                 end) fields false
          | _ => Err (ErrExpected dest (TypeString v))
          end
      | _ => Err (ErrCannotUnmarshalInto dest)
      end
  end.

End Unmarshal.

(** ** Outputs and [Apply] *)

(** Modelled from the spec: the future cell and the combinator [Apply]
    ([ApplyT] in the Go SDK), declared in [sdk/go/internal] and
    [sdk/go/pulumi/types.go]; of these only the test [TestOutputApply] is at
    hand.  Sections 3, 4.1 and 4.2 of the specification give the contract
    followed here: a cell is settled once, by [resolve(value, known, secret,
    deps)] or by [reject(err)]; an unknown output carries no value but does
    carry its secret flag and dependencies; [Apply(o, f)] invokes [f] on the
    value when [o] resolves known, rejects when [f] returns an error,
    resolves known with the value [f] returns, and, when [f] returns another
    output, awaits it and inherits its known, secret and dependencies, the
    secret flag being OR-composed and the dependency sets united; when [o]
    resolves unknown, or rejects, [f] is not invoked.

    The callback may have effects (the test sets a flag [ranApp]); it is a
    function on a store [S] of whatever it can change. *)
Module output.

Inductive Cell (A : Type) : Type :=
| Known (value : A) (secret : bool) (deps : gset URN)
| Unknown (secret : bool) (deps : gset URN)
| Rejected (err : Error)
| Unsettled.
Arguments Known {A} _ _ _.
Arguments Unknown {A} _ _.
Arguments Rejected {A} _.
Arguments Unsettled {A}.

(** [resolve(value, known, secret, deps)] and [reject(err)] on a fresh cell. *)
Definition resolve {A : Type} (value : A) (known secret : bool) (deps : gset URN) : Cell A :=
  if known then Known value secret deps else Unknown secret deps.

Definition reject {A : Type} (err : Error) : Cell A := Rejected err.

(** What a callback returns: a plain value, an error, or another output. *)
Inductive Returned (B : Type) : Type :=
| RetValue (b : B)
| RetError (err : Error)
| RetOutput (inner : Cell B).
Arguments RetValue {B} _.
Arguments RetError {B} _.
Arguments RetOutput {B} _.

Definition Apply {A B S : Type} (o : Cell A) (f : A -> S -> Returned B * S) (s : S)
    : Cell B * S :=
  match o with
  | Unsettled => (Unsettled, s)
  | Rejected err => (Rejected err, s)
  | Unknown secret deps => (Unknown secret deps, s)
  | Known value secret deps =>
      let '(r, s') := f value s in
      match r with
      | RetError err => (Rejected err, s')
      | RetValue b => (Known b secret deps, s')
      | RetOutput Unsettled => (Unsettled, s')
      | RetOutput (Rejected err) => (Rejected err, s')
      | RetOutput (Known b secret' deps') => (Known b (secret || secret') (deps ∪ deps'), s')
      | RetOutput (Unknown secret' deps') => (Unknown (secret || secret') (deps ∪ deps'), s')
      end
  end.

(** [await]: the tuple [(value, known, secret, deps, error)] of a settled
    cell, [Blocked] for a cell that is never settled. *)
Definition await {A : Type} (o : Cell A)
    : Outcome (option A * bool * bool * gset URN * option Error) :=
  match o with
  | Known value secret deps => Ok (Some value, true, secret, deps, None)
  | Unknown secret deps => Ok (None, false, secret, deps, None)
  | Rejected err => Ok (None, false, false, ∅, Some err)
  | Unsettled => Blocked
  end.

End output.

(** ** Three-way comparisons *)

(** A three-way comparison is coherent when swapping its arguments flips
    its result and each of its three results is transitive.  A coherent
    comparison makes "not [Lt]" (greater or equal) a total preorder. *)
Record coherent {A : Type} (cmp : A -> A -> comparison) : Prop := mkCoherent {
  coh_flip : forall x y, cmp y x = CompOpp (cmp x y);
  coh_chain : forall c x y z, cmp x y = c -> cmp y z = c -> cmp x z = c
}.

(** Comparing first by [c1] and, on a tie, by [c2]. *)
Definition lexico (c1 c2 : comparison) : comparison :=
  match c1 with Eq => c2 | _ => c1 end.

(** The last step of [Compare]: a version without pre-release tags is the
    greater one. *)
Definition preRelease (v o : list semver.PRVersion) : comparison :=
  match v, o with
  | [], [] => Eq
  | [], _ :: _ => Gt
  | _ :: _, [] => Lt
  | _ :: _, _ :: _ => semver.PreCompare v o
  end.

(** ** Statements about the registry *)

Section LoadStatement.
Context {V : Type} `{Versioned V}.

(** The entries [Load] considers for [version]: every entry under the
    wildcard version, the entries of the same major version otherwise. *)
Definition isCandidate (version : semver.Version) (v : V) : bool :=
  semver.EQ version nullVersion
  || (semver.Major (Version v) =? semver.Major version)%N.

Definition candidates (vm : versionedMap V) (key : string) (version : semver.Version)
    : list V :=
  List.filter (isCandidate version) (default [] (versions vm !! key)).

Definition isExact (version : semver.Version) (v : V) : bool :=
  semver.EQ (Version v) version.

(** The scan that keeps the greater-or-equal entry. *)
Definition keepGTE (best : option V) (v : V) : option V :=
  match best with
  | None => Some v
  | Some b => if semver.GTE (Version v) (Version b) then Some v else best
  end.

End LoadStatement.
Definition v1_2_0 : semver.Version := semver.mkVersion 1 2 0 [] [].
Definition v1_5_0 : semver.Version := semver.mkVersion 1 5 0 [] [].
Definition v2_0_0 : semver.Version := semver.mkVersion 2 0 0 [] [].

Definition exampleModule (version : semver.Version) : ResourceModule :=
  mkResourceModule version (fun _ _ urn => Ok (mkResource 0 DependencyOnly (Settled urn true false) (Settled "" false false) [])).

Definition exampleRegistry : versionedMap ResourceModule :=
  mkVersionedMap {[ "aws:s3" := [exampleModule v1_2_0; exampleModule v2_0_0] ]}.

(** ** Statements about the dependency aggregator *)

Definition urnSettles (res : Resource) : bool :=
  match res_urn res with Settled _ _ _ => true | _ => false end.

(** Every URN that [addDependency] awaits on its way through [res] settles
    without an error. *)
Fixpoint awaitedSettle (from : option Resource) (res : Resource) : bool :=
  if isCustomResource res then urnSettles res
  else if sameResource res from then true
  else forallb (awaitedSettle from) (res_children res)
       && (if keepDependency res then urnSettles res else true).

(** The scenario of section 8: a local component [C] with the children
    [A] (custom) and [D], a local component with the custom children [B]
    and [E]. *)
Definition customResource (addr : N) (urn : URN) : Resource :=
  mkResource addr Custom (Settled urn true false) (Settled "id" true false) [].

Definition localComponent (addr : N) (urn : URN) (children : list Resource) : Resource :=
  mkResource addr LocalComponent (Settled urn true false) (Settled "" false false) children.

Definition resA : Resource := customResource 1 "urn:A".
Definition resB : Resource := customResource 2 "urn:B".
Definition resE : Resource := customResource 3 "urn:E".
Definition resD : Resource := localComponent 4 "urn:D" [resB; resE].
Definition resC : Resource := localComponent 5 "urn:C" [resA; resD].
Section AggregatorStatement.
Variable from : option Resource.

(** The loop over the children in [addDependency]. *)
Definition addChildren : list Resource -> gmap URN Resource -> Outcome (gmap URN Resource) :=
  fix children (cs : list Resource) (deps : gmap URN Resource) :=
    match cs with
    | [] => mret deps
    | child :: cs' =>
        deps ← addDependency deps child from;
        children cs' deps
    end.

Definition childContributions : list Resource -> gset URN :=
  fix children (cs : list Resource) : gset URN :=
    match cs with
    | [] => ∅
    | child :: cs' => contribution from child ∪ children cs'
    end.

(** What a successful run of the aggregator from [deps] to [deps'] with
    the contribution [urns] guarantees. *)
Definition extends (deps deps' : gmap URN Resource) (urns : gset URN) : Prop :=
  dom deps' = dom deps ∪ urns
  /\ forall urn res, deps' !! urn = Some res -> deps !! urn = Some res \/ urnOf res = urn.

End AggregatorStatement.

(** ** Statements about the marshaling engine *)

(** Go's export rule on a name that starts with an ASCII character: the
    name is exported when that character is one of [A] to [Z].  (A name
    that starts with another character is exported when that character is
    an upper-case letter of Unicode.) *)
Definition exportedASCII (name : string) : bool :=
  match name with
  | String c _ => (65 <=? nat_of_ascii c)%nat && (nat_of_ascii c <=? 90)%nat
  | EmptyString => false
  end.


(** An instance of [Reflection] for the examples: a type is assignable to
    itself and to [interface{}], convertible to the types of its kind,
    [MapStructTypes] pairs the fields of two struct types by position when
    the types are equal and by name otherwise, and a name is exported by
    the rule for ASCII names, the only names of the examples. *)
Definition fieldByName (name : string) (fields : list StructField) : option StructField :=
  List.find (fun f => String.eqb (fieldName f) name) fields.

Definition exampleReflection : Reflection := {|
  AssignableTo a b := bool_decide (a = b) || bool_decide (b = anyType);
  ConvertibleTo a b := bool_decide (kindOf a = kindOf b);
  MapStructTypes from to :=
    match from, to with
    | TStruct _ fs, TStruct _ gs =>
        Some (fun i => if bool_decide (from = to) then gs !! i
                       else f ← fs !! i; fieldByName (fieldName f) gs)
    | _, _ => None
    end;
  IsExported := exportedASCII
|}.

(** Increasing string order, as [sort.Slice] with [<] leaves a slice. *)
Definition string_lt (a b : string) : Prop := String.ltb a b = true.

(** The field [Dependencies] that the output case computes from the
    expanded dependency set. *)
Definition outputDependencies (depSet : gmap URN Resource) : list URN :=
  if bool_decide (0 < size depSet)%nat then sortURNs (mapKeys depSet) else [].

(** The dependency list that the resource case of the marshaler returns. *)
Definition resourceDeps (opts : option marshalOptions) (deps : list Resource) (r : Resource)
    : list Resource :=
  if includeResourceRefs opts then deps ++ [r] else deps.

(** A secret [StringOutput] that resolved to a known string and depends on
    the component [resC]. *)
Definition stringOutputData : Data := DStruct "pulumi.StringOutput" [].

Definition secretOutput : OutputState Value :=
  Resolved (VPlain (DString "string" "hunter2")) true true [resC].

Definition exampleSecretOutput : Value :=
  VInput stringType (fun _ => None) (Some secretOutput) stringOutputData.

(** A custom resource whose ID is not known yet, as during a preview. *)
Definition previewResource : Resource :=
  mkResource 7 Custom (Settled "urn:pulumi:dev::app::aws:s3/bucket:Bucket::b" true false)
    (Settled "" false false) [].

(** The outcome of the input check of [marshalInputOptionsImpl] for a
    non-nil input with the element type [elementType] and the conversion
    table [toOutput]: the destination type after the pointer adjustment,
    together with the output the conversion method produced, or the fact
    that the input is used as it is, or that the element type fits
    neither way. *)
Inductive InputCheck : Type :=
| CheckConverted (destType : GoType) (outputType : GoType) (output : OutputState Value)
| CheckDirect (destType : GoType)
| CheckMismatch (destType : GoType).

Section MarshalStatement.
Context {reflection : Reflection}.

Definition adjustDest (valueType destType : GoType) : GoType :=
  if bool_decide (valueType ≠ destType) && bool_decide (kindOf destType = KPtr)
     && bool_decide (Elem destType = Some valueType)
  then valueType else destType.

Definition inputCheck (elementType : GoType)
    (toOutput : GoType -> option (GoType * OutputState Value)) (destType : GoType)
    : InputCheck :=
  let destType := adjustDest elementType destType in
  if bool_decide (elementType ≠ destType) && bool_decide (destType ≠ anyType) then
    match toOutput destType with
    | Some (newType, newOutput) => CheckConverted destType newType newOutput
    | None =>
        if negb (AssignableTo elementType destType) then CheckMismatch destType
        else CheckDirect destType
    end
  else CheckDirect destType.

Variable opts : option marshalOptions.

(** The local function that awaits an output in [marshalLoop]. *)
Definition awaitOutput (outputType : GoType) (output : OutputState Value)
    (destType : GoType) : Outcome (PropertyValue * list Resource) :=
  if errorOnOutput opts then Err (ErrCannotAwait outputType)
  else
    match output with
    | Rejected err => Err err
    | Unsettled => Blocked
    | Resolved ov known secret outputDeps =>
        if known then
          '(element, _) ← marshalLoop opts ov destType true [];
          wrapOutput element known secret outputDeps
        else wrapOutput PVNull known secret outputDeps
    end.

(** The loops of [marshalData] over the elements of a slice, the entries
    of a map and the fields of a struct. *)
Definition marshalElems (destElem : GoType)
    : list Value -> list PropertyValue -> list Resource ->
      Outcome (PropertyValue * list Resource) :=
  fix each elems arr deps :=
    match elems with
    | [] => mret (PVArray arr, deps)
    | elem :: rest =>
        '(e, d) ← marshalLoop opts elem destElem false [];
        each rest (arr ++ [e]) (deps ++ d)
    end.

Definition marshalMapEntries (destElem : GoType)
    : list (string * Value) -> gmap string PropertyValue -> list Resource ->
      Outcome (PropertyValue * list Resource) :=
  fix each entries obj deps :=
    match entries with
    | [] => mret (PVObject obj, deps)
    | (key, value) :: rest =>
        '(mv, d) ← marshalLoop opts value destElem false [];
        each rest (if negb (IsNull mv) then <[key := mv]> obj else obj) (deps ++ d)
    end.

Definition marshalStructFields (getMappedField : nat -> option StructField)
    : nat -> list (StructField * Value) -> gmap string PropertyValue -> list Resource ->
      Outcome (PropertyValue * list Resource) :=
  fix each i fields obj deps :=
    match fields with
    | [] => mret (PVObject obj, deps)
    | (sourceField, field) :: rest =>
        match getMappedField i with
        | None => Panic "MapStructTypes: unknown field"
        | Some destField =>
            let tag := tagName (fieldTag destField) in
            if bool_decide (tag = "") then each (S i) rest obj deps
            else if negb (IsExported (fieldName sourceField)) then Panic unexportedField
            else
              '(fv, d) ← marshalLoop opts field (fieldType destField) false [];
              each (S i) rest (if negb (IsNull fv) then <[tag := fv]> obj else obj)
                   (deps ++ d)
        end
    end.

(** The types [valueType] and [destType] after the interface step of
    [marshalData]. *)
Definition settleTypes (d : Data) (valueType destType : GoType) : GoType * GoType :=
  let valueType :=
    if bool_decide (kindOf destType = KInterface) && bool_decide (kindOf valueType = KInterface)
    then typeOfData d else valueType in
  (valueType, if bool_decide (kindOf destType = KInterface) then valueType else destType).

Definition assignable (valueType destType : GoType) : bool :=
  AssignableTo valueType destType || ConvertibleTo valueType destType.

(** What the claim about outputs says of the result of marshaling, given
    the state [awaited] of the output that is awaited and the destination
    type [destType] in force. *)
Definition marshalsOutput (result : Outcome (PropertyValue * list Resource))
    (awaited : OutputState Value) (destType : GoType) : Prop :=
  match awaited with
  | Unsettled => result = Blocked
  | Rejected err => result = Err err
  | Resolved ov known secret outputDeps =>
      let wrapped (element : PropertyValue) : Prop :=
        match expandDependencies outputDeps with
        | Ok depSet =>
            exists urns,
              result = Ok (PVOutput element known secret urns, outputDeps)
              /\ StronglySorted string_lt urns /\ NoDup urns
              /\ forall u, u ∈ urns <-> u ∈ dom depSet
        | Err err => result = Err err
        | Panic msg => result = Panic msg
        | Blocked => result = Blocked
        end in
      if known then
        match marshalInputOptionsImpl ov destType opts true with
        | Ok (element, _) =>
            if negb secret && bool_decide (outputDeps = [])
            then result = Ok (element, [])
            else wrapped element
        | Err err => result = Err err
        | Panic msg => result = Panic msg
        | Blocked => result = Blocked
        end
      else wrapped PVNull
  end.

End MarshalStatement.

(** *** Structs *)





(** [if !fv.IsNull() { obj[key] = fv }] *)
Definition putField (obj : gmap string PropertyValue) (kv : string * PropertyValue)
    : gmap string PropertyValue :=
  if negb (IsNull kv.2) then <[kv.1 := kv.2]> obj else obj.


(** The structs of the scenarios of section 8. *)
Definition intType : GoType := TBasic "int" BInt.






(** *** Top-level properties *)

(** A top-level property as [marshalProperty] receives it: its name, its
    value and its destination type. *)
Abbreviation Property := (string * Value * GoType)%type (only parsing).

(** What [marshalProperty] computes for a property before it updates the
    maps: the marshaled value, the dependency resources and their
    expansion. *)
Abbreviation Marshaled := (PropertyValue * list Resource * gmap URN Resource)%type
  (only parsing).

Section TopLevelStatement.
Context {reflection : Reflection}.








End TopLevelStatement.


(** A map input with one entry whose value is a resource. *)
Definition anyMapType : GoType := TMap "pulumi.Map" stringType anyType.



Definition resourceMap : Value :=
  VInput anyMapType (fun _ => None) None
    (DMap "pulumi.Map" stringType anyType
       (Some [("bucket", VPlain (DResource "Bucket" resA []));
              ("none", VNil)])).

(** *** Where the errors of the marshaler come from *)

(** The errors [marshalInputOptionsImpl] builds itself when
    [ErrorOnOutput] is unset. *)
Definition builtByMarshal (e : Error) : Prop :=
  match e with
  | ErrCannotMarshalInput _ _ _ | ErrInvalidAsset | ErrInvalidArchive
  | ErrMapKeys _ | ErrUnrecognizedInput _ => True
  | _ => False
  end.

(** A future of the resource [r] or of one of its descendants (its URN or
    its ID) is rejected with [e]. *)
Inductive ResourceFails (e : Error) : Resource -> Prop :=
| fails_urn r : res_urn r = Failed e -> ResourceFails e r
| fails_id r : res_id r = Failed e -> ResourceFails e r
| fails_child r child :
    In child (res_children r) -> ResourceFails e child -> ResourceFails e r.

(** A future inside a value is rejected with [e]: an output, the output of
    a conversion method, or a future of a resource that the value or one of
    its outputs refers to. *)
Inductive Carries (e : Error) : Value -> Prop :=
| carries_plain d : CarriesData e d -> Carries e (VPlain d)
| carries_input elementType toOutput asOutput d :
    CarriesData e d -> Carries e (VInput elementType toOutput asOutput d)
| carries_output elementType toOutput output d :
    CarriesState e output ->
    Carries e (VInput elementType toOutput (Some output) d)
| carries_converted elementType toOutput asOutput d destType newType output :
    toOutput destType = Some (newType, output) ->
    CarriesState e output ->
    Carries e (VInput elementType toOutput asOutput d)
with CarriesState (e : Error) : OutputState Value -> Prop :=
| carries_rejected : CarriesState e (Rejected e)
| carries_resolved ov known secret deps :
    Carries e ov -> CarriesState e (Resolved ov known secret deps)
| carries_deps ov known secret deps r :
    In r deps -> ResourceFails e r -> CarriesState e (Resolved ov known secret deps)
with CarriesData (e : Error) : Data -> Prop :=
| carries_ptr elem p : Carries e p -> CarriesData e (DPtr elem (Some p))
| carries_slice name elem elems v :
    In v elems -> Carries e v -> CarriesData e (DSlice name elem (Some elems))
| carries_map name key elem entries k v :
    In (k, v) entries -> Carries e v -> CarriesData e (DMap name key elem (Some entries))
| carries_struct name fields f v :
    In (f, v) fields -> Carries e v -> CarriesData e (DStruct name fields)
| carries_archive invalid assets path uri k v :
    In (k, v) assets -> Carries e v -> CarriesData e (DArchive invalid (Some assets) path uri)
| carries_resource name r fields :
    ResourceFails e r -> CarriesData e (DResource name r fields).

(** A property of the value of a resolved output. *)
Definition onResolved (P : Value -> Prop) (st : OutputState Value) : Prop :=
  match st with
  | Resolved ov _ _ _ => P ov
  | _ => True
  end.

(** An error of the marshaler is one it built or one a future inside the
    value was rejected with. *)
Definition errorFromValue {reflection : Reflection} (opts : option marshalOptions)
    (v : Value) : Prop :=
  forall destType skip deps e,
    marshalLoop opts v destType skip deps = Err e -> builtByMarshal e \/ Carries e v.

Definition errorFromData {reflection : Reflection} (opts : option marshalOptions)
    (d : Data) : Prop :=
  forall valueType destType deps e,
    marshalData opts d valueType destType deps = Err e ->
    builtByMarshal e \/ CarriesData e d.

(** The loop of [marshalData] over the assets of an archive. *)
Definition marshalAssets {reflection : Reflection} (opts : option marshalOptions)
    : list (string * Value) -> gmap string PropertyValue ->
      Outcome (gmap string PropertyValue) :=
  fix each entries assets :=
    match entries with
    | [] => mret assets
    | (k, a) :: rest =>
        '(aa, _) ← marshalLoop opts a anyType false [];
        each rest (<[k := aa]> assets)
    end.
(** Options with [ErrorOnOutput] set. *)
Definition errorOnOutputSet : option marshalOptions := Some (mkMarshalOptions true false).

(** ** Statements about the unmarshaling engine *)

(** An instance of [Runtime] for the examples.  A URN is taken to be
    [type::name], a type [module:member] with the package as the member of
    a provider type; only the version string ["1.2.0"] parses. *)
Definition beforeSep (sep : string) (s : string) : string :=
  match String.index 0 sep s with
  | Some n => String.substring 0 n s
  | None => s
  end.

Definition afterSep (sep : string) (s : string) : string :=
  match String.index 0 sep s with
  | Some n => String.substring (n + String.length sep) (String.length s) s
  | None => ""
  end.

Definition dependencyResource (kind : ResourceKind) (urn : URN) (id : Awaited ID)
    : Resource :=
  mkResource 0 kind (Settled urn true false) id [].

Definition exampleRuntime : Runtime := {|
  ParseTolerant s := if String.eqb s "1.2.0" then Some v1_2_0 else None;
  URN_Name urn := afterSep "::" urn;
  URN_Type urn := beforeSep "::" urn;
  HasModuleMember t := bool_decide (String.index 0 ":" (afterSep ":" t) <> None);
  Type_Module t :=
    String.append (beforeSep ":" t) (String.append ":" (beforeSep ":" (afterSep ":" t)));
  Type_Name t := afterSep ":" (afterSep ":" t);
  IsInternalPropertyKey k := String.prefix "__" k;
  newDependencyProviderResource urn id :=
    dependencyResource Custom urn (Settled id true false);
  newDependencyCustomResource urn id :=
    dependencyResource Custom urn (Settled id true false);
  newDependencyResource urn :=
    dependencyResource DependencyOnly urn (Settled "" false false);
  Implements t i := bool_decide (i = anyType);
  resourceType r := TPtr (TStruct "pulumi.ResourceState" [])
|}.

Definition noPackages : versionedMap ResourcePackage := mkVersionedMap ∅.
Definition noModules : versionedMap ResourceModule := mkVersionedMap ∅.

(** An output wire value that is secret and not known, as during a
    preview. *)
Definition unknownSecret : PropertyValue := PVOutput PVNull false true [].


Definition providerReference : ResourceReference :=
  mkResourceReference "pulumi:providers:aws::default" (Some "p-1") "".

Section ReferenceStatement.
Context {runtime : Runtime}.

(** The version [unmarshalResourceReference] looks up: the wildcard for an
    empty [PackageVersion], else what [ParseTolerant] yields. *)
Definition referenceVersion (ref : ResourceReference) : option semver.Version :=
  if bool_decide (0 < String.length (ref_PackageVersion ref))%nat
  then ParseTolerant (ref_PackageVersion ref)
  else Some nullVersion.

Definition isProviderReference (ref : ResourceReference) : bool :=
  HasModuleMember (URN_Type (ref_URN ref))
  && String.eqb (Type_Module (URN_Type (ref_URN ref))) "pulumi:providers".

End ReferenceStatement.

(** ** Statements about [Apply] *)

(** The callback of [TestOutputApply]: it sets the flag [ranApp] and
    returns [v + 1]. *)
Definition incrementAndFlag (v : Z) (ranApp : bool) : output.Returned Z * bool :=
  (output.RetValue (v + 1)%Z, true).

(** ** Statements about registrations *)

Section RegistryStatement.
Context {V : Type} `{Versioned V}.

(** The registries that are built from the empty map, which [init]
    installs in [resourcePackages] and [resourceModules], by calls of
    [Store] that returned no error. *)
Inductive registered : versionedMap V -> Prop :=
| registered_init : registered (mkVersionedMap ∅)
| registered_Store vm key value vm' :
    registered vm -> Store vm key value = Ok vm' -> registered vm'.

(** The entries stored under [key]. *)
Definition entriesOf (vm : versionedMap V) (key : string) : list V :=
  default [] (versions vm !! key).

(** No two entries of [vs], at different positions, have equal versions. *)
Definition distinctVersions (vs : list V) : Prop :=
  forall i j v w, vs !! i = Some v -> vs !! j = Some w ->
    semver.EQ (Version v) (Version w) = true -> i = j.

End RegistryStatement.

(** A string without a colon. *)
Definition hasColon (s : string) : Prop := In ":"%char (list_ascii_of_string s).

(** A module registered under ["aws"], ["s3"] and a reference to a bucket
    of that module at the version ["1.2.0"]. *)
Definition s3Module : ResourceModule :=
  mkResourceModule v1_2_0
    (fun name typ urn => Ok (mkResource 9 Custom (Settled urn true false)
                               (Settled name true false) [])).

Definition versionedBucketReference : ResourceReference :=
  mkResourceReference "aws:s3:Bucket::b" (Some "b-1234") "1.2.0".

(** ** Statements about the walk of the aggregator *)

(** The resources that [addDependency] visits from [res]: [res] itself and,
    when [res] is not a custom resource and is not [from], what it visits
    from the children of [res]. *)
Inductive visited (from : option Resource) : Resource -> Resource -> Prop :=
| visited_self res : visited from res res
| visited_child res child r :
    isCustomResource res = false -> sameResource res from = false ->
    In child (res_children res) -> visited from child r -> visited from res r.

(** What the walk from [res] guarantees of an entry [urn], [r] it added:
    [r] was visited, [urn] is what awaiting the URN of [r] gave, and [r] is
    a custom resource or keeps its dependency. *)
Definition addedBy (from : option Resource) (res : Resource) (urn : URN) (r : Resource)
    : Prop :=
  visited from res r
  /\ (exists known secret, res_urn r = Settled urn known secret)
  /\ isCustomResource r || keepDependency r = true.

(** What the outcome of a walk from [res] tells about the futures it
    awaited. *)
Definition walkOutcome {A : Type} (from : option Resource) (res : Resource)
    (settle : bool) (out : Outcome A) : Prop :=
  match out with
  | Ok _ => settle = true
  | Err e => settle = false /\ exists r, visited from res r /\ res_urn r = Failed e
  | Blocked => settle = false /\ exists r, visited from res r /\ res_urn r = NeverSettles
  | Panic _ => False
  end.

(** ** Statements about slices, maps and the options of the marshaler *)

(** The destination type in force in the slice, map and struct cases of
    [marshalInputOptionsImpl] for a value of the type [valueType] that is
    not of interface kind: [valueType] itself for a destination of
    interface kind, else the destination. *)
Definition settledDest (valueType destType : GoType) : GoType :=
  if bool_decide (kindOf destType = KInterface) then valueType else destType.

(** The property value of a result, without its dependency list. *)
Definition valueOf (result : Outcome (PropertyValue * list Resource)) : Outcome PropertyValue :=
  '(v, _) ← result; mret v.

(** A wire value that is no [Secret] and no [Computed] value and holds
    none as an element of an array, an entry of an object, an asset of an
    archive or the element of an output, at any depth: secrets and
    unknowns, if any, are [Output] values.  A resource reference is a
    leaf: the property that the library keeps inside it for the ID is not
    part of [ResourceReference] and is not described. *)
Inductive outputValued : PropertyValue -> Prop :=
| outputValued_null : outputValued PVNull
| outputValued_bool b : outputValued (PVBool b)
| outputValued_number n : outputValued (PVNumber n)
| outputValued_string s : outputValued (PVString s)
| outputValued_array elems : Forall outputValued elems -> outputValued (PVArray elems)
| outputValued_object props :
    (forall k e, props !! k = Some e -> outputValued e) -> outputValued (PVObject props)
| outputValued_asset a : outputValued (PVAsset a)
| outputValued_archive assets path uri :
    (forall m k e, assets = Some m -> m !! k = Some e -> outputValued e) ->
    outputValued (PVArchive assets path uri)
| outputValued_output element known secret dependencies :
    outputValued element -> outputValued (PVOutput element known secret dependencies)
| outputValued_reference ref : outputValued (PVResourceReference ref).

(** What [marshalInputsOptions] keeps true of the maps and of the set that
    [marshalProperty] updates: the two maps have the same keys, and every
    list of the dependency map is free of duplicates and within the set. *)
Definition consistentState (st : MarshalState) : Prop :=
  dom (pmap st) = dom (pdeps st)
  /\ forall k urns, pdeps st !! k = Some urns ->
       NoDup urns /\ forall u, u ∈ urns -> u ∈ deps st.

Section OptionStatement.
Context {reflection : Reflection}.

(** The property value that marshaling [v], or [d], yields is the same
    under the options [opts1] and [opts2], whatever the destination type
    and the dependencies gathered so far. *)
Definition sameValueUnder (opts1 opts2 : option marshalOptions) (v : Value) : Prop :=
  forall destType skip deps1 deps2,
    valueOf (marshalLoop opts1 v destType skip deps1)
    = valueOf (marshalLoop opts2 v destType skip deps2).

Definition sameDataUnder (opts1 opts2 : option marshalOptions) (d : Data) : Prop :=
  forall valueType destType deps1 deps2,
    valueOf (marshalData opts1 d valueType destType deps1)
    = valueOf (marshalData opts2 d valueType destType deps2).

End OptionStatement.

Section ShapeStatement.
Context {reflection : Reflection}.

(** Whatever marshaling [v], or [d], returns is [outputValued]. *)
Definition marshalsOutputValued (opts : option marshalOptions) (v : Value) : Prop :=
  forall destType skip deps pv deps',
    marshalLoop opts v destType skip deps = Ok (pv, deps') -> outputValued pv.

Definition dataMarshalsOutputValued (opts : option marshalOptions) (d : Data) : Prop :=
  forall valueType destType deps pv deps',
    marshalData opts d valueType destType deps = Ok (pv, deps') -> outputValued pv.

End ShapeStatement.



Definition withoutResourceRefs : option marshalOptions := Some (mkMarshalOptions false true).

Definition bucketArgs : Value :=
  VInput anyMapType (fun _ => None) None
    (DMap "pulumi.Map" stringType anyType
       (Some [("bucket", VPlain (DResource "Bucket" resA []));
              ("name", exampleSecretOutput)])).

(** ** Statements about unmarshaled values *)

(** The number of constructors of a wire value, the measure of the
    induction on wire values. *)
Fixpoint pv_size (v : PropertyValue) : nat :=
  match v with
  | PVArray elems => S (foldr (fun e acc => pv_size e + acc) 0 elems)
  | PVObject props => S (map_fold (fun _ e acc => pv_size e + acc) 0 props)
  | PVArchive (Some assets) _ _ => S (map_fold (fun _ e acc => pv_size e + acc) 0 assets)
  | PVSecret element => S (pv_size element)
  | PVOutput element _ _ _ => S (pv_size element)
  | _ => 1
  end%nat.

Section LoopStatement.
Context {A B : Type}.
Variable f : A -> Outcome (B * bool).

(** The loops of [unmarshalPropertyValue] over the elements of an array
    and over the entries of an object or of the assets of an archive, for
    the function [f] applied to each. *)
Definition unmarshalElements : list A -> list B -> bool -> Outcome (list B * bool) :=
  fix each arr rv secret :=
    match arr with
    | [] => mret (rv, secret)
    | e :: rest =>
        '(ev, esecret) ← f e;
        each rest (rv ++ [ev]) (secret || esecret)
    end.

Definition unmarshalEntries (props : gmap string A) : Outcome (gmap string B * bool) :=
  map_fold (fun k e (acc : Outcome (gmap string B * bool)) =>
              '(m, secret) ← acc;
              '(ev, esecret) ← f e;
              mret (<[k := ev]> m, secret || esecret))
           (mret (∅, false)) props.

(** What the result of the loop over the entries [props] says: a map with
    the keys of [props] that binds each key to what [f] returned for its
    entry, with the disjunction of the flags; or a failure, which some
    entry caused. *)
Definition entriesResult (props : gmap string A) (r : Outcome (gmap string B * bool))
    : Prop :=
  match r with
  | Ok (m, secret) =>
      dom m = dom props
      /\ (forall k e, props !! k = Some e ->
            exists ev es, f e = Ok (ev, es) /\ m !! k = Some ev)
      /\ (secret = true <-> exists k e ev, props !! k = Some e /\ f e = Ok (ev, true))
  | _ => exists k e, props !! k = Some e /\ forall x, f e <> Ok x
  end.

End LoopStatement.

(** The wire value is marked secret where [unmarshalPropertyValue] looks:
    it is a [Secret], an [Output] with the secret flag, or an array, an
    object or an archive with such an element, entry or asset.  What lies
    under a [Secret] or an [Output] does not count. *)
Inductive exposesSecret : PropertyValue -> Prop :=
| exposes_secret element : exposesSecret (PVSecret element)
| exposes_output element known dependencies :
    exposesSecret (PVOutput element known true dependencies)
| exposes_array elems e :
    In e elems -> exposesSecret e -> exposesSecret (PVArray elems)
| exposes_object props k e :
    props !! k = Some e -> exposesSecret e -> exposesSecret (PVObject props)
| exposes_archive assets path uri k e :
    assets !! k = Some e -> exposesSecret e ->
    exposesSecret (PVArchive (Some assets) path uri).

(** An object with a secret entry and a null entry, and an output that is
    not secret itself but holds a secret. *)
Definition secretObject : PropertyValue :=
  PVObject {[ "password" := PVSecret (PVString "hunter2"); "none" := PVNull ]}.

Definition wrappedSecret : PropertyValue :=
  PVOutput (PVSecret (PVString "hunter2")) true false [].

(** ** Statements about the round trip through the wire *)

(** The Go value that a result of [unmarshalPropertyValue] is, as the
    marshaler takes it: nil, a [bool], a [float64], a [string], a
    [[]interface{}] of such values or a [map[string]interface{}] of them,
    its entries in some order.  The assets, archives and resources are left
    out ([None]): their Go types are declared outside [rpc.go]. *)
Definition asValues (asValue : RuntimeValue -> option Value)
    : list RuntimeValue -> option (list Value) :=
  fix each l :=
    match l with
    | [] => Some []
    | e :: rest => e ← asValue e; rest ← each rest; Some (e :: rest)
    end.

Definition asEntries (asValue : RuntimeValue -> option Value)
    (entries : gmap string RuntimeValue) : option (list (string * Value)) :=
  map_fold (fun k e (acc : option (list (string * Value))) =>
              acc ← acc; e ← asValue e; Some ((k, e) :: acc))
           (Some []) entries.

Fixpoint asValue (rv : RuntimeValue) : option Value :=
  match rv with
  | RNil => Some VNil
  | RBool b => Some (VPlain (DBool "bool" b))
  | RNumber n => Some (VPlain (DFloat "float64" n))
  | RString s => Some (VPlain (DString "string" s))
  | RSlice elems =>
      elems ← asValues asValue elems;
      Some (VPlain (DSlice "" anyType (Some elems)))
  | RMap entries =>
      entries ← asEntries asValue entries;
      Some (VPlain (DMap "" stringType anyType (Some entries)))
  | _ => None
  end.

(** The wire values made of [Null], booleans, numbers, strings, arrays and
    objects, where no entry of an object is [Null]. *)
Inductive plainWire : PropertyValue -> Prop :=
| plainWire_null : plainWire PVNull
| plainWire_bool b : plainWire (PVBool b)
| plainWire_number n : plainWire (PVNumber n)
| plainWire_string s : plainWire (PVString s)
| plainWire_array elems : Forall plainWire elems -> plainWire (PVArray elems)
| plainWire_object props :
    (forall k e, props !! k = Some e -> plainWire e /\ IsNull e = false) ->
    plainWire (PVObject props).

Section RoundTripStatement.
Context {reflection : Reflection} {runtime : Runtime}.
Variable resourcePackages : versionedMap ResourcePackage.
Variable resourceModules : versionedMap ResourceModule.

(** Unmarshaling [pv] gives a value that is not secret and that marshals,
    for the destination type [interface{}], to [pv] again, without
    dependencies. *)
Definition roundTrips (pv : PropertyValue) : Prop :=
  exists rv v,
    unmarshalPropertyValue resourcePackages resourceModules pv = Ok (rv, false)
    /\ asValue rv = Some v
    /\ marshalInput v anyType = Ok (pv, []).

End RoundTripStatement.

(** An object with a string and an array of a number and a null. *)
Definition plainObject : PropertyValue :=
  PVObject {[ "name" := PVString "b";
              "tags" := PVArray [PVNumber (float64_of_Z 1); PVNull] ]}.

(** ** [unmarshalPropertyMap] *)

(** The [Input] values that [unmarshalPropertyMap] builds: nil, the prompt
    inputs [Bool], [Float64], [String], [Array] and [Map], the results of
    the asset and archive constructors, the output that [ToSecret] returns
    for an input, and an output created by [ctx.newOutput(typ)] and
    resolved by [internal.ResolveOutput(output, element, known, secret,
    deps)].  The element an output is resolved with is nil, a resource, the
    value that awaiting another output gave, or an input. *)
Inductive InputValue : Type :=
| INil
| IBool (b : bool)
| IFloat64 (n : float64)
| IString (s : string)
| IArray (elems : list InputValue)
| IMap (entries : gmap string InputValue)
| INewFileAsset (path : string)
| INewStringAsset (text : string)
| INewRemoteAsset (uri : string)
| INewAssetArchive (assets : gmap string RuntimeValue)
| INewFileArchive (path : string)
| INewRemoteArchive (uri : string)
| IToSecret (element : InputValue)
| IOutput (typ : GoType) (element : OutputElement) (known secret : bool) (deps : list Resource)
with OutputElement : Type :=
| ResNil
| ResResource (r : Resource)
| ResValue (v : Value)
| ResInput (i : InputValue).

(** What [unmarshalPropertyMap] takes from outside [rpc.go]: the types
    [anyOutputType] and [ResourceOutput], [getOutputType], and [ToOutput]
    together with [awaitWithContext], given as the type of the output that
    [ToOutput] returns for an input and what awaiting it yields ([None]
    when [ToOutput] returns nil). *)
Class OutputRuntime : Type := {
  anyOutputType : GoType;
  resourceOutputType : GoType;
  getOutputType : GoType -> GoType;
  ToOutput : InputValue -> option (GoType * OutputState Value)
}.

(** The two [errors.New] values of [unmarshalPropertyMap]. *)
Definition errNoAssetKind : Error :=
  ErrExternal "expected asset to be one of File, String, or Remote; got none".

Definition errNoArchiveKind : Error :=
  ErrExternal "expected archive to be one of Assets, File, or Remote; got none".

Section UnmarshalMap.
Context {runtime : Runtime} {outputs : OutputRuntime}.
Variable resourcePackages : versionedMap ResourcePackage.
Variable resourceModules : versionedMap ResourceModule.

(** The closure [unmarshal] of [unmarshalPropertyMap].  Its object case
    calls [unmarshalPropertyMap] on the object, which is not nil here, so
    that the loop of that function is its body; the entries of a map are
    visited in the order of [map_fold], and the last [return] of the
    closure, for a value of no known kind, has no counterpart. *)
Fixpoint unmarshal (v : PropertyValue) : Outcome InputValue :=
  match v with
  | PVNull => mret INil
  | PVBool b => mret (IBool b)
  | PVNumber n => mret (IFloat64 n)
  | PVString s => mret (IString s)
  | PVArray a =>
      r ← (fix each (a : list PropertyValue) (r : list InputValue)
             : Outcome (list InputValue) :=
             match a with
             | [] => mret r
             | v :: rest =>
                 uv ← unmarshal v;
                 each rest (r ++ [uv])
             end) a [];
      mret (IArray r)
  | PVObject m =>
      m ← map_fold (fun k v (acc : Outcome (gmap string InputValue)) =>
                      m ← acc;
                      uv ← unmarshal v;
                      mret (<[k := uv]> m))
                   (mret ∅) m;
      mret (IMap m)
  | PVAsset asset =>
      if populated (asset_Path asset) then mret (INewFileAsset (asset_Path asset))
      else if populated (asset_Text asset) then mret (INewStringAsset (asset_Text asset))
      else if populated (asset_URI asset) then mret (INewRemoteAsset (asset_URI asset))
      else Err errNoAssetKind
  | PVArchive assets path uri =>
      match assets with
      | Some assets =>
          as_ ← map_fold (fun k v (acc : Outcome (gmap string RuntimeValue)) =>
                            as_ ← acc;
                            '(a, _) ← unmarshalPropertyValue resourcePackages
                                        resourceModules v;
                            mret (<[k := a]> as_))
                         (mret ∅) assets;
          mret (INewAssetArchive as_)
      | None =>
          if populated path then mret (INewFileArchive path)
          else if populated uri then mret (INewRemoteArchive uri)
          else Err errNoArchiveKind
      end
  | PVResourceReference resRef =>
      let res := newDependencyResource (ref_URN resRef) in
      mret (IOutput resourceOutputType (ResResource res) true false [])
  | PVComputed =>
      mret (IOutput (getOutputType anyType) ResNil false false [])
  | PVSecret element =>
      element ← unmarshal element;
      mret (IToSecret element)
  | PVOutput element known secret dependencies =>
      let deps := newDependencyResource <$> dependencies in
      if known then
        element ← unmarshal element;
        match element with
        | INil => mret (IOutput anyOutputType ResNil known secret deps)
        | _ =>
            match ToOutput element with
            | Some (typ, o) =>
                match o with
                | Resolved innerValue innerKnown innerSecret innerDeps =>
                    mret (IOutput typ (ResValue innerValue) (known && innerKnown)
                            (secret || innerSecret) (deps ++ innerDeps))
                | Rejected err => Err err
                | Unsettled => Blocked
                end
            | None => mret (IOutput anyOutputType (ResInput element) known secret deps)
            end
        end
      else mret (IOutput anyOutputType ResNil known secret deps)
  end.

(** [unmarshalPropertyMap]; [None] is the nil map. *)
Definition unmarshalPropertyMap (v : option (gmap string PropertyValue))
    : Outcome (option (gmap string InputValue)) :=
  match v with
  | None => mret None
  | Some v =>
      m ← map_fold (fun k v (acc : Outcome (gmap string InputValue)) =>
                      m ← acc;
                      uv ← unmarshal v;
                      mret (<[k := uv]> m))
                   (mret ∅) v;
      mret (Some m)
  end.

End UnmarshalMap.

(** ** Statements about [unmarshalPropertyMap] *)

(** The loop of [unmarshalPropertyMap] over the entries of a map, for the
    function [f] applied to each entry. *)
Definition unmarshalMapEntries {A B : Type} (f : A -> Outcome B) (v : gmap string A)
    : Outcome (gmap string B) :=
  map_fold (fun k v (acc : Outcome (gmap string B)) =>
              m ← acc; uv ← f v; mret (<[k := uv]> m))
           (mret ∅) v.

(** An [OutputRuntime] for the examples: no input converts to an
    output. *)
Definition exampleOutputs : OutputRuntime := {|
  anyOutputType := TStruct "pulumi.AnyOutput" [];
  resourceOutputType := TStruct "pulumi.ResourceOutput" [];
  getOutputType t := TStruct "pulumi.AnyOutput" [];
  ToOutput i := None
|}.

(** The outputs of a resource as a preview delivers them: a name and a
    password that is secret and not known yet, depending on a resource. *)
Definition previewOutputs : gmap string PropertyValue :=
  {[ "name" := PVString "b";
     "password" := PVOutput PVNull false true ["urn:A"] ]}.

(** ** Statements about [unmarshalOutput] *)

(** The value is not an [Output] with [Known] false. *)
Definition knownOutput (v : PropertyValue) : bool :=
  match v with
  | PVOutput _ false _ _ => false
  | _ => true
  end.

(** The loops of [unmarshalOutput] over the elements of an array and over
    the fields of a struct, for the function [f] applied to a wire value
    and the type of its destination. *)
Definition unmarshalSliceElements (f : PropertyValue -> Outcome bool)
    : list PropertyValue -> bool -> Outcome bool :=
  fix each arr secret :=
    match arr with
    | [] => mret secret
    | e :: rest =>
        isecret ← f e;
        each rest (secret || isecret)
    end.

Definition unmarshalStructFields {reflection : Reflection}
    (f : PropertyValue -> GoType -> Outcome bool)
    (obj : gmap string PropertyValue) : list StructField -> bool -> Outcome bool :=
  fix each fields secret :=
    match fields with
    | [] => mret secret
    | field :: rest =>
        if negb (IsExported (fieldName field)) then each rest secret
        else
          let tag := tagName (fieldTag field) in
          if bool_decide (tag = "") then each rest secret
          else
            match lookupWith (fun e => f e (fieldType field)) tag obj with
            | None => each rest secret
            | Some result =>
                osecret ← result;
                each rest (secret || osecret)
            end
    end.

(** The loop of [unmarshalOutput] over the entries of an object for a map
    destination: the entries whose key [skip] holds of are passed over. *)
Definition unmarshalMapElements (skip : string -> bool) (f : PropertyValue -> Outcome bool)
    (props : gmap string PropertyValue) : Outcome bool :=
  map_fold (fun k e (acc : Outcome bool) =>
              secret ← acc;
              if skip k then mret secret
              else
                esecret ← f e;
                mret (secret || esecret))
           (mret false) props.

(** What the result of that loop says. *)
Definition mapElementsResult (skip : string -> bool) (f : PropertyValue -> Outcome bool)
    (props : gmap string PropertyValue) (r : Outcome bool) : Prop :=
  match r with
  | Ok secret =>
      (forall k e, props !! k = Some e -> skip k = false -> exists b, f e = Ok b)
      /\ (secret = true <->
          exists k e, props !! k = Some e /\ skip k = false /\ f e = Ok true)
  | _ => exists k e, props !! k = Some e /\ skip k = false /\ forall b, f e <> Ok b
  end.

(** The field [field] of a destination struct is one that
    [unmarshalOutput] sets: it is exported and its tag names a key. *)
Definition settableField {reflection : Reflection} (field : StructField) : Prop :=
  IsExported (fieldName field) = true /\ tagName (fieldTag field) <> "".

(** A destination struct with a tagged field, a field without a tag and an
    unexported field, and two objects that agree on the key of the first. *)
Definition bucketStateType : GoType :=
  TStruct "BucketState"
    [("Name", "name", stringType); ("Extra", "", stringType); ("hidden", "hidden", intType)].

Definition bucketStateObject : gmap string PropertyValue :=
  {[ "name" := PVSecret (PVString "b") ]}.

Definition bucketStateObjectMore : gmap string PropertyValue :=
  {[ "name" := PVSecret (PVString "b"); "hidden" := PVString "not a number";
     "other" := PVBool true ]}.

(* ===================================================================== *)
(** * Part II: properties *)
(* ===================================================================== *)

(** ** Three-way comparisons *)

Section Coherent.
Context {A : Type}.

Variable cmp : A -> A -> comparison.
Hypothesis Hcmp : coherent cmp.

Lemma coh_refl x : cmp x x = Eq.
Proof.
  pose proof (coh_flip _ Hcmp x x) as E.
  destruct (cmp x x); simpl in E; congruence.
Qed.

Lemma coh_eq_left c x y z : cmp x y = Eq -> cmp y z = c -> cmp x z = c.
Proof.
  intros Exy Eyz.
  destruct c; [by eapply (coh_chain _ Hcmp) | |].
  - destruct (cmp x z) eqn:Exz; [| done |].
    + assert (cmp y x = Eq) as Eyx by (rewrite (coh_flip _ Hcmp), Exy; done).
      pose proof (coh_chain _ Hcmp _ _ _ _ Eyx Exz). congruence.
    + assert (cmp z x = Lt) as Ezx by (rewrite (coh_flip _ Hcmp), Exz; done).
      pose proof (coh_chain _ Hcmp _ _ _ _ Eyz Ezx) as Eyx.
      rewrite (coh_flip _ Hcmp), Exy in Eyx. done.
  - destruct (cmp x z) eqn:Exz; [| | done].
    + assert (cmp y x = Eq) as Eyx by (rewrite (coh_flip _ Hcmp), Exy; done).
      pose proof (coh_chain _ Hcmp _ _ _ _ Eyx Exz). congruence.
    + assert (cmp z x = Gt) as Ezx by (rewrite (coh_flip _ Hcmp), Exz; done).
      pose proof (coh_chain _ Hcmp _ _ _ _ Eyz Ezx) as Eyx.
      rewrite (coh_flip _ Hcmp), Exy in Eyx. done.
Qed.

Lemma coh_eq_right c x y z : cmp x y = c -> cmp y z = Eq -> cmp x z = c.
Proof.
  intros Exy Eyz.
  assert (cmp z y = Eq) as Ezy by (rewrite (coh_flip _ Hcmp), Eyz; done).
  assert (cmp y x = CompOpp c) as Eyx by (rewrite (coh_flip _ Hcmp), Exy; done).
  pose proof (coh_eq_left _ _ _ _ Ezy Eyx) as Ezx.
  rewrite (coh_flip _ Hcmp), Ezx. by destruct c.
Qed.

Lemma coh_ge_trans x y z : cmp x y <> Lt -> cmp y z <> Lt -> cmp x z <> Lt.
Proof.
  intros Hxy Hyz Hxz.
  destruct (cmp x y) eqn:Exy; [| done |].
  - pose proof (coh_eq_left _ _ _ _ Exy (eq_refl (cmp y z))). congruence.
  - destruct (cmp y z) eqn:Eyz; [| done |].
    + pose proof (coh_eq_right _ _ _ _ Exy Eyz). congruence.
    + pose proof (coh_chain _ Hcmp _ _ _ _ Exy Eyz). congruence.
Qed.

Lemma coh_ge_total x y : cmp x y <> Lt \/ cmp y x <> Lt.
Proof.
  rewrite (coh_flip _ Hcmp x y).
  destruct (cmp x y); simpl; first [left; discriminate | right; discriminate].
Qed.

End Coherent.

Lemma lexico_chain {A : Type} (cmp1 : A -> A -> comparison) (x y z : A)
    (txy tyz txz c : comparison) :
  coherent cmp1 ->
  (txy = c -> tyz = c -> txz = c) ->
  lexico (cmp1 x y) txy = c -> lexico (cmp1 y z) tyz = c -> lexico (cmp1 x z) txz = c.
Proof.
  intros H1 Ht. unfold lexico.
  destruct (cmp1 x y) eqn:Exy, (cmp1 y z) eqn:Eyz.
  all: try (rewrite (coh_chain _ H1 _ _ _ _ Exy Eyz); first [exact Ht | congruence]).
  all: try (rewrite (coh_eq_left _ H1 _ _ _ _ Exy Eyz); congruence).
  all: try (rewrite (coh_eq_right _ H1 _ _ _ _ Exy Eyz); congruence).
  all: congruence.
Qed.

Lemma lexico_flip (c1 c2 : comparison) :
  lexico (CompOpp c1) (CompOpp c2) = CompOpp (lexico c1 c2).
Proof. by destruct c1. Qed.

Lemma lexico_coherent {A : Type} (cmp1 cmp2 : A -> A -> comparison) :
  coherent cmp1 -> coherent cmp2 ->
  coherent (fun x y => lexico (cmp1 x y) (cmp2 x y)).
Proof.
  intros H1 H2. split.
  - intros x y. rewrite (coh_flip _ H1 x y), (coh_flip _ H2 x y). apply lexico_flip.
  - intros c x y z. apply lexico_chain; [done | apply (coh_chain _ H2)].
Qed.

Lemma coherent_on {A B : Type} (f : A -> B) (cmp : B -> B -> comparison) :
  coherent cmp -> coherent (fun x y => cmp (f x) (f y)).
Proof.
  intros Hc. split.
  - intros x y. apply (coh_flip _ Hc).
  - intros c x y z. apply (coh_chain _ Hc).
Qed.

Lemma coherent_ext {A : Type} (cmp cmp' : A -> A -> comparison) :
  (forall x y, cmp x y = cmp' x y) -> coherent cmp -> coherent cmp'.
Proof.
  intros E Hc. split.
  - intros x y. rewrite <- !E. apply (coh_flip _ Hc).
  - intros c x y z. rewrite <- !E. apply (coh_chain _ Hc).
Qed.

Lemma N_compare_coherent : coherent N.compare.
Proof.
  split.
  - intros x y. apply N.compare_antisym.
  - intros c x y z Hxy Hyz. destruct c.
    + apply N.compare_eq_iff in Hxy, Hyz. subst. apply N.compare_refl.
    + rewrite N.compare_lt_iff in *. lia.
    + rewrite N.compare_gt_iff in *. lia.
Qed.

Lemma Ascii_compare_coherent : coherent Ascii.compare.
Proof. apply (coherent_on N_of_ascii), N_compare_coherent. Qed.

Lemma String_compare_cons a x b y :
  String.compare (String a x) (String b y) = lexico (Ascii.compare a b) (String.compare x y).
Proof. simpl. by destruct (Ascii.compare a b). Qed.

Lemma String_compare_coherent : coherent String.compare.
Proof.
  split.
  - intros x y. apply String.compare_antisym.
  - intros c x. induction x as [|a x IH]; intros [|b y] [|d z]; try (simpl; congruence).
    rewrite !String_compare_cons.
    apply lexico_chain; [apply Ascii_compare_coherent | apply IH].
Qed.

(** *** The precedence of semantic versions is a total preorder *)

Lemma PRCompare_coherent : coherent semver.PRCompare.
Proof.
  split.
  - intros [xs xn xb] [ys yn yb]. unfold semver.PRCompare. simpl.
    destruct xb, yb; simpl; try done.
    + apply N.compare_antisym.
    + apply String.compare_antisym.
  - intros c [xs xn xb] [ys yn yb] [zs zn zb]. unfold semver.PRCompare. simpl.
    destruct xb, yb, zb; simpl; try congruence.
    + apply (coh_chain _ N_compare_coherent).
    + apply (coh_chain _ String_compare_coherent).
Qed.

Lemma PreCompare_cons a v b o :
  semver.PreCompare (a :: v) (b :: o)
  = lexico (semver.PRCompare a b) (semver.PreCompare v o).
Proof. simpl. by destruct (semver.PRCompare a b). Qed.

Lemma PreCompare_coherent : coherent semver.PreCompare.
Proof.
  split.
  - intros x. induction x as [|a x IH]; intros [|b y]; try done.
    rewrite !PreCompare_cons, IH, (coh_flip _ PRCompare_coherent a b).
    apply lexico_flip.
  - intros c x. induction x as [|a x IH]; intros [|b y] [|d z]; try (simpl; congruence).
    rewrite !PreCompare_cons.
    apply lexico_chain; [apply PRCompare_coherent | apply IH].
Qed.

Lemma preRelease_coherent : coherent preRelease.
Proof.
  split.
  - intros [|a x] [|b y]; try done.
    apply (coh_flip _ PreCompare_coherent).
  - intros c [|a x] [|b y] [|d z]; try (simpl; congruence).
    apply (coh_chain _ PreCompare_coherent).
Qed.

Lemma N_compare_tests (x y : N) (rest : comparison) :
  (if negb (x =? y)%N then (if (y <? x)%N then Gt else Lt) else rest)
  = lexico (N.compare x y) rest.
Proof.
  destruct (N.compare_spec x y) as [-> | Hlt | Hgt]; simpl.
  - by rewrite N.eqb_refl.
  - assert ((x =? y)%N = false) as -> by (apply N.eqb_neq; lia).
    assert ((y <? x)%N = false) as -> by (apply N.ltb_ge; lia). done.
  - assert ((x =? y)%N = false) as -> by (apply N.eqb_neq; lia).
    assert ((y <? x)%N = true) as -> by (apply N.ltb_lt; lia). done.
Qed.

Lemma Compare_lexico v o :
  semver.Compare v o
  = lexico (N.compare (semver.Major v) (semver.Major o))
      (lexico (N.compare (semver.Minor v) (semver.Minor o))
         (lexico (N.compare (semver.Patch v) (semver.Patch o))
            (preRelease (semver.Pre v) (semver.Pre o)))).
Proof. unfold semver.Compare. by rewrite !N_compare_tests. Qed.

Lemma Compare_coherent : coherent semver.Compare.
Proof.
  eapply coherent_ext; [intros x y; symmetry; apply Compare_lexico |].
  apply (lexico_coherent (fun v o => N.compare (semver.Major v) (semver.Major o))).
  { apply (coherent_on semver.Major), N_compare_coherent. }
  apply (lexico_coherent (fun v o => N.compare (semver.Minor v) (semver.Minor o))).
  { apply (coherent_on semver.Minor), N_compare_coherent. }
  apply (lexico_coherent (fun v o => N.compare (semver.Patch v) (semver.Patch o))).
  { apply (coherent_on semver.Patch), N_compare_coherent. }
  apply (coherent_on semver.Pre), preRelease_coherent.
Qed.

Lemma GTE_refl v : semver.GTE v v = true.
Proof. unfold semver.GTE. by rewrite (coh_refl _ Compare_coherent). Qed.

Lemma GTE_trans a b c :
  semver.GTE a b = true -> semver.GTE b c = true -> semver.GTE a c = true.
Proof.
  unfold semver.GTE. intros Hab Hbc.
  pose proof (coh_ge_trans _ Compare_coherent a b c) as T.
  destruct (semver.Compare a b), (semver.Compare b c), (semver.Compare a c);
    try done; exfalso; by apply T.
Qed.

Lemma GTE_total a b : semver.GTE a b = false -> semver.GTE b a = true.
Proof.
  unfold semver.GTE. rewrite (coh_flip _ Compare_coherent a b).
  by destruct (semver.Compare a b).
Qed.

Lemma EQ_same_Major a b : semver.EQ a b = true -> semver.Major a = semver.Major b.
Proof.
  unfold semver.EQ. rewrite Compare_lexico.
  destruct (N.compare_spec (semver.Major a) (semver.Major b)); simpl; done.
Qed.

(** ** The versioned registry *)

Section LoadFacts.
Context {V : Type} `{Versioned V}.
Variable version : semver.Version.

#[local] Abbreviation wildcard := (semver.EQ version nullVersion).

Lemma Load_scan_skip v rest best :
  isCandidate version v = false ->
  Load_scan version wildcard (v :: rest) best = Load_scan version wildcard rest best.
Proof.
  unfold isCandidate. intros Hc. simpl.
  destruct wildcard; simpl in *; [done |]. by rewrite Hc.
Qed.

Lemma Load_scan_candidate v rest best :
  isCandidate version v = true ->
  Load_scan version wildcard (v :: rest) best
  = if isExact version v then (Some v, true)
    else Load_scan version wildcard rest (keepGTE best v).
Proof.
  unfold isCandidate, isExact. intros Hc. simpl.
  replace (negb wildcard && negb (semver.Major (Version v) =? semver.Major version)%N)
    with false by (destruct wildcard; simpl in *; [done | by rewrite Hc]).
  destruct (semver.EQ (Version v) version); [done |].
  destruct best as [b|]; simpl; [| done].
  by destruct (semver.GTE (Version v) (Version b)).
Qed.

Lemma Load_scan_exact entries best v :
  List.find (isExact version) (List.filter (isCandidate version) entries) = Some v ->
  Load_scan version wildcard entries best = (Some v, true).
Proof.
  revert best. induction entries as [|e rest IH]; intros best; [done |].
  cbn [List.filter]. destruct (isCandidate version e) eqn:Hc.
  - rewrite Load_scan_candidate by done. cbn [List.find].
    destruct (isExact version e); [by intros [= ->] | apply IH].
  - rewrite Load_scan_skip by done. apply IH.
Qed.

Lemma Load_scan_no_exact entries best :
  List.find (isExact version) (List.filter (isCandidate version) entries) = None ->
  Load_scan version wildcard entries best
  = let r := fold_left keepGTE (List.filter (isCandidate version) entries) best in
    (r, bool_decide (is_Some r)).
Proof.
  revert best. induction entries as [|e rest IH]; intros best; [done |].
  cbn [List.filter]. destruct (isCandidate version e) eqn:Hc.
  - rewrite Load_scan_candidate by done. cbn [List.find fold_left].
    destruct (isExact version e); [done | apply IH].
  - rewrite Load_scan_skip by done. apply IH.
Qed.

(** The scan ends on an entry that is greater than or equal to every
    entry it saw and to the entry it started from. *)
Lemma keepGTE_maximal cands : forall best b,
  fold_left keepGTE cands best = Some b ->
  (In b cands \/ best = Some b)
  /\ (forall c, In c cands -> semver.GTE (Version b) (Version c) = true)
  /\ (forall b0, best = Some b0 -> semver.GTE (Version b) (Version b0) = true).
Proof.
  induction cands as [|c cands IH]; intros best b; simpl.
  - intros ->. split; [by right |]. split; [done |].
    intros b0 [= ->]. apply GTE_refl.
  - intros Hfold. destruct (IH _ _ Hfold) as (Hin & Hmax & Hstart).
    assert (semver.GTE (Version b) (Version c) = true
            /\ forall b0, best = Some b0 -> semver.GTE (Version b) (Version b0) = true)
      as [Hc Hb0].
    { destruct best as [b0|]; simpl in *.
      - destruct (semver.GTE (Version c) (Version b0)) eqn:Hge.
        + pose proof (Hstart c eq_refl) as Hbc. split; [done |].
          intros ? [= <-]. by eapply GTE_trans.
        + pose proof (Hstart b0 eq_refl) as Hbb0. split; [| by intros ? [= <-]].
          eapply GTE_trans; [exact Hbb0 | by apply GTE_total].
      - split; [by apply Hstart | done]. }
    split; [| split; [| done]].
    + destruct Hin as [Hin | Heq]; [by left; right |].
      destruct best as [b0|]; simpl in Heq.
      * destruct (semver.GTE (Version c) (Version b0)).
        -- injection Heq as ->. by left; left.
        -- by right.
      * injection Heq as ->. by left; left.
    + intros c' [<- | Hc']; [done | by apply Hmax].
Qed.

Lemma keepGTE_some cands : forall best,
  cands <> [] \/ is_Some best -> is_Some (fold_left keepGTE cands best).
Proof.
  induction cands as [|c cands IH]; intros best; simpl.
  - by intros [? | ?].
  - intros _. apply IH. right. destruct best as [b|]; simpl; [| done].
    by destruct (semver.GTE (Version c) (Version b)).
Qed.

Lemma Load_general (vm : versionedMap V) (key : string) :
  let cands := candidates vm key version in
  (forall v, List.find (isExact version) cands = Some v ->
     Load vm key version = (Some v, true))
  /\ (List.find (isExact version) cands = None ->
      exists best, Load vm key version = (best, bool_decide (cands <> []))
        /\ (cands = [] -> best = None)
        /\ (cands <> [] -> exists b, best = Some b /\ In b cands
              /\ forall c, In c cands -> semver.GTE (Version b) (Version c) = true))
  /\ ((Load vm key version).2 = false <-> cands = []).
Proof.
  intros cands. unfold Load.
  assert (Hno : List.find (isExact version) cands = None ->
      exists best,
        Load_scan version wildcard (default [] (versions vm !! key)) None
        = (best, bool_decide (cands <> []))
        /\ (cands = [] -> best = None)
        /\ (cands <> [] -> exists b, best = Some b /\ In b cands
              /\ forall c, In c cands -> semver.GTE (Version b) (Version c) = true)).
  { intros Hnone. rewrite Load_scan_no_exact by done. fold (candidates vm key version).
    fold cands. cbn zeta.
    destruct cands as [|c cands'] eqn:Ec.
    - exists None. simpl. by repeat split.
    - destruct (keepGTE_some (c :: cands') None) as [b Hb]; [by left |].
      exists (Some b). rewrite Hb.
      destruct (keepGTE_maximal _ _ _ Hb) as ([Hin | ?] & Hmax & _); [| done].
      split; [| split; [done |]].
      + reflexivity.
      + intros _. by exists b. }
  split; [| split; [done |]].
  - intros v Hv. by apply Load_scan_exact.
  - destruct (List.find (isExact version) cands) as [v|] eqn:Hfind.
    + rewrite (Load_scan_exact _ None v) by done. simpl. split; [done |].
      intros Hnil. rewrite Hnil in Hfind. done.
    + destruct (Hno eq_refl) as (best & -> & _). simpl.
      rewrite bool_decide_eq_false. clear.
      destruct cands; split; intros Hn;
        first [done | by intros Hn'; apply Hn' | exfalso; by apply Hn].
Qed.

End LoadFacts.

(** C4.  [Load] considers every entry under the key when the version is the
    wildcard and the entries of the requested major version otherwise; it
    returns the first candidate whose version equals the requested one,
    with found = true; without such a candidate it returns what the
    greater-or-equal scan keeps, a candidate that is greater than or equal
    to every candidate, and found is false exactly when there is no
    candidate.  With 1.2.0 and 2.0.0 registered under a key, loading 1.5.0
    gives the 1.2.0 entry, loading the wildcard gives one of the entries,
    and loading an unregistered key finds nothing. *)
Theorem versionedMap_Load_spec :
  (forall (V : Type) (HV : Versioned V) (vm : versionedMap V) (key : string)
          (version : semver.Version),
     let cands := candidates vm key version in
     (forall v, List.find (isExact version) cands = Some v ->
        Load vm key version = (Some v, true))
     /\ (List.find (isExact version) cands = None ->
         exists best, Load vm key version = (best, bool_decide (cands <> []))
           /\ (cands = [] -> best = None)
           /\ (cands <> [] -> exists b, best = Some b /\ In b cands
                 /\ forall c, In c cands -> semver.GTE (Version b) (Version c) = true))
     /\ ((Load vm key version).2 = false <-> cands = []))
  /\ (forall (V : Type) (HV : Versioned V) (vm : versionedMap V) (K : string) (e1 e2 : V),
        Version e1 = v1_2_0 -> Version e2 = v2_0_0 ->
        versions vm !! K = Some [e1; e2] \/ versions vm !! K = Some [e2; e1] ->
        Load vm K v1_5_0 = (Some e1, true)
        /\ (exists e, Load vm K nullVersion = (Some e, true) /\ (e = e1 \/ e = e2))
        /\ (forall K' version, versions vm !! K' = None ->
              Load vm K' version = (None, false))).
Proof.
  split.
  - intros V HV vm key version. apply Load_general.
  - intros V HV vm K e1 e2 H1 H2 HK. split; [| split].
    + unfold Load. destruct HK as [-> | ->]; cbn; rewrite ?H1, ?H2; reflexivity.
    + exists e2. split; [| by right].
      unfold Load. destruct HK as [-> | ->]; cbn; rewrite ?H1, ?H2; cbn;
        rewrite ?H1, ?H2; reflexivity.
    + intros K' version HK'. unfold Load. by rewrite HK'.
Qed.

Lemma versionedMap_Load_spec_witness :
  List.find (isExact v1_2_0) (candidates exampleRegistry "aws:s3" v1_2_0)
    = Some (exampleModule v1_2_0)
  /\ Load exampleRegistry "aws:s3" v1_2_0 = (Some (exampleModule v1_2_0), true)
  /\ Load exampleRegistry "aws:s3" v1_5_0 = (Some (exampleModule v1_2_0), true).
Proof.
  split; [reflexivity |]. split.
  - apply (proj1 (proj1 versionedMap_Load_spec ResourceModule _ exampleRegistry
                    "aws:s3" v1_2_0)).
    reflexivity.
  - apply (proj2 versionedMap_Load_spec ResourceModule _ exampleRegistry "aws:s3"
             (exampleModule v1_2_0) (exampleModule v2_0_0));
      [reflexivity | reflexivity | left; reflexivity].
Defined.

(** ** The dependency aggregator *)

(** Induction on a resource with the hypothesis for each child. *)
Lemma Resource_tree_ind (P : Resource -> Prop) :
  (forall addr kind urn id children,
     Forall P children -> P (mkResource addr kind urn id children)) ->
  forall res, P res.
Proof.
  intros Hstep. fix IH 1. intros [addr kind urn id children].
  apply Hstep. induction children as [|c cs IHcs]; constructor; [apply IH | apply IHcs].
Qed.

Section Aggregator.
Variable from : option Resource.

Lemma extends_insert deps res urn known secret :
  res_urn res = Settled urn known secret ->
  extends deps (<[urn := res]> deps) {[ urnOf res ]}.
Proof.
  intros Hurn. unfold urnOf. rewrite Hurn. split.
  - rewrite dom_insert_L. set_solver.
  - intros u r. destruct (decide (urn = u)) as [<- | Hne].
    + rewrite lookup_insert_eq. intros [= <-]. right. unfold urnOf. by rewrite Hurn.
    + rewrite lookup_insert_ne by done. by left.
Qed.

Lemma extends_trans d1 d2 d3 u1 u2 :
  extends d1 d2 u1 -> extends d2 d3 u2 -> extends d1 d3 (u1 ∪ u2).
Proof.
  intros [Hd1 Hl1] [Hd2 Hl2]. split.
  - rewrite Hd2, Hd1. set_solver.
  - intros u r Hr. destruct (Hl2 u r Hr) as [Hr2 | ?]; [| by right]. by apply Hl1.
Qed.

Lemma extends_refl deps : extends deps deps ∅.
Proof. split; [set_solver | by left]. Qed.

Lemma addChildren_extends children :
  Forall (fun res => forall deps, awaitedSettle from res = true ->
            exists deps', addDependency deps res from = Ok deps'
              /\ extends deps deps' (contribution from res)) children ->
  forall deps, forallb (awaitedSettle from) children = true ->
  exists deps', addChildren from children deps = Ok deps'
    /\ extends deps deps' (childContributions from children).
Proof.
  induction 1 as [|c cs Hc _ IHcs]; intros deps; simpl.
  - intros _. exists deps. split; [done | apply extends_refl].
  - intros [Hsc Hscs]%andb_prop.
    destruct (Hc deps Hsc) as (d1 & -> & E1). simpl.
    destruct (IHcs d1 Hscs) as (d2 & -> & E2).
    exists d2. split; [done | by eapply extends_trans].
Qed.

Lemma addOwn_extends res deps :
  urnSettles res = true ->
  exists deps', ('(u, _, _) ← awaitURN res; mret (<[u := res]> deps)) = Ok deps'
    /\ extends deps deps' {[ urnOf res ]}.
Proof.
  unfold urnSettles, awaitURN. destruct (res_urn res) as [u k s | |] eqn:Hurn; try done.
  intros _. eexists. split; [reflexivity |]. by eapply extends_insert.
Qed.

Lemma addDependency_extends res : forall deps,
  awaitedSettle from res = true ->
  exists deps', addDependency deps res from = Ok deps'
    /\ extends deps deps' (contribution from res).
Proof.
  induction res as [addr kind urn id children IH] using Resource_tree_ind.
  intros deps.
  pose proof (addChildren_extends children IH) as Hchildren.
  pose proof (addOwn_extends (mkResource addr kind urn id children)) as Hown.
  simpl. fold (addChildren from) (childContributions from).
  set (res := mkResource addr kind urn id children) in *.
  destruct (sameResource res from) eqn:Hsame.
  { destruct kind; simpl; try (intros _; exists deps; split; [done | apply extends_refl]).
    apply Hown. }
  destruct kind; cbn [isCustomResource res_kind bool_decide decide_rel negb keepDependency];
    simpl.
  - apply Hown.
  - rewrite andb_true_r. intros Hs. destruct (Hchildren deps Hs) as (d1 & -> & E1).
    exists d1. split; [done |]. by rewrite union_empty_r_L.
  - intros [Hs Ho]%andb_prop. destruct (Hchildren deps Hs) as (d1 & -> & E1). simpl.
    destruct (Hown d1 Ho) as (d2 & E & E2). exists d2. split; [exact E |].
    by eapply extends_trans.
  - intros [Hs Ho]%andb_prop. destruct (Hchildren deps Hs) as (d1 & -> & E1). simpl.
    destruct (Hown d1 Ho) as (d2 & E & E2). exists d2. split; [exact E |].
    by eapply extends_trans.
  - intros [Hs Ho]%andb_prop. destruct (Hchildren deps Hs) as (d1 & -> & E1). simpl.
    destruct (Hown d1 Ho) as (d2 & E & E2). exists d2. split; [exact E |].
    by eapply extends_trans.
Qed.

End Aggregator.

Lemma expandDependencies_loop_extends roots : forall set,
  forallb (awaitedSettle None) roots = true ->
  exists set', expandDependencies_loop roots set = Ok set'
    /\ extends set set' (contributions None roots).
Proof.
  unfold contributions.
  induction roots as [|r roots IH]; intros set; simpl.
  - intros _. exists set. split; [done | apply extends_refl].
  - intros [Hr Hroots]%andb_prop.
    destruct (addDependency_extends None r set Hr) as (s1 & -> & E1). simpl.
    destruct (IH s1 Hroots) as (s2 & -> & E2).
    exists s2. split; [done | by eapply extends_trans].
Qed.

(** C1.  When every URN the walk awaits settles, [addDependency] adds to
    the set exactly the contribution that section 4.3 words: for a custom
    resource its own URN, without a visit to its children; for a non-custom
    resource equal to [from] nothing; for any other resource the
    contributions of its children and then, if and only if it keeps its
    dependency, its own URN.  [expandDependencies] returns the map whose
    keys are the union of the contributions of the roots under [from = nil],
    each key mapped to a resource of that URN.  For the local component [C]
    with the children [A] (custom) and [D], a local component with the
    custom children [B] and [E], the keys are the URNs of [A], [B], [E]. *)
Theorem expandDependencies_contributions :
  (forall (from : option Resource) (res : Resource) (deps : gmap URN Resource),
     awaitedSettle from res = true ->
     exists deps', addDependency deps res from = Ok deps'
       /\ dom deps' = dom deps ∪ contribution from res)
  /\ (forall roots : list Resource,
        forallb (awaitedSettle None) roots = true ->
        exists set, expandDependencies roots = Ok set
          /\ dom set = contributions None roots
          /\ forall urn res, set !! urn = Some res -> urnOf res = urn)
  /\ (exists set, expandDependencies [resC] = Ok set
        /\ dom set = {[ urnOf resA; urnOf resB; urnOf resE ]}).
Proof.
  assert (Hroots : forall roots : list Resource,
        forallb (awaitedSettle None) roots = true ->
        exists set, expandDependencies roots = Ok set
          /\ dom set = contributions None roots
          /\ forall urn res, set !! urn = Some res -> urnOf res = urn).
  { intros roots Hs. unfold expandDependencies.
    destruct (expandDependencies_loop_extends roots ∅ Hs) as (set & E & Hdom & Hlook).
    exists set. split; [done |]. split.
    - rewrite Hdom, dom_empty_L. set_solver.
    - intros urn res Hr. destruct (Hlook urn res Hr) as [He | ?]; [| done].
      by rewrite lookup_empty in He. }
  split; [| split; [exact Hroots |]].
  - intros from res deps Hs.
    destruct (addDependency_extends from res deps Hs) as (deps' & E & Hdom & _).
    by exists deps'.
  - destruct (Hroots [resC] eq_refl) as (set & E & Hdom & _).
    exists set. split; [done |]. rewrite Hdom.
    unfold contributions. simpl. set_solver.
Qed.

Lemma expandDependencies_contributions_witness :
  forallb (awaitedSettle None) [resC] = true
  /\ exists set, expandDependencies [resC] = Ok set
       /\ dom set = contributions None [resC]
       /\ forall urn res, set !! urn = Some res -> urnOf res = urn.
Proof.
  split; [reflexivity |].
  apply (proj1 (proj2 expandDependencies_contributions) [resC]). reflexivity.
Defined.

(** ** The marshaling engine *)

#[local] Instance string_le_total : Total string_le.
Proof. intros a b. apply String.leb_total. Qed.

#[local] Instance string_le_trans : Transitive string_le.
Proof.
  intros a b c. unfold string_le, String.leb. intros Hab Hbc.
  pose proof (coh_ge_trans _ String_compare_coherent c b a) as T.
  rewrite (coh_flip _ String_compare_coherent b c),
          (coh_flip _ String_compare_coherent a b),
          (coh_flip _ String_compare_coherent a c) in T.
  destruct (String.compare a b), (String.compare b c), (String.compare a c);
    try done; exfalso; by apply T.
Qed.

Lemma string_le_lt a b : string_le a b -> a <> b -> string_lt a b.
Proof.
  unfold string_le, string_lt, String.leb, String.ltb. intros Hle Hne.
  destruct (String.compare a b) eqn:E; try done.
  by apply String.compare_eq_iff in E.
Qed.

Lemma StronglySorted_le_lt (l : list string) :
  NoDup l -> StronglySorted string_le l -> StronglySorted string_lt l.
Proof.
  induction 2 as [|x l Hl IH Hx]; constructor.
  - apply IH. by eapply NoDup_cons_1_2.
  - apply NoDup_cons in H as [Hnotin _].
    rewrite List.Forall_forall in *. intros y Hy. apply string_le_lt; [by apply Hx |].
    intros ->. apply Hnotin. by apply list_elem_of_In.
Qed.

Lemma sortURNs_spec (urns : list URN) :
  NoDup urns ->
  StronglySorted string_lt (sortURNs urns) /\ NoDup (sortURNs urns)
  /\ forall u, u ∈ sortURNs urns <-> u ∈ urns.
Proof.
  intros Hnd. unfold sortURNs.
  pose proof (merge_sort_Permutation string_le urns) as Hperm.
  assert (NoDup (merge_sort string_le urns)) as Hnd' by (by rewrite Hperm).
  split; [| split; [done |]].
  - apply StronglySorted_le_lt; [done |]. apply StronglySorted_merge_sort; apply _.
  - intros u. by rewrite Hperm.
Qed.

Lemma outputDependencies_spec (depSet : gmap URN Resource) :
  StronglySorted string_lt (outputDependencies depSet)
  /\ NoDup (outputDependencies depSet)
  /\ forall u, u ∈ outputDependencies depSet <-> u ∈ dom depSet.
Proof.
  unfold outputDependencies. case_bool_decide as Hsize.
  - destruct (sortURNs_spec (mapKeys depSet)) as (Hs & Hn & He).
    { apply NoDup_fst_map_to_list. }
    split; [done |]. split; [done |]. intros u. rewrite He. unfold mapKeys.
    rewrite elem_of_dom, list_elem_of_fmap. split.
    + intros [[k r] [-> Hin]]. exists r. by apply elem_of_map_to_list.
    + intros [r Hr]. exists (u, r). split; [done |]. by apply elem_of_map_to_list.
  - assert (depSet = ∅) as -> by (apply map_size_empty_inv; lia).
    split; [constructor |]. split; [constructor |]. intros u. rewrite dom_empty_L. set_solver.
Qed.

Section MarshalFacts.
Context {reflection : Reflection}.
Variable opts : option marshalOptions.

Lemma marshalLoop_plain d destType skip deps :
  marshalLoop opts (VPlain d) destType skip deps
  = marshalData opts d (typeOfData d) destType deps.
Proof. done. Qed.

Lemma marshalData_resource name r fields valueType destType deps :
  marshalData opts (DResource name r fields) valueType destType deps
  = ('(urn, known, secretURN) ← awaitURN r;
     _ ← Assertf known "URN must be known";
     _ ← Assertf (negb secretURN) "URN must not be secret";
     if isCustomResource r then
       '(id, _, secretID) ← awaitID r;
       _ ← Assertf (negb secretID) "CustomResource must not have a secret ID";
       mret (MakeCustomResourceReference urn id "", resourceDeps opts deps r)
     else mret (MakeComponentResourceReference urn "", resourceDeps opts deps r)).
Proof. done. Qed.

Lemma marshalLoop_input elementType toOutput asOutput d destType deps :
  isNilPtr d = false ->
  marshalLoop opts (VInput elementType toOutput asOutput d) destType false deps
  = match inputCheck elementType toOutput destType with
    | CheckConverted destType' newType newOutput => awaitOutput opts newType newOutput destType'
    | CheckMismatch destType' =>
        Err (ErrCannotMarshalInput (typeOfData d) elementType destType')
    | CheckDirect destType' =>
        match asOutput with
        | Some output => awaitOutput opts (typeOfData d) output destType'
        | None => marshalData opts d elementType destType' deps
        end
    end.
Proof.
  intros Hnil. cbn [marshalLoop]. rewrite Hnil. unfold inputCheck.
  fold (adjustDest elementType destType).
  destruct (bool_decide (elementType ≠ adjustDest elementType destType)
            && bool_decide (adjustDest elementType destType ≠ anyType)).
  - destruct (toOutput (adjustDest elementType destType)) as [[newType newOutput]|].
    + reflexivity.
    + destruct (negb (AssignableTo elementType (adjustDest elementType destType)));
        [reflexivity |]. by destruct asOutput.
  - by destruct asOutput.
Qed.


End MarshalFacts.

(** C2.  Marshaling a non-nil value that is an output, with
    [ErrorOnOutput] unset, either fails in the input check or awaits the
    output (the value itself, or the output its conversion method for the
    destination type returns).  If the output settled known, its element is
    marshaled recursively with the input check skipped, and if it is
    moreover not secret and has no dependencies that marshaled element is
    the result, with no dependency reported.  In every other case without
    an error the result is an [Output] wire value with the awaited known
    and secret flags, whose dependencies are the URNs of the expanded
    dependency set in increasing order without duplicates; the dependency
    resources of the output are reported. *)
Theorem marshal_output_value :
  forall (R : Reflection) (opts : option marshalOptions) (elementType : GoType)
         (toOutput : GoType -> option (GoType * OutputState Value))
         (output : OutputState Value) (d : Data) (destType : GoType),
    isNilPtr d = false ->
    errorOnOutput opts = false ->
    let result :=
      marshalInputOptions (VInput elementType toOutput (Some output) d) destType opts in
    match inputCheck elementType toOutput destType with
    | CheckMismatch destType' =>
        result = Err (ErrCannotMarshalInput (typeOfData d) elementType destType')
    | CheckDirect destType' => marshalsOutput opts result output destType'
    | CheckConverted destType' _ newOutput => marshalsOutput opts result newOutput destType'
    end.
Proof.
  intros R opts elementType toOutput output d destType Hnil Herr result.
  assert (Hawait : forall ty awaited destType',
    marshalsOutput opts (awaitOutput opts ty awaited destType') awaited destType').
  { intros ty awaited destType'. unfold awaitOutput, marshalsOutput. rewrite Herr.
    destruct awaited as [ov known secret outputDeps | err |]; [| done | done].
    assert (Hwrap : forall element,
      negb (known && negb secret && bool_decide (length outputDeps = 0%nat)) = true ->
      match expandDependencies outputDeps with
      | Ok depSet =>
          exists urns,
            wrapOutput element known secret outputDeps
            = Ok (PVOutput element known secret urns, outputDeps)
            /\ StronglySorted string_lt urns /\ NoDup urns
            /\ forall u, u ∈ urns <-> u ∈ dom depSet
      | Err err => wrapOutput element known secret outputDeps = Err err
      | Panic msg => wrapOutput element known secret outputDeps = Panic msg
      | Blocked => wrapOutput element known secret outputDeps = Blocked
      end).
    { intros element Hcond. unfold wrapOutput.
      apply negb_true_iff in Hcond. rewrite Hcond.
      destruct (expandDependencies outputDeps) as [depSet | | |]; try done. simpl.
      exists (outputDependencies depSet). split; [done |]. apply outputDependencies_spec. }
    destruct known.
    - unfold marshalInputOptionsImpl.
      destruct (marshalLoop opts ov destType' true []) as [[element ds] | | |]; try done.
      simpl.
      destruct (negb secret && bool_decide (outputDeps = [])) eqn:Hinline.
      + unfold wrapOutput. apply andb_prop in Hinline as [-> Hnil'].
        apply bool_decide_eq_true in Hnil'. subst outputDeps. done.
      + apply Hwrap. simpl. apply negb_true_iff.
        destruct secret; simpl in *; [done |].
        apply bool_decide_eq_false in Hinline. apply bool_decide_eq_false.
        intros Hlen. apply Hinline. by destruct outputDeps.
    - apply Hwrap. done. }
  subst result. unfold marshalInputOptions, marshalInputOptionsImpl.
  rewrite marshalLoop_input by done.
  destruct (inputCheck elementType toOutput destType); [apply Hawait .. | done].
Qed.

Lemma marshal_output_value_witness :
  isNilPtr stringOutputData = false
  /\ errorOnOutput None = false
  /\ exists depSet urns,
       expandDependencies [resC] = Ok depSet
       /\ marshalInputOptions (reflection := exampleReflection) exampleSecretOutput stringType None
          = Ok (PVOutput (PVString "hunter2") true true urns, [resC])
       /\ StronglySorted string_lt urns /\ NoDup urns
       /\ forall u, u ∈ urns <-> u ∈ dom depSet.
Proof.
  split; [reflexivity |]. split; [reflexivity |].
  pose proof (marshal_output_value exampleReflection None stringType (fun _ => None)
                secretOutput stringOutputData stringType eq_refl eq_refl) as W.
  change (inputCheck stringType (fun _ => None) stringType) with (CheckDirect stringType) in W.
  cbn beta iota zeta in W. unfold marshalsOutput in W.
  cbn [secretOutput negb andb] in W.
  change (marshalInputOptionsImpl (VPlain (DString "string" "hunter2")) stringType None true)
    with (@Ok (PropertyValue * list Resource) (PVString "hunter2", [])) in W.
  cbn beta iota zeta in W.
  destruct (expandDependencies [resC]) as [depSet | | |] eqn:E; [| discriminate E ..].
  exists depSet. destruct W as (urns & W). exists urns. split; [reflexivity | exact W].
Defined.

Example marshal_secret_output :
  marshalInputOptions (reflection := exampleReflection) exampleSecretOutput stringType None
  = Ok (PVOutput (PVString "hunter2") true true ["urn:A"; "urn:B"; "urn:E"], [resC]).
Proof. vm_compute. reflexivity. Qed.

(** C9, as the code has it.  Marshaling a resource awaits its URN and
    panics, rather than returning an error, when the URN is not known or is
    secret; for a custom resource it awaits the ID and panics when the ID is
    secret, whether the ID is known or not.  Otherwise it returns a resource
    reference, with the ID for a custom resource, and the dependency list
    extended by the resource unless [ExcludeResourceRefsFromDeps] is set.
    The resource case is what marshaling a resource value comes to, for a
    plain value and for an input that passes the input check. *)
Theorem marshal_resource_reference :
  forall (R : Reflection) (opts : option marshalOptions) (name : string) (r : Resource)
         (fields : list (StructField * Value)) (valueType destType : GoType)
         (deps : list Resource) (urn : URN) (known secretURN : bool),
    res_urn r = Settled urn known secretURN ->
    let result := marshalData opts (DResource name r fields) valueType destType deps in
    (known = false -> result = Panic "URN must be known")
    /\ (known = true -> secretURN = true -> result = Panic "URN must not be secret")
    /\ (known = true -> secretURN = false -> isCustomResource r = false ->
        result = Ok (MakeComponentResourceReference urn "", resourceDeps opts deps r))
    /\ (known = true -> secretURN = false -> isCustomResource r = true ->
        forall id knownID secretID, res_id r = Settled id knownID secretID ->
          (secretID = true -> result = Panic "CustomResource must not have a secret ID")
          /\ (secretID = false ->
              result = Ok (MakeCustomResourceReference urn id "", resourceDeps opts deps r)))
    /\ (includeResourceRefs opts = true -> resourceDeps opts deps r = deps ++ [r])
    /\ (includeResourceRefs opts = false -> resourceDeps opts deps r = deps)
    /\ marshalInputOptions (VPlain (DResource name r fields)) destType opts
       = marshalData opts (DResource name r fields)
           (typeOfData (DResource name r fields)) destType []
    /\ (forall elementType toOutput destType',
          inputCheck elementType toOutput destType = CheckDirect destType' ->
          marshalInputOptions (VInput elementType toOutput None (DResource name r fields))
            destType opts
          = marshalData opts (DResource name r fields) elementType destType' []).
Proof.
  intros R opts name r fields valueType destType deps urn known secretURN Hurn result.
  assert (Hresult : result
    = (_ ← Assertf known "URN must be known";
       _ ← Assertf (negb secretURN) "URN must not be secret";
       if isCustomResource r then
         '(id, _, secretID) ← awaitID r;
         _ ← Assertf (negb secretID) "CustomResource must not have a secret ID";
         mret (MakeCustomResourceReference urn id "", resourceDeps opts deps r)
       else mret (MakeComponentResourceReference urn "", resourceDeps opts deps r))).
  { subst result. rewrite marshalData_resource. unfold awaitURN. by rewrite Hurn. }
  rewrite Hresult. clear Hresult result.
  refine (conj _ (conj _ (conj _ (conj _ (conj _ (conj _ (conj _ _))))))).
  - by intros ->.
  - by intros -> ->.
  - by intros -> -> ->.
  - intros -> -> -> id knownID secretID Hid. unfold awaitID. rewrite Hid.
    split; by intros ->.
  - unfold resourceDeps. by intros ->.
  - unfold resourceDeps. by intros ->.
  - done.
  - intros elementType toOutput destType' Hcheck.
    unfold marshalInputOptions, marshalInputOptionsImpl.
    rewrite marshalLoop_input by done. by rewrite Hcheck.
Qed.

Lemma marshal_resource_reference_witness :
  res_urn previewResource
    = Settled "urn:pulumi:dev::app::aws:s3/bucket:Bucket::b" true false
  /\ isCustomResource previewResource = true
  /\ res_id previewResource = Settled "" false false
  /\ marshalData (reflection := exampleReflection) None
       (DResource "Bucket" previewResource []) anyType anyType []
     = Ok (MakeCustomResourceReference "urn:pulumi:dev::app::aws:s3/bucket:Bucket::b" "" "",
           resourceDeps None [] previewResource).
Proof.
  split; [reflexivity |]. split; [reflexivity |]. split; [reflexivity |].
  exact (proj2 (proj1 (proj2 (proj2 (proj2
           (marshal_resource_reference exampleReflection None "Bucket" previewResource []
              anyType anyType [] _ true false eq_refl))))
           eq_refl eq_refl eq_refl "" false false eq_refl) eq_refl).
Defined.

(** C9 as stated fails: the ID of a custom resource need not be known.  A
    custom resource whose ID is not known marshals, without a panic, to a
    resource reference. *)
Lemma marshal_resource_unknown_id :
  isCustomResource previewResource = true
  /\ res_id previewResource = Settled "" false false
  /\ marshalInputOptions (reflection := exampleReflection)
       (VPlain (DResource "Bucket" previewResource [])) anyType None
     = Ok (MakeCustomResourceReference "urn:pulumi:dev::app::aws:s3/bucket:Bucket::b" "" "",
           [previewResource]).
Proof. repeat split. Qed.




Lemma In_fst_fmap {A B : Type} (k : A) (v : B) (kvs : list (A * B)) :
  In (k, v) kvs -> k ∈ kvs.*1.
Proof.
  intros Hin. change k with ((k, v).1). apply list_elem_of_fmap_2. by apply list_elem_of_In.
Qed.

Lemma putField_absent kvs : forall obj k,
  k ∉ kvs.*1 -> fold_left putField kvs obj !! k = obj !! k.
Proof.
  induction kvs as [|[k2 v2] kvs IH]; intros obj k Hk; [done |].
  rewrite fmap_cons, not_elem_of_cons in Hk. destruct Hk as [Hne Hk].
  cbn [fold_left]. rewrite IH by done.
  unfold putField. cbn [fst snd]. destruct (IsNull v2); cbn [negb]; [done |].
  by apply lookup_insert_ne.
Qed.

Lemma putField_lookup kvs : forall obj k,
  NoDup (kvs.*1) -> k ∉ dom obj ->
  forall pv, fold_left putField kvs obj !! k = Some pv
             <-> In (k, pv) kvs /\ IsNull pv = false.
Proof.
  induction kvs as [|[k' fv'] kvs IH]; intros obj k Hnd Hk pv.
  - apply not_elem_of_dom in Hk. cbn [fold_left]. rewrite Hk.
    split; [done | by intros [[] _]].
  - rewrite fmap_cons in Hnd. apply NoDup_cons in Hnd as [Hk' Hnd]. cbn [fst] in Hk'.
    cbn [fold_left].
    destruct (decide (k = k')) as [-> | Hne].
    + rewrite putField_absent by done. unfold putField. cbn [fst snd].
      apply not_elem_of_dom in Hk.
      destruct (IsNull fv') eqn:Hnull; cbn [negb].
      * rewrite Hk. split; [done |]. intros [[[= <-] | Hin] Hnn]; [congruence |].
        exfalso. apply Hk'. by eapply In_fst_fmap.
      * rewrite lookup_insert_eq. split.
        -- intros [= <-]. split; [by left | done].
        -- intros [[[= <-] | Hin] _]; [done |].
           exfalso. apply Hk'. by eapply In_fst_fmap.
    + rewrite IH; [| done |].
      * split; [intros [? ?]; split; [by right | done] |].
        intros [[[= -> ->] | Hin] Hnn]; [done | by split].
      * unfold putField. cbn [fst snd]. destruct (IsNull fv'); cbn [negb]; [done |].
        rewrite dom_insert_L. set_solver.
Qed.



Section StructFacts.
Context {reflection : Reflection}.
Variable opts : option marshalOptions.



End StructFacts.




(** *** Top-level properties *)

Section TopLevelFacts.
Context {reflection : Reflection}.
Variable opts : option marshalOptions.

Lemma marshalProperty_step pname pv pt st v resourceDeps allDeps :
  marshalInputOptions pv pt opts = Ok (v, resourceDeps) ->
  expandDependencies resourceDeps = Ok allDeps ->
  exists st', marshalProperty opts pname pv pt st = Ok st'
    /\ deps st' = deps st ∪ dom allDeps
    /\ (IsNull v = true /\ allDeps = ∅ -> pmap st' = pmap st /\ pdeps st' = pdeps st)
    /\ (IsNull v = false \/ allDeps <> ∅ ->
        pmap st' = <[pname := v]> (pmap st)
        /\ pdeps st' = <[pname := mapKeys allDeps]> (pdeps st)).
Proof.
  intros Hm He. unfold marshalProperty. rewrite Hm, He. cbn.
  destruct (IsNull v) eqn:Hnull; cbn.
  - case_bool_decide as Hsize.
    + eexists. split; [reflexivity |]. cbn. split; [done |]. split; [| done].
      intros [_ ->]. rewrite map_size_empty in Hsize. lia.
    + eexists. split; [reflexivity |]. cbn. split; [done |]. split; [done |].
      intros [? | Hne]; [done |]. exfalso. apply Hne. apply map_size_empty_inv. lia.
  - eexists. split; [reflexivity |]. cbn. split; [done |]. split; [| done].
    by intros [? _].
Qed.





End TopLevelFacts.

(** *** Induction on values *)

Section ValueInduction.
Variable P : Value -> Prop.
Variable Q : Data -> Prop.

#[local] Abbreviation PS := (onResolved P).

Hypothesis HNil : P VNil.
Hypothesis HPlain : forall d, Q d -> P (VPlain d).
Hypothesis HInput : forall elementType toOutput asOutput d,
  (forall destType newType output,
     toOutput destType = Some (newType, output) -> PS output) ->
  (forall output, asOutput = Some output -> PS output) ->
  Q d -> P (VInput elementType toOutput asOutput d).
Hypothesis HBool : forall name b, Q (DBool name b).
Hypothesis HInt : forall name i, Q (DInt name i).
Hypothesis HUint : forall name u, Q (DUint name u).
Hypothesis HFloat : forall name f, Q (DFloat name f).
Hypothesis HString : forall name s, Q (DString name s).
Hypothesis HOther : forall name, Q (DOther name).
Hypothesis HPtr : forall elem p, (forall v, p = Some v -> P v) -> Q (DPtr elem p).
Hypothesis HSlice : forall name elem elems,
  (forall l, elems = Some l -> Forall P l) -> Q (DSlice name elem elems).
Hypothesis HArray : forall name elem elems, Forall P elems -> Q (DArray name elem elems).
Hypothesis HMap : forall name key elem entries,
  (forall l, entries = Some l -> Forall (fun kv => P kv.2) l) ->
  Q (DMap name key elem entries).
Hypothesis HStruct : forall name fields,
  Forall (fun fv => P fv.2) fields -> Q (DStruct name fields).
Hypothesis HAsset : forall a, Q (DAsset a).
Hypothesis HArchive : forall invalid assets path uri,
  (forall l, assets = Some l -> Forall (fun kv => P kv.2) l) ->
  Q (DArchive invalid assets path uri).
Hypothesis HResource : forall name r fields,
  Forall (fun fv => P fv.2) fields -> Q (DResource name r fields).

Lemma Value_tree_ind (v : Value) : P v
with Data_tree_ind (d : Data) : Q d.
Proof.
  - destruct v as [| d | elementType toOutput asOutput d].
    + exact HNil.
    + apply HPlain, Data_tree_ind.
    + apply HInput; [| | apply Data_tree_ind].
      * intros destType newType output Hc.
        destruct (toOutput destType) as [[ty st]|]; [| discriminate].
        injection Hc as <- <-.
        destruct st as [ov known secret deps | |]; simpl; [apply Value_tree_ind | done ..].
      * intros output Ho. destruct asOutput as [st|]; [| discriminate].
        injection Ho as <-.
        destruct st as [ov known secret deps | |]; simpl; [apply Value_tree_ind | done ..].
  - destruct d.
    + apply HBool.
    + apply HInt.
    + apply HUint.
    + apply HFloat.
    + apply HString.
    + apply HOther.
    + apply HPtr. intros v Hv. destruct p as [p|]; [| discriminate].
      injection Hv as <-. apply Value_tree_ind.
    + apply HSlice. intros l Hl. destruct elems as [elems|]; [| discriminate].
      injection Hl as <-.
      induction elems as [|x xs IH]; constructor; [apply Value_tree_ind | apply IH].
    + apply HArray.
      induction elems as [|x xs IH]; constructor; [apply Value_tree_ind | apply IH].
    + apply HMap. intros l Hl. destruct entries as [entries|]; [| discriminate].
      injection Hl as <-.
      induction entries as [|[k x] xs IH]; constructor; [apply Value_tree_ind | apply IH].
    + apply HStruct.
      induction fields as [|[f x] xs IH]; constructor; [apply Value_tree_ind | apply IH].
    + apply HAsset.
    + apply HArchive. intros l Hl. destruct assets as [assets|]; [| discriminate].
      injection Hl as <-.
      induction assets as [|[k x] xs IH]; constructor; [apply Value_tree_ind | apply IH].
    + apply HResource.
      induction fields as [|[f x] xs IH]; constructor; [apply Value_tree_ind | apply IH].
Qed.

End ValueInduction.

(** *** Where the errors of the marshaler come from *)

Lemma bind_Ok {A B : Type} (m : Outcome A) (f : A -> Outcome B) (b : B) :
  m ≫= f = Ok b -> exists a, m = Ok a /\ f a = Ok b.
Proof. destruct m as [a | | |]; cbn; [by exists a | done ..]. Qed.

Lemma bind_Err {A B : Type} (m : Outcome A) (f : A -> Outcome B) (e : Error) :
  m ≫= f = Err e -> m = Err e \/ exists a, m = Ok a /\ f a = Err e.
Proof. destruct m as [a | e' | |]; cbn; [by right; exists a | by intros [= ->]; left | done ..]. Qed.

Lemma Assertf_not_Err cond msg e : Assertf cond msg <> Err e.
Proof. by destruct cond. Qed.

Lemma await_Err {A : Type} (o : Awaited A) e : await o = Err e -> o = Failed e.
Proof. destruct o; cbn; [done | by intros [= ->] | done]. Qed.

Lemma addChildren_Err from res children :
  Forall (fun c => forall deps e, addDependency deps c from = Err e -> ResourceFails e c)
         children ->
  (forall c, In c children -> In c (res_children res)) ->
  forall deps e, addChildren from children deps = Err e -> ResourceFails e res.
Proof.
  induction 1 as [|c cs Hc _ IHcs]; intros Hsub deps e; [done |].
  cbn [addChildren]. intros [Hc' | (d1 & _ & Hrest)]%bind_Err.
  - eapply fails_child; [apply Hsub; by left | by eapply Hc].
  - eapply IHcs; [| exact Hrest]. intros c' Hc'. apply Hsub. by right.
Qed.

Lemma addOwn_Err res (deps : gmap URN Resource) e :
  ('(u, _, _) ← awaitURN res; mret (<[u := res]> deps) : Outcome (gmap URN Resource))
  = Err e -> ResourceFails e res.
Proof.
  intros [Ha | ([[u k] s] & _ & ?)]%bind_Err; [| done].
  apply fails_urn. by apply await_Err.
Qed.

Lemma addDependency_Err from res : forall deps e,
  addDependency deps res from = Err e -> ResourceFails e res.
Proof.
  induction res as [addr kind urn id children IH] using Resource_tree_ind.
  intros deps e.
  pose proof (addChildren_Err from (mkResource addr kind urn id children) children IH
                (fun c Hc => Hc)) as Hchildren.
  cbn [addDependency]. fold (addChildren from).
  cbn [res_children] in *.
  destruct (negb (isCustomResource _)); [| apply addOwn_Err].
  destruct (sameResource _ from); [done |].
  intros [Hc | (d1 & _ & Hrest)]%bind_Err; [by eapply Hchildren |].
  destruct (negb (keepDependency _)); [done | by eapply addOwn_Err].
Qed.

Lemma expandDependencies_Err roots e :
  expandDependencies roots = Err e -> exists r, In r roots /\ ResourceFails e r.
Proof.
  unfold expandDependencies. generalize (∅ : gmap URN Resource).
  induction roots as [|r roots IH]; intros set; [done |].
  cbn [expandDependencies_loop]. intros [Hr | (s1 & _ & Hrest)]%bind_Err.
  - exists r. split; [by left | by eapply addDependency_Err].
  - destruct (IH _ Hrest) as (r' & Hin & Hf). exists r'. split; [by right | done].
Qed.

Section Provenance.
Context {reflection : Reflection}.
Variable opts : option marshalOptions.
Hypothesis Hunset : errorOnOutput opts = false.

#[local] Abbreviation fromValue := (errorFromValue opts).
#[local] Abbreviation fromData := (errorFromData opts).

Lemma wrapOutput_Err element known secret outputDeps e :
  wrapOutput element known secret outputDeps = Err e ->
  exists r, In r outputDeps /\ ResourceFails e r.
Proof.
  unfold wrapOutput.
  destruct (known && negb secret && bool_decide (length outputDeps = 0%nat)); [done |].
  intros [He | (depSet & _ & ?)]%bind_Err; [| done]. by apply expandDependencies_Err.
Qed.

Lemma awaitOutput_Err outputType output destType e :
  onResolved fromValue output ->
  awaitOutput opts outputType output destType = Err e ->
  builtByMarshal e \/ CarriesState e output.
Proof.
  unfold awaitOutput. rewrite Hunset.
  destruct output as [ov known secret outputDeps | err |]; [| | done].
  - intros IH. destruct known.
    + intros [Hov | ([element ds] & _ & Hw)]%bind_Err.
      * destruct (IH _ _ _ _ Hov) as [? | ?]; [by left | right; by constructor].
      * right. destruct (wrapOutput_Err _ _ _ _ _ Hw) as (r & Hin & Hf).
        by eapply carries_deps.
    + intros Hw. right. destruct (wrapOutput_Err _ _ _ _ _ Hw) as (r & Hin & Hf).
      by eapply carries_deps.
  - intros _ [= ->]. right. constructor.
Qed.

Lemma marshalElems_Err destElem elems : forall arr deps e,
  Forall fromValue elems ->
  marshalElems opts destElem elems arr deps = Err e ->
  builtByMarshal e \/ exists v, In v elems /\ Carries e v.
Proof.
  induction elems as [|x xs IH]; intros arr deps e Hall; [done |].
  apply Forall_cons in Hall as [Hx Hxs]. cbn [marshalElems].
  intros [Hhead | ([pv d] & _ & Hrest)]%bind_Err.
  - destruct (Hx _ _ _ _ Hhead) as [? | ?]; [by left | right; exists x; split; [by left | done]].
  - destruct (IH _ _ _ Hxs Hrest) as [? | (v & Hin & Hc)]; [by left |].
    right. exists v. split; [by right | done].
Qed.

Lemma marshalMapEntries_Err destElem entries : forall obj deps e,
  Forall (fun kv => fromValue kv.2) entries ->
  marshalMapEntries opts destElem entries obj deps = Err e ->
  builtByMarshal e \/ exists k v, In (k, v) entries /\ Carries e v.
Proof.
  induction entries as [|[k x] xs IH]; intros obj deps e Hall; [done |].
  apply Forall_cons in Hall as [Hx Hxs]. cbn [marshalMapEntries].
  intros [Hhead | ([pv d] & _ & Hrest)]%bind_Err.
  - destruct (Hx _ _ _ _ Hhead) as [? | ?]; [by left |].
    right. exists k, x. split; [by left | done].
  - destruct (IH _ _ _ Hxs Hrest) as [? | (k' & v & Hin & Hc)]; [by left |].
    right. exists k', v. split; [by right | done].
Qed.

Lemma marshalAssets_Err entries : forall assets e,
  Forall (fun kv => fromValue kv.2) entries ->
  marshalAssets opts entries assets = Err e ->
  builtByMarshal e \/ exists k v, In (k, v) entries /\ Carries e v.
Proof.
  induction entries as [|[k x] xs IH]; intros assets e Hall; [done |].
  apply Forall_cons in Hall as [Hx Hxs]. cbn [marshalAssets].
  intros [Hhead | ([pv d] & _ & Hrest)]%bind_Err.
  - destruct (Hx _ _ _ _ Hhead) as [? | ?]; [by left |].
    right. exists k, x. split; [by left | done].
  - destruct (IH _ _ Hxs Hrest) as [? | (k' & v & Hin & Hc)]; [by left |].
    right. exists k', v. split; [by right | done].
Qed.

Lemma marshalStructFields_Err getMappedField fields : forall i obj deps e,
  Forall (fun fv => fromValue fv.2) fields ->
  marshalStructFields opts getMappedField i fields obj deps = Err e ->
  builtByMarshal e \/ exists f v, In (f, v) fields /\ Carries e v.
Proof.
  induction fields as [|[f x] xs IH]; intros i obj deps e Hall; [done |].
  apply Forall_cons in Hall as [Hx Hxs]. cbn [marshalStructFields].
  destruct (getMappedField i) as [destField|]; [| done]. cbn zeta.
  assert (Hrest : forall obj' deps',
    marshalStructFields opts getMappedField (S i) xs obj' deps' = Err e ->
    builtByMarshal e \/ exists f' v, In (f', v) ((f, x) :: xs) /\ Carries e v).
  { intros obj' deps' Hr. destruct (IH _ _ _ _ Hxs Hr) as [? | (f' & v & Hin & Hc)];
      [by left |]. right. exists f', v. split; [by right | done]. }
  case_bool_decide; [apply Hrest |].
  destruct (negb (IsExported (fieldName f))); [done |].
  intros [Hhead | ([pv d] & _ & Hr)]%bind_Err; [| by eapply Hrest].
  destruct (Hx _ _ _ _ Hhead) as [? | ?]; [by left |].
  right. exists f, x. split; [by left | done].
Qed.

Lemma marshalData_scalar_Err {A : Type} (check : Outcome unit) (result : A) (e : Error) :
  (forall e', check <> Err e') ->
  (_ ← check; (mret result : Outcome A)) <> Err e.
Proof.
  intros Hc [Hcheck | (? & _ & ?)]%bind_Err; [by eapply Hc | done].
Qed.

Lemma marshal_Err_provenance : forall v, fromValue v.
Proof.
  - apply (Value_tree_ind fromValue fromData); unfold errorFromValue, errorFromData.
    + done.
    + intros d IH destType skip deps e. rewrite marshalLoop_plain. intros He.
      destruct (IH _ _ _ _ He) as [? | ?]; [by left | right; by constructor].
    + intros elementType toOutput asOutput d Hconv Hout IH destType skip deps e.
      destruct skip.
      { cbn [marshalLoop]. intros He.
        destruct (IH _ _ _ _ He) as [? | ?]; [by left | right; by constructor]. }
      destruct (isNilPtr d) eqn:Hnil.
      { cbn [marshalLoop]. by rewrite Hnil. }
      rewrite marshalLoop_input by done.
      destruct (inputCheck elementType toOutput destType)
        as [destType' newType newOutput | destType' | destType'] eqn:Hcheck.
      * assert (toOutput destType' = Some (newType, newOutput)) as Hto.
        { unfold inputCheck in Hcheck.
          destruct (bool_decide (elementType ≠ adjustDest elementType destType)
                    && bool_decide (adjustDest elementType destType ≠ anyType));
            [| done].
          destruct (toOutput (adjustDest elementType destType)) as [[ty st]|] eqn:Hto.
          - by injection Hcheck as <- <- <-.
          - by destruct (negb (AssignableTo _ _)). }
        intros He. apply awaitOutput_Err in He.
        -- destruct He as [? | ?]; [by left | right; by eapply carries_converted].
        -- exact (Hconv _ _ _ Hto).
      * destruct asOutput as [output|].
        -- intros He. apply awaitOutput_Err in He.
           ++ destruct He as [? | ?]; [by left | right; by eapply carries_output].
           ++ exact (Hout _ eq_refl).
        -- intros He. destruct (IH _ _ _ _ He) as [? | ?]; [by left | right; by constructor].
      * intros [= <-]. by left.
    + intros name b vt dt deps e He. exfalso. revert He.
      apply marshalData_scalar_Err. intros e'. apply Assertf_not_Err.
    + intros name b vt dt deps e He. exfalso. revert He.
      apply marshalData_scalar_Err. intros e'. apply Assertf_not_Err.
    + intros name b vt dt deps e He. exfalso. revert He.
      apply marshalData_scalar_Err. intros e'. apply Assertf_not_Err.
    + intros name b vt dt deps e He. exfalso. revert He.
      apply marshalData_scalar_Err. intros e'. apply Assertf_not_Err.
    + intros name b vt dt deps e He. exfalso. revert He.
      apply marshalData_scalar_Err. intros e'. apply Assertf_not_Err.
    + intros name vt dt deps e. cbn [marshalData].
      intros [Ha | (? & _ & [= <-])]%bind_Err; [by apply Assertf_not_Err in Ha | by left].
    + intros elem p IH vt dt deps e. destruct p as [p|]; [| done]. cbn [marshalData].
      intros [Ha | (? & _ & He)]%bind_Err; [by apply Assertf_not_Err in Ha |].
      destruct (IH p eq_refl _ _ _ _ He) as [? | ?]; [by left | right; by constructor].
    + intros name elem elems IH vt dt deps e. destruct elems as [elems|]; [| done].
      cbn [marshalData]. cbn [mbind Outcome_bind mret Outcome_ret].
      destruct (Elem _) as [destElem|]; [| done].
      fold (marshalElems opts destElem). intros He.
      destruct (marshalElems_Err _ _ _ _ _ (IH _ eq_refl) He) as [? | (v & Hin & Hc)];
        [by left | right; by eapply carries_slice].
    + intros name elem elems IH vt dt deps e. done.
    + intros name key elem entries IH vt dt deps e. cbn [marshalData].
      cbn [mbind Outcome_bind mret Outcome_ret].
      case_bool_decide; [intros [= <-]; by left |].
      destruct entries as [entries|]; [| done].
      destruct (Elem _) as [destElem|]; [| done].
      fold (marshalMapEntries opts destElem). intros He.
      destruct (marshalMapEntries_Err _ _ _ _ _ (IH _ eq_refl) He)
        as [? | (k & v & Hin & Hc)]; [by left | right; by eapply carries_map].
    + intros name fields IH vt dt deps e. cbn [marshalData].
      intros [Ha | (? & _ & He)]%bind_Err; [by apply Assertf_not_Err in Ha |].
      destruct (MapStructTypes _ _) as [g|]; [| done].
      fold (marshalStructFields opts g) in He.
      destruct (marshalStructFields_Err _ _ _ _ _ _ IH He)
        as [? | (f & v & Hin & Hc)]; [by left | right; by eapply carries_struct].
    + intros a vt dt deps e. cbn [marshalData].
      destruct (asset_invalid a); [intros [= <-]; by left | done].
    + intros invalid assets path uri IH vt dt deps e. cbn [marshalData].
      destruct invalid; [intros [= <-]; by left |].
      intros [Ha | (? & _ & ?)]%bind_Err; [| done].
      destruct assets as [assets|]; [| done].
      fold (marshalAssets opts) in Ha.
      apply bind_Err in Ha as [Ha | (? & _ & ?)]; [| done].
      destruct (marshalAssets_Err _ _ _ (IH _ eq_refl) Ha)
        as [? | (k & v & Hin & Hc)]; [by left | right; by eapply carries_archive].
    + intros name r fields _ vt dt deps e. rewrite marshalData_resource.
      intros [Hu | ([[urn known] secretURN] & _ & He)]%bind_Err.
      { right. constructor. apply fails_urn. by apply await_Err. }
      apply bind_Err in He as [Ha | (? & _ & He)]; [by apply Assertf_not_Err in Ha |].
      apply bind_Err in He as [Ha | (? & _ & He)]; [by apply Assertf_not_Err in Ha |].
      destruct (isCustomResource r); [| done].
      apply bind_Err in He as [Hi | ([[id knownID] secretID] & _ & He)].
      { right. constructor. apply fails_id. by apply await_Err. }
      apply bind_Err in He as [Ha | (? & _ & ?)]; [by apply Assertf_not_Err in Ha | done].
Qed.

End Provenance.

(** *** A [Null] value comes without dependencies *)

Section NullValues.
Context {reflection : Reflection}.
Variable opts : option marshalOptions.








End NullValues.



Example marshalInputs_resourceMap :
  marshalInputs (reflection := exampleReflection) resourceMap
  = Ok ({[ "bucket" := MakeCustomResourceReference "urn:A" "id" "" ]},
        {[ "bucket" := ["urn:A"] ]}, ["urn:A"]).
Proof. vm_compute. reflexivity. Qed.

(** With [ErrorOnOutput] set the outcome for an output is decided by the
    input check alone. *)
Lemma marshal_output_refused `{Reflection} opts elementType toOutput output d destType :
  isNilPtr d = false -> errorOnOutput opts = true ->
  marshalInputOptions (VInput elementType toOutput (Some output) d) destType opts
  = match inputCheck elementType toOutput destType with
    | CheckDirect _ => Err (ErrCannotAwait (typeOfData d))
    | CheckConverted _ newType _ => Err (ErrCannotAwait newType)
    | CheckMismatch destType' =>
        Err (ErrCannotMarshalInput (typeOfData d) elementType destType')
    end.
Proof.
  intros Hnil Hset. unfold marshalInputOptions, marshalInputOptionsImpl.
  rewrite marshalLoop_input by done.
  destruct (inputCheck elementType toOutput destType); unfold awaitOutput;
    by rewrite ?Hset.
Qed.

Lemma inputCheck_types `{Reflection} elementType toOutput toOutput' destType :
  (forall t, fst <$> toOutput' t = fst <$> toOutput t) ->
  match inputCheck elementType toOutput destType,
        inputCheck elementType toOutput' destType with
  | CheckDirect a, CheckDirect b => a = b
  | CheckConverted a ty _, CheckConverted b ty' _ => a = b /\ ty = ty'
  | CheckMismatch a, CheckMismatch b => a = b
  | _, _ => False
  end.
Proof.
  intros Hsame. unfold inputCheck.
  destruct (bool_decide (elementType ≠ adjustDest elementType destType)
            && bool_decide (adjustDest elementType destType ≠ anyType)); [| done].
  specialize (Hsame (adjustDest elementType destType)).
  destruct (toOutput (adjustDest elementType destType)) as [[ty st]|],
           (toOutput' (adjustDest elementType destType)) as [[ty' st']|];
    cbn in Hsame; try done.
  - by injection Hsame as ->.
  - by destruct (negb (AssignableTo _ _)).
Qed.

(** C8, as the code has it.  With [ErrorOnOutput] set, marshaling a
    non-nil value that is an output returns an error without awaiting any
    output: the "cannot marshal Output value" error with the type of the
    output, which is the type of the output that the conversion method for
    the destination type returns when there is one, or, when the element
    type of the value fits the destination type in no way, the error of the
    input check that comes first.  The result is the same whatever the
    states of the output and of the converted outputs are.  With
    [ErrorOnOutput] unset the marshaler does not build the "cannot marshal
    Output value" error: the result can be that error only when a future
    inside the value was itself rejected with it. *)
Theorem marshal_output_ErrorOnOutput :
  forall (R : Reflection) (opts : option marshalOptions) (elementType : GoType)
         (toOutput : GoType -> option (GoType * OutputState Value))
         (output : OutputState Value) (d : Data) (destType : GoType),
    isNilPtr d = false ->
    let v := VInput elementType toOutput (Some output) d in
    (errorOnOutput opts = true ->
       match inputCheck elementType toOutput destType with
       | CheckDirect _ =>
           marshalInputOptions v destType opts = Err (ErrCannotAwait (typeOfData d))
       | CheckConverted _ newType _ =>
           marshalInputOptions v destType opts = Err (ErrCannotAwait newType)
       | CheckMismatch destType' =>
           marshalInputOptions v destType opts
           = Err (ErrCannotMarshalInput (typeOfData d) elementType destType')
       end
       /\ forall output' toOutput',
            (forall t, fst <$> toOutput' t = fst <$> toOutput t) ->
            marshalInputOptions (VInput elementType toOutput' (Some output') d) destType opts
            = marshalInputOptions v destType opts)
    /\ (errorOnOutput opts = false ->
        forall outputType,
          marshalInputOptions v destType opts = Err (ErrCannotAwait outputType) ->
          Carries (ErrCannotAwait outputType) v).
Proof.
  intros R opts elementType toOutput output d destType Hnil v. split.
  - intros Hset. split.
    + subst v. rewrite marshal_output_refused by done.
      by destruct (inputCheck elementType toOutput destType).
    + intros output' toOutput' Hsame. subst v. rewrite !marshal_output_refused by done.
      pose proof (inputCheck_types elementType toOutput toOutput' destType Hsame) as Ht.
      destruct (inputCheck elementType toOutput destType),
               (inputCheck elementType toOutput' destType); try done.
      * by destruct Ht as [_ ->].
      * by subst.
  - intros Hunset outputType He.
    destruct (marshal_Err_provenance opts Hunset v _ _ _ _ He) as [[] | ?]. done.
Qed.

Lemma marshal_output_ErrorOnOutput_witness :
  isNilPtr stringOutputData = false
  /\ errorOnOutput errorOnOutputSet = true
  /\ marshalInputOptions (reflection := exampleReflection) exampleSecretOutput stringType
       errorOnOutputSet
     = Err (ErrCannotAwait (TStruct "pulumi.StringOutput" [])).
Proof.
  split; [reflexivity |]. split; [reflexivity |].
  exact (proj1 (proj1 (marshal_output_ErrorOnOutput exampleReflection errorOnOutputSet
                         stringType (fun _ => None) secretOutput stringOutputData
                         stringType eq_refl) eq_refl)).
Defined.

(** C8 as stated fails: a string output marshaled for a destination of type
    [int] with [ErrorOnOutput] set is refused by the input check, with an
    error that is not the "cannot marshal Output value" error. *)
Lemma marshal_output_mismatch_error :
  marshalInputOptions (reflection := exampleReflection) exampleSecretOutput intType errorOnOutputSet
  = Err (ErrCannotMarshalInput (TStruct "pulumi.StringOutput" []) stringType intType)
  /\ forall outputType,
       marshalInputOptions (reflection := exampleReflection) exampleSecretOutput intType
         errorOnOutputSet
       <> Err (ErrCannotAwait outputType).
Proof. split; [reflexivity | intros outputType; discriminate]. Qed.

(** ** The unmarshaling engine *)

Lemma lookupWith_lookup {A B : Type} (f : A -> B) (key : string) (obj : gmap string A) :
  lookupWith f key obj = f <$> obj !! key.
Proof.
  unfold lookupWith.
  apply (map_fold_weak_ind (fun r m => r = f <$> m !! key)); [by rewrite lookup_empty |].
  intros k x m r Hk ->.
  destruct (String.eqb_spec k key) as [-> | Hne].
  - by rewrite lookup_insert_eq.
  - by rewrite lookup_insert_ne.
Qed.

Lemma Load_found_some {V : Type} `{Versioned V} (vm : versionedMap V) key version :
  (Load vm key version).2 = bool_decide (is_Some (Load vm key version).1).
Proof.
  unfold Load. generalize (semver.EQ version nullVersion) as wildcard.
  intros wildcard. generalize (@None V) as best.
  induction (default [] (versions vm !! key)) as [|v rest IH]; intros best; [done |].
  cbn [Load_scan].
  destruct (negb wildcard && negb (semver.Major (Version v) =? semver.Major version)%N);
    [apply IH |].
  destruct (semver.EQ (Version v) version).
  { reflexivity. }
  destruct best as [b|]; [| apply IH].
  destruct (semver.GTE (Version v) (Version b)); apply IH.
Qed.

Section UnmarshalFacts.
Context {reflection : Reflection} {runtime : Runtime}.
Variable resourcePackages : versionedMap ResourcePackage.
Variable resourceModules : versionedMap ResourceModule.

Lemma unmarshalPropertyValue_output element known secret deps :
  unmarshalPropertyValue resourcePackages resourceModules (PVOutput element known secret deps)
  = if negb known then Ok (RNil, secret)
    else '(ov, _) ← unmarshalPropertyValue resourcePackages resourceModules element;
         mret (ov, secret).
Proof. done. Qed.

Lemma unmarshalOutput_output element known secret deps destType :
  unmarshalOutput resourcePackages resourceModules (PVOutput element known secret deps)
    destType
  = if negb known then Ok false
    else _ ← unmarshalOutput resourcePackages resourceModules element (allocate destType).1;
         mret secret.
Proof. cbn [unmarshalOutput]. by destruct (allocate destType). Qed.

End UnmarshalFacts.

(** C3.  [unmarshalPropertyValue] returns, for an output wire value, the
    secret flag of the wire value whenever it returns without an error,
    known or not.  [unmarshalOutput] returns it only for a known output:
    for an output that is not known it returns false, so that the secret
    flag of an unknown secret output is lost, which
    [unmarshalPropertyValue] keeps. *)
Theorem unmarshal_output_secret :
  (forall (R : Reflection) (Rt : Runtime) (pkgs : versionedMap ResourcePackage)
          (mods : versionedMap ResourceModule) (element : PropertyValue)
          (known secret : bool) (deps : list URN) (destType : GoType),
     match unmarshalPropertyValue pkgs mods (PVOutput element known secret deps) with
     | Ok (_, s) => s = secret
     | _ => True
     end
     /\ match unmarshalOutput pkgs mods (PVOutput element known secret deps) destType with
        | Ok s => s = known && secret
        | _ => True
        end)
  /\ unmarshalPropertyValue (runtime := exampleRuntime)
       noPackages noModules unknownSecret = Ok (RNil, true)
  /\ unmarshalOutput (reflection := exampleReflection) (runtime := exampleRuntime)
       noPackages noModules unknownSecret stringType = Ok false.
Proof.
  split; [| split; reflexivity].
  intros R Rt pkgs mods element known secret deps destType. split.
  - rewrite unmarshalPropertyValue_output. destruct known; cbn [negb]; [| done].
    by destruct (unmarshalPropertyValue pkgs mods element) as [[ov s] | | |].
  - rewrite unmarshalOutput_output. destruct known; cbn [negb andb]; [| done].
    by destruct (unmarshalOutput pkgs mods element (allocate destType).1).
Qed.



Example unmarshal_provider_reference :
  unmarshalResourceReference (runtime := exampleRuntime) noPackages noModules
    providerReference
  = Ok (newDependencyProviderResource (Runtime := exampleRuntime)
          "pulumi:providers:aws::default" "p-1").
Proof. reflexivity. Qed.

Example unmarshal_bad_version :
  unmarshalResourceReference (runtime := exampleRuntime) noPackages noModules
    (mkResourceReference "aws:s3:Bucket::b" None "not-a-version")
  = Err (ErrParseProviderVersion "not-a-version").
Proof. reflexivity. Qed.

(** ** [Apply] *)

(** C7.  For an output that settled unknown, [Apply] does not invoke the
    callback (the store the callback could change is unchanged, and the
    result is the same for every callback) and its result awaits to
    known = false with the secret flag and the dependencies of the output.
    For an output that was rejected, [Apply] does not invoke the callback
    and its result is rejected with the same error. *)
Theorem Apply_skips_callback :
  forall (A B S : Type) (f : A -> S -> output.Returned B * S) (s : S),
    (forall (value : A) (secret : bool) (deps : gset URN),
       let o := output.resolve value false secret deps in
       (output.Apply o f s).2 = s
       /\ (forall g : A -> S -> output.Returned B * S,
             output.Apply o g s = output.Apply o f s)
       /\ output.await (output.Apply o f s).1 = Ok (None, false, secret, deps, None))
    /\ (forall err : Error,
          let o := @output.reject A err in
          (output.Apply o f s).2 = s
          /\ (forall g : A -> S -> output.Returned B * S,
                output.Apply o g s = output.Apply o f s)
          /\ (output.Apply o f s).1 = output.Rejected err
          /\ output.await (output.Apply o f s).1 = Ok (None, false, false, ∅, Some err)).
Proof.
  intros A B S f s. split.
  - intros value secret deps o. by repeat split.
  - intros err o. by repeat split.
Qed.

(** The three first cases of [TestOutputApply]. *)
Example TestOutputApply_resolved :
  output.Apply (output.resolve 42%Z true false ∅) incrementAndFlag false
  = (output.Known 43%Z false ∅, true).
Proof. reflexivity. Qed.

Example TestOutputApply_unknown :
  output.Apply (output.resolve 42%Z false false ∅) incrementAndFlag false
  = (output.Unknown false ∅, false).
Proof. reflexivity. Qed.

Example TestOutputApply_rejected :
  output.Apply (output.reject (ErrExternal "boom")) incrementAndFlag false
  = (output.Rejected (ErrExternal "boom"), false).
Proof. reflexivity. Qed.

(** ** Registrations *)

Lemma EQ_refl v : semver.EQ v v = true.
Proof. unfold semver.EQ. by rewrite (coh_refl _ Compare_coherent). Qed.

Lemma EQ_sym a b : semver.EQ a b = semver.EQ b a.
Proof.
  unfold semver.EQ. rewrite (coh_flip _ Compare_coherent a b).
  by destruct (semver.Compare a b).
Qed.

Section StoreFacts.
Context {V : Type} `{Versioned V}.

Lemma isExact_isCandidate version (v : V) :
  isExact version v = true -> isCandidate version v = true.
Proof.
  unfold isExact, isCandidate. intros He%EQ_same_Major. rewrite He.
  rewrite N.eqb_refl. apply orb_true_r.
Qed.

(** The scan returns the first entry whose version equals the requested
    one, whatever follows it. *)
Lemma Load_scan_first_exact version (l1 : list V) v l2 best :
  Forall (fun w => isExact version w = false) l1 ->
  isExact version v = true ->
  Load_scan version (semver.EQ version nullVersion) (l1 ++ v :: l2) best = (Some v, true).
Proof.
  intros Hl1 Hv. apply Load_scan_exact.
  induction Hl1 as [|w l1 Hw _ IH]; cbn [app List.filter].
  - rewrite (isExact_isCandidate _ _ Hv). cbn [List.find]. by rewrite Hv.
  - destruct (isCandidate version w); [| exact IH].
    cbn [List.find]. by rewrite Hw.
Qed.

Lemma hasVersion_false (value : V) vs version :
  hasVersion value vs version = false ->
  Forall (fun w => isExact (Version value) w = false) vs.
Proof.
  unfold hasVersion, isExact. induction vs as [|w vs IH]; cbn [existsb]; [constructor |].
  intros [Hw Hvs]%orb_false_elim. constructor; [done | by apply IH].
Qed.

Lemma hasVersion_true (value : V) vs version :
  hasVersion value vs version = true <->
  exists w, In w vs /\ semver.EQ (Version w) (Version value) = true.
Proof. unfold hasVersion. apply existsb_exists. Qed.

Lemma Store_Ok (vm vm' : versionedMap V) key value :
  Store vm key value = Ok vm' ->
  hasVersion value (entriesOf vm key) (Version value) = false
  /\ vm' = mkVersionedMap (<[key := entriesOf vm key ++ [value]]> (versions vm)).
Proof.
  unfold Store, entriesOf. destruct (versions vm !! key) as [vs|]; cbn [from_option id].
  - destruct (hasVersion value vs (Version value)); [done |]. by intros [= <-].
  - by intros [= <-].
Qed.

Lemma Store_entriesOf (vm vm' : versionedMap V) key value key' :
  Store vm key value = Ok vm' ->
  entriesOf vm' key' = if decide (key' = key) then entriesOf vm key ++ [value]
                       else entriesOf vm key'.
Proof.
  intros [_ ->]%Store_Ok. unfold entriesOf at 1. cbn.
  destruct (decide (key' = key)) as [-> | Hne].
  - by rewrite lookup_insert_eq.
  - by rewrite lookup_insert_ne.
Qed.

Lemma Load_entriesOf (vm : versionedMap V) key version :
  Load vm key version
  = Load_scan version (semver.EQ version nullVersion) (entriesOf vm key) None.
Proof. done. Qed.

Lemma Load_stored (vm vm' : versionedMap V) key value :
  Store vm key value = Ok vm' -> Load vm' key (Version value) = (Some value, true).
Proof.
  intros HS. rewrite Load_entriesOf, (Store_entriesOf _ _ _ _ key HS).
  rewrite decide_True by done. apply Store_Ok in HS as [Hno _].
  apply Load_scan_first_exact; [by eapply hasVersion_false |].
  unfold isExact. apply EQ_refl.
Qed.

Lemma distinctVersions_snoc (vs : list V) value :
  distinctVersions vs -> hasVersion value vs (Version value) = false ->
  distinctVersions (vs ++ [value]).
Proof.
  intros Hd Hno%hasVersion_false. rewrite List.Forall_forall in Hno.
  assert (Hnew : forall i v, vs !! i = Some v ->
            semver.EQ (Version v) (Version value) = true -> False).
  { intros i v Hv He. apply list_elem_of_lookup_2, list_elem_of_In in Hv.
    specialize (Hno v Hv). unfold isExact in Hno. congruence. }
  intros i j v w Hv Hw He.
  destruct (lookup_app_Some vs [value] i v) as [[Hi | [Hi Hi']] _]; [done | |];
    destruct (lookup_app_Some vs [value] j w) as [[Hj | [Hj Hj']] _]; try done.
  - by eapply Hd.
  - exfalso. apply list_lookup_singleton_Some in Hj' as [_ <-]. by eapply Hnew.
  - exfalso. apply list_lookup_singleton_Some in Hi' as [_ <-].
    rewrite EQ_sym in He. by eapply Hnew.
  - apply list_lookup_singleton_Some in Hi' as [Hi' _].
    apply list_lookup_singleton_Some in Hj' as [Hj' _]. lia.
Qed.

Lemma registered_distinct (vm : versionedMap V) :
  registered vm -> forall key, distinctVersions (entriesOf vm key).
Proof.
  induction 1 as [| vm key value vm' _ IH HS]; intros key'.
  - unfold entriesOf. cbn. rewrite lookup_empty. intros i j v w Hv. done.
  - rewrite (Store_entriesOf _ _ _ _ key' HS). destruct (decide (key' = key)) as [-> |]; [| done].
    apply distinctVersions_snoc; [done |]. by apply Store_Ok in HS as [? _].
Qed.

End StoreFacts.

(** X1.  Store and Load round trip: after [Store] has accepted a value
    under a key, [Load] of that key at the version of the value returns the
    value itself, with found = true, whatever else is stored under the
    key. *)
Theorem Store_Load_roundtrip :
  forall (V : Type) (HV : Versioned V) (vm vm' : versionedMap V) (key : string) (value : V),
    Store vm key value = Ok vm' ->
    Load vm' key (Version value) = (Some value, true).
Proof.
  intros V HV vm vm' key value HS.
  rewrite Load_entriesOf, (Store_entriesOf _ _ _ _ key HS), decide_True by done.
  apply Store_Ok in HS as [Hno _].
  apply Load_scan_first_exact.
  - by eapply hasVersion_false.
  - unfold isExact. apply EQ_refl.
Qed.

Lemma Store_Load_roundtrip_witness :
  Store exampleRegistry "aws:s3" (exampleModule v1_5_0)
  = Ok (mkVersionedMap {[ "aws:s3" := [exampleModule v1_2_0; exampleModule v2_0_0;
                                       exampleModule v1_5_0] ]})
  /\ Load (mkVersionedMap {[ "aws:s3" := [exampleModule v1_2_0; exampleModule v2_0_0;
                                          exampleModule v1_5_0] ]})
          "aws:s3" (Version (exampleModule v1_5_0))
     = (Some (exampleModule v1_5_0), true).
Proof.
  assert (HS : Store exampleRegistry "aws:s3" (exampleModule v1_5_0)
    = Ok (mkVersionedMap {[ "aws:s3" := [exampleModule v1_2_0; exampleModule v2_0_0;
                                         exampleModule v1_5_0] ]})).
  { unfold Store, exampleRegistry. cbn [versions]. rewrite lookup_singleton_eq.
    cbn. by rewrite insert_singleton_eq. }
  split; [exact HS |].
  exact (Store_Load_roundtrip ResourceModule _ _ _ _ _ HS).
Defined.

(** X2.  A version is registered at most once under a key: [Store] returns
    the "existing registration" error exactly when an entry with an equal
    version is already stored under the key, and succeeds otherwise; so
    once a value is stored, storing any value of an equal version under the
    same key fails, and [RegisterResourcePackage] and
    [RegisterResourceModule] panic on it. *)
Theorem Store_rejects_equal_version :
  (forall (V : Type) (HV : Versioned V) (vm : versionedMap V) (key : string) (value : V),
     (Store vm key value = Err (ErrExistingRegistration key (Version value)) <->
      exists w, In w (entriesOf vm key) /\ semver.EQ (Version w) (Version value) = true)
     /\ ((exists vm', Store vm key value = Ok vm') <->
         ~ exists w, In w (entriesOf vm key) /\ semver.EQ (Version w) (Version value) = true)
     /\ (forall vm' value',
           Store vm key value = Ok vm' ->
           semver.EQ (Version value') (Version value) = true ->
           Store vm' key value' = Err (ErrExistingRegistration key (Version value'))))
  /\ (forall resourcePackages resourcePackages' pkg resourcePackage,
        RegisterResourcePackage resourcePackages pkg resourcePackage = Ok resourcePackages' ->
        RegisterResourcePackage resourcePackages' pkg resourcePackage
        = Panic "existing registration")
  /\ (forall resourceModules resourceModules' pkg mod_ module,
        RegisterResourceModule resourceModules pkg mod_ module = Ok resourceModules' ->
        RegisterResourceModule resourceModules' pkg mod_ module
        = Panic "existing registration").
Proof.
  assert (Hiff : forall (V : Type) (HV : Versioned V) (vm : versionedMap V) key (value : V),
    (Store vm key value = Err (ErrExistingRegistration key (Version value)) <->
      exists w, In w (entriesOf vm key) /\ semver.EQ (Version w) (Version value) = true)
    /\ ((exists vm', Store vm key value = Ok vm') <->
         ~ exists w, In w (entriesOf vm key) /\ semver.EQ (Version w) (Version value) = true)).
  { intros V HV vm key value.
    rewrite <- (hasVersion_true value (entriesOf vm key) (Version value)).
    unfold Store, entriesOf.
    destruct (versions vm !! key) as [vs|]; cbn [from_option id hasVersion existsb].
    - fold (hasVersion value vs (Version value)).
      destruct (hasVersion value vs (Version value)).
      + split; [done |]. split; [by intros [vm' ?] | intros Hn; exfalso; by apply Hn].
      + split; [done |]. split; [by intros _ ? | intros _; by eexists].
    - split; [done |]. split; [by intros _ ? | intros _; by eexists]. }
  assert (Hagain : forall (V : Type) (HV : Versioned V) (vm vm' : versionedMap V) key
                          (value value' : V),
    Store vm key value = Ok vm' ->
    semver.EQ (Version value') (Version value) = true ->
    Store vm' key value' = Err (ErrExistingRegistration key (Version value'))).
  { intros V HV vm vm' key value value' HS He.
    apply (proj1 (Hiff V HV vm' key value')). exists value.
    rewrite (Store_entriesOf _ _ _ _ key HS), decide_True by done.
    split; [apply in_or_app; right; by left | by rewrite EQ_sym]. }
  split; [| split].
  - intros V HV vm key value. destruct (Hiff V HV vm key value) as [H1 H2].
    split; [done |]. split; [done |]. intros vm' value'. apply Hagain.
  - intros rp rp' pkg p. unfold RegisterResourcePackage.
    destruct (Store rp pkg p) as [vm' | e | msg |] eqn:HS; try done. intros [= ->].
    by rewrite (Hagain _ _ _ _ _ _ p HS (EQ_refl _)).
  - intros rm rm' pkg mod_ m. unfold RegisterResourceModule.
    destruct (Store rm (moduleKey pkg mod_) m) as [vm' | e | msg |] eqn:HS; try done.
    intros [= ->]. by rewrite (Hagain _ _ _ _ _ _ m HS (EQ_refl _)).
Qed.

(** X3.  A registration leaves the other lookups as they were: after a
    successful [Store] under [key], [Load] of any other key returns what it
    returned before, and so does [Load] of [key] at the version of any
    entry that was already stored under it. *)
Theorem Store_preserves_lookups :
  forall (V : Type) (HV : Versioned V) (vm vm' : versionedMap V) (key : string) (value : V),
    Store vm key value = Ok vm' ->
    (forall key' version, key' <> key -> Load vm' key' version = Load vm key' version)
    /\ (forall v, In v (entriesOf vm key) ->
          Load vm' key (Version v) = Load vm key (Version v)).
Proof.
  intros V HV vm vm' key value HS. split.
  - intros key' version Hne.
    by rewrite !Load_entriesOf, (Store_entriesOf _ _ _ _ key' HS), decide_False.
  - intros v Hin.
    rewrite !Load_entriesOf, (Store_entriesOf _ _ _ _ key HS), decide_True by done.
    set (version := Version v).
    assert (Hex : Exists (fun w => isExact version w = true) (entriesOf vm key)).
    { apply List.Exists_exists. exists v. split; [done | apply EQ_refl]. }
    revert Hex. generalize (entriesOf vm key). intros vs Hex.
    assert (Hsplit : exists l1 w l2, vs = l1 ++ w :: l2
              /\ Forall (fun w => isExact version w = false) l1
              /\ isExact version w = true).
    { clear -Hex. induction Hex as [w l Hw | w l _ IH].
      - exists [], w, l. by repeat split.
      - destruct (isExact version w) eqn:Hw.
        + exists [], w, l. by repeat split.
        + destruct IH as (l1 & w' & l2 & -> & Hl1 & Hw').
          exists (w :: l1), w', l2. repeat split; [| done]. by constructor. }
    destruct Hsplit as (l1 & w & l2 & -> & Hl1 & Hw).
    rewrite <- app_assoc. cbn [app].
    by rewrite !Load_scan_first_exact.
Qed.

Lemma Store_preserves_lookups_witness :
  Load (mkVersionedMap {[ "aws:s3" := [exampleModule v1_2_0; exampleModule v2_0_0;
                                       exampleModule v1_5_0] ]})
       "aws:s3" v1_2_0
  = Load exampleRegistry "aws:s3" v1_2_0.
Proof.
  assert (HS : Store exampleRegistry "aws:s3" (exampleModule v1_5_0)
    = Ok (mkVersionedMap {[ "aws:s3" := [exampleModule v1_2_0; exampleModule v2_0_0;
                                         exampleModule v1_5_0] ]})).
  { unfold Store, exampleRegistry. cbn [versions]. rewrite lookup_singleton_eq.
    cbn. by rewrite insert_singleton_eq. }
  apply (proj2 (Store_preserves_lookups ResourceModule _ _ _ _ _ HS) (exampleModule v1_2_0)).
  unfold entriesOf, exampleRegistry. cbn [versions]. rewrite lookup_singleton_eq.
  by left.
Defined.

(** X4.  In a registry built from the empty one by successful [Store]
    calls, no two entries under a key have equal versions, and [Load] of a
    key at the version of an entry stored under it returns exactly that
    entry. *)
Theorem registered_Load_exact :
  forall (V : Type) (HV : Versioned V) (vm : versionedMap V),
    registered vm ->
    forall key, distinctVersions (entriesOf vm key)
      /\ forall v, In v (entriesOf vm key) -> Load vm key (Version v) = (Some v, true).
Proof.
  intros V HV vm Hreg key. pose proof (registered_distinct vm Hreg key) as Hd.
  split; [done |]. intros v Hin. rewrite Load_entriesOf.
  apply list_elem_of_In, list_elem_of_lookup in Hin as [i Hi].
  revert Hd Hi. generalize (entriesOf vm key). intros vs Hd Hi.
  rewrite <- (take_drop_middle vs i v Hi).
  apply Load_scan_first_exact; [| apply EQ_refl].
  apply List.Forall_forall. intros w Hw.
  apply list_elem_of_In, list_elem_of_lookup in Hw as [j Hj].
  apply lookup_take_Some in Hj as [Hj Hlt].
  destruct (isExact (Version v) w) eqn:He; [| done].
  unfold isExact in He. pose proof (Hd j i w v Hj Hi He). lia.
Qed.

Lemma registered_Load_exact_witness :
  registered exampleRegistry
  /\ Load exampleRegistry "aws:s3" (Version (exampleModule v2_0_0))
     = (Some (exampleModule v2_0_0), true).
Proof.
  assert (Hreg : registered exampleRegistry).
  { eapply (registered_Store (mkVersionedMap {[ "aws:s3" := [exampleModule v1_2_0] ]})
              "aws:s3" (exampleModule v2_0_0)).
    - eapply (registered_Store (mkVersionedMap ∅) "aws:s3" (exampleModule v1_2_0)).
      + constructor.
      + unfold Store. cbn [versions]. rewrite lookup_empty. cbn.
        by rewrite insert_empty.
    - unfold Store, exampleRegistry. cbn [versions]. rewrite lookup_singleton_eq. cbn.
      by rewrite insert_singleton_eq. }
  split; [exact Hreg |].
  apply (proj2 (registered_Load_exact ResourceModule _ _ Hreg "aws:s3")).
  unfold entriesOf, exampleRegistry. cbn [versions]. rewrite lookup_singleton_eq.
  right. by left.
Defined.

Lemma append_no_colon_inj (p1 p2 m1 m2 : string) :
  ~ hasColon p1 -> ~ hasColon p2 ->
  String.append p1 (String ":" m1) = String.append p2 (String ":" m2) ->
  p1 = p2 /\ m1 = m2.
Proof.
  unfold hasColon. revert p2. induction p1 as [|c p1 IH]; intros [|d p2]; cbn.
  - intros _ _ [= ->]. done.
  - intros _ Hd [= <- _]. exfalso. apply Hd. by left.
  - intros Hc _ [= -> _]. exfalso. apply Hc. by left.
  - intros Hc Hd [= -> He]. destruct (IH p2) as [-> ->]; [tauto | tauto | done | done].
Qed.

(** X5.  [moduleKey] joins the package and the module with a colon.  The
    key determines both when the package names hold no colon; without that
    condition two different pairs can share a key. *)
Theorem moduleKey_injective :
  (forall pkg1 mod1 pkg2 mod2 : string,
     ~ hasColon pkg1 -> ~ hasColon pkg2 ->
     moduleKey pkg1 mod1 = moduleKey pkg2 mod2 -> pkg1 = pkg2 /\ mod1 = mod2)
  /\ moduleKey "a:b" "c" = moduleKey "a" "b:c".
Proof.
  split; [| reflexivity].
  intros pkg1 mod1 pkg2 mod2 H1 H2. unfold moduleKey. cbn [String.append].
  by apply append_no_colon_inj.
Qed.

(** X6.  Registration and resolution compose.  Once
    [RegisterResourceModule] has registered a module under a package and a
    module name, a resource reference that is not a provider reference,
    whose type has that module key and whose package version parses to the
    version of the module, is unmarshaled by the [Construct] method of that
    very module; and once [RegisterResourcePackage] has registered a
    package, a provider reference whose type names the package and whose
    package version parses to the version of the package is unmarshaled by
    its [ConstructProvider] method. *)
Theorem registered_constructor_resolves :
  forall runtime : Runtime,
    (forall (resourcePackages : versionedMap ResourcePackage)
            (resourceModules resourceModules' : versionedMap ResourceModule)
            (pkg mod_ : string) (module : ResourceModule) (ref : ResourceReference),
       RegisterResourceModule resourceModules pkg mod_ module = Ok resourceModules' ->
       isProviderReference ref = false ->
       Type_Module (URN_Type (ref_URN ref)) = moduleKey pkg mod_ ->
       referenceVersion ref = Some (Version module) ->
       unmarshalResourceReference resourcePackages resourceModules' ref
       = Construct module (URN_Name (ref_URN ref)) (URN_Type (ref_URN ref)) (ref_URN ref))
    /\ (forall (resourcePackages resourcePackages' : versionedMap ResourcePackage)
               (resourceModules : versionedMap ResourceModule)
               (pkg : string) (resourcePackage : ResourcePackage) (ref : ResourceReference),
          RegisterResourcePackage resourcePackages pkg resourcePackage
          = Ok resourcePackages' ->
          isProviderReference ref = true ->
          Type_Name (URN_Type (ref_URN ref)) = pkg ->
          referenceVersion ref = Some (Version resourcePackage) ->
          unmarshalResourceReference resourcePackages' resourceModules ref
          = ConstructProvider resourcePackage (URN_Name (ref_URN ref))
              (URN_Type (ref_URN ref)) (ref_URN ref)).
Proof.
  intros runtime. split.
  - intros rp rm rm' pkg mod_ module ref Hreg Hprov Hkey Hver.
    assert (HS : Store rm (moduleKey pkg mod_) module = Ok rm').
    { unfold RegisterResourceModule in Hreg.
      by destruct (Store rm (moduleKey pkg mod_) module). }
    unfold unmarshalResourceReference.
    unfold referenceVersion in Hver. rewrite Hver.
    unfold isProviderReference in Hprov. cbn zeta. rewrite Hprov, Hkey.
    by rewrite (Load_stored _ _ _ _ HS).
  - intros rp rp' rm pkg p ref Hreg Hprov Hname Hver.
    assert (HS : Store rp pkg p = Ok rp').
    { unfold RegisterResourcePackage in Hreg. by destruct (Store rp pkg p). }
    unfold unmarshalResourceReference.
    unfold referenceVersion in Hver. rewrite Hver.
    unfold isProviderReference in Hprov. cbn zeta. rewrite Hprov, Hname.
    by rewrite (Load_stored _ _ _ _ HS).
Qed.

Lemma registered_constructor_resolves_witness :
  unmarshalResourceReference (runtime := exampleRuntime) noPackages
    (mkVersionedMap {[ "aws:s3" := [s3Module] ]}) versionedBucketReference
  = Ok (mkResource 9 Custom (Settled "aws:s3:Bucket::b" true false)
          (Settled "b" true false) []).
Proof.
  apply (proj1 (registered_constructor_resolves exampleRuntime) noPackages noModules
           (mkVersionedMap {[ "aws:s3" := [s3Module] ]}) "aws" "s3" s3Module
           versionedBucketReference).
  - unfold RegisterResourceModule, Store, noModules. cbn [versions].
    rewrite lookup_empty. cbn. by rewrite insert_empty.
  - reflexivity.
  - reflexivity.
  - reflexivity.
Defined.

(** ** The walk of the aggregator *)

Section Walk.
Variable from : option Resource.

Lemma addOwn_frame res (deps : gmap URN Resource) :
  ('(u, _, _) ← awaitURN res; mret (<[u := res]> deps) : Outcome (gmap URN Resource))
  = (m ← ('(u, _, _) ← awaitURN res; mret (<[u := res]> ∅)
          : Outcome (gmap URN Resource));
     mret (m ∪ deps)).
Proof.
  destruct (awaitURN res) as [[[u k] s] | | |]; cbn; [| done ..].
  by rewrite insert_empty, insert_union_singleton_l.
Qed.

Lemma addChildren_frame children :
  Forall (fun c => forall deps,
            addDependency deps c from
            = (m ← addDependency ∅ c from; mret (m ∪ deps))) children ->
  forall deps,
    addChildren from children deps
    = (m ← addChildren from children ∅; mret (m ∪ deps)).
Proof.
  induction 1 as [|c cs Hc _ IH]; intros deps; cbn [addChildren].
  - cbn. by rewrite (left_id_L ∅ (∪)).
  - rewrite (Hc deps).
    destruct (addDependency ∅ c from) as [m | | |]; cbn; [| done ..].
    rewrite (IH (m ∪ deps)), (IH m).
    destruct (addChildren from cs ∅) as [n | | |]; cbn; [| done ..].
    by rewrite (assoc_L (∪)).
Qed.

Lemma addDependency_frame_at res : forall deps,
  addDependency deps res from = (m ← addDependency ∅ res from; mret (m ∪ deps)).
Proof.
  induction res as [addr kind urn id children IH] using Resource_tree_ind.
  intros deps.
  pose proof (addChildren_frame children IH) as Hchildren.
  cbn [addDependency]. fold (addChildren from). cbn [res_children].
  set (res := mkResource addr kind urn id children).
  destruct (negb (isCustomResource res)); [| apply addOwn_frame].
  destruct (sameResource res from).
  { cbn. by rewrite (left_id_L ∅ (∪)). }
  rewrite (Hchildren deps).
  destruct (addChildren from children ∅) as [m | | |]; cbn; [| done ..].
  destruct (negb (keepDependency res)); [done |].
  rewrite (addOwn_frame res (m ∪ deps)), (addOwn_frame res m).
  destruct (awaitURN res) as [[[u k] s] | | |]; cbn; [| done ..].
  by rewrite (assoc_L (∪)).
Qed.

Lemma addOwn_added res (deps deps' : gmap URN Resource) :
  isCustomResource res || keepDependency res = true ->
  ('(u, _, _) ← awaitURN res; mret (<[u := res]> deps) : Outcome (gmap URN Resource))
  = Ok deps' ->
  forall urn r, deps' !! urn = Some r -> deps !! urn = Some r \/ addedBy from res urn r.
Proof.
  intros Hkeep. unfold awaitURN.
  destruct (res_urn res) as [u k s | |] eqn:Hurn; cbn; [| done ..].
  intros [= <-] urn r. destruct (decide (u = urn)) as [<- | Hne].
  - rewrite lookup_insert_eq. intros [= <-]. right.
    split; [constructor |]. split; [by exists k, s | done].
  - rewrite lookup_insert_ne by done. by left.
Qed.

Lemma addChildren_added res children :
  isCustomResource res = false -> sameResource res from = false ->
  (forall c, In c children -> In c (res_children res)) ->
  Forall (fun c => forall deps deps',
            addDependency deps c from = Ok deps' ->
            forall urn r, deps' !! urn = Some r ->
              deps !! urn = Some r \/ addedBy from c urn r) children ->
  forall deps deps',
    addChildren from children deps = Ok deps' ->
    forall urn r, deps' !! urn = Some r -> deps !! urn = Some r \/ addedBy from res urn r.
Proof.
  intros Hcustom Hsame Hsub Hall. induction Hall as [|c cs Hc _ IH]; intros deps deps'.
  - cbn. intros [= <-] urn r ?. by left.
  - cbn [addChildren].
    destruct (addDependency deps c from) as [d1 | | |] eqn:Hd1; cbn; [| done ..].
    intros Hrest urn r Hr.
    destruct (IH (fun c' Hc' => Hsub c' (or_intror Hc')) d1 deps' Hrest urn r Hr)
      as [Hr1 | ?]; [| by right].
    destruct (Hc deps d1 Hd1 urn r Hr1) as [? | (Hv & Hs & Hk)]; [by left | right].
    split; [| done]. eapply visited_child; [done | done | | exact Hv].
    apply Hsub. by left.
Qed.

Lemma addDependency_added res : forall deps deps',
  addDependency deps res from = Ok deps' ->
  forall urn r, deps' !! urn = Some r -> deps !! urn = Some r \/ addedBy from res urn r.
Proof.
  induction res as [addr kind urn0 id children IH] using Resource_tree_ind.
  intros deps deps'.
  cbn [addDependency]. fold (addChildren from). cbn [res_children].
  set (res := mkResource addr kind urn0 id children).
  destruct (isCustomResource res) eqn:Hcustom; cbn [negb].
  { apply addOwn_added. by rewrite Hcustom. }
  destruct (sameResource res from) eqn:Hsame.
  { cbn. intros [= <-] urn r ?. by left. }
  pose proof (addChildren_added res children Hcustom Hsame (fun c Hc => Hc) IH) as Hchildren.
  destruct (addChildren from children deps) as [d1 | | |] eqn:Hd1; cbn; [| done ..].
  destruct (keepDependency res) eqn:Hkeep; cbn [negb].
  - intros Hown urn r Hr.
    destruct (addOwn_added res d1 deps' ltac:(by rewrite Hkeep, orb_true_r) Hown urn r Hr)
      as [Hr1 | ?]; [| by right].
    by eapply Hchildren.
  - cbn. intros [= <-]. by eapply Hchildren.
Qed.

Lemma addOwn_outcome res (deps : gmap URN Resource) :
  walkOutcome from res (urnSettles res)
    ('(u, _, _) ← awaitURN res; mret (<[u := res]> deps) : Outcome (gmap URN Resource)).
Proof.
  unfold awaitURN, urnSettles.
  destruct (res_urn res) as [u k s | e |] eqn:Hurn; cbn; [done | |].
  - split; [done |]. exists res. split; [constructor | done].
  - split; [done |]. exists res. split; [constructor | done].
Qed.

Lemma walkOutcome_child {A : Type} res child settle (out : Outcome A) :
  isCustomResource res = false -> sameResource res from = false ->
  In child (res_children res) ->
  walkOutcome from child settle out ->
  match out with Ok _ => True | _ => walkOutcome from res false out end.
Proof.
  intros Hcustom Hsame Hin. destruct out as [a | e | msg |]; cbn; [done | | done |].
  - intros [_ (r & Hv & Hr)]. split; [done |]. exists r. split; [| done].
    by eapply visited_child.
  - intros [_ (r & Hv & Hr)]. split; [done |]. exists r. split; [| done].
    by eapply visited_child.
Qed.

Lemma addChildren_outcome res children :
  isCustomResource res = false -> sameResource res from = false ->
  (forall c, In c children -> In c (res_children res)) ->
  Forall (fun c => forall deps,
            walkOutcome from c (awaitedSettle from c) (addDependency deps c from))
         children ->
  forall deps,
    walkOutcome from res (forallb (awaitedSettle from) children)
      (addChildren from children deps).
Proof.
  intros Hcustom Hsame Hsub Hall. induction Hall as [|c cs Hc _ IH]; intros deps; [done |].
  cbn [addChildren forallb]. specialize (Hc deps).
  assert (Hin : In c (res_children res)) by (apply Hsub; by left).
  pose proof (walkOutcome_child res c _ _ Hcustom Hsame Hin Hc) as Hup.
  destruct (addDependency deps c from) as [d1 | e | msg |]; cbn in Hc |- *.
  - rewrite Hc. cbn [andb]. apply IH. intros c' Hc'. apply Hsub. by right.
  - destruct Hc as [-> _]. exact Hup.
  - done.
  - destruct Hc as [-> _]. exact Hup.
Qed.

Lemma addDependency_outcome res : forall deps,
  walkOutcome from res (awaitedSettle from res) (addDependency deps res from).
Proof.
  induction res as [addr kind urn0 id children IH] using Resource_tree_ind.
  intros deps.
  cbn [addDependency awaitedSettle]. fold (addChildren from). cbn [res_children].
  set (res := mkResource addr kind urn0 id children).
  destruct (isCustomResource res) eqn:Hcustom; cbn [negb]; [apply addOwn_outcome |].
  destruct (sameResource res from) eqn:Hsame; [done |].
  pose proof (addChildren_outcome res children Hcustom Hsame (fun c Hc => Hc) IH deps)
    as Hchildren.
  destruct (addChildren from children deps) as [d1 | e | msg |]; cbn in Hchildren |- *.
  - rewrite Hchildren. cbn [andb].
    destruct (keepDependency res); cbn [negb]; [apply addOwn_outcome | done].
  - destruct Hchildren as [-> ?]. by split.
  - done.
  - destruct Hchildren as [-> ?]. by split.
Qed.

End Walk.

Lemma expandDependencies_loop_frame roots : forall set,
  expandDependencies_loop roots set
  = (m ← expandDependencies_loop roots ∅; mret (m ∪ set)).
Proof.
  induction roots as [|r roots IH]; intros set; cbn [expandDependencies_loop].
  - cbn. by rewrite (left_id_L ∅ (∪)).
  - rewrite (addDependency_frame_at None r set).
    destruct (addDependency ∅ r None) as [m | | |]; cbn; [| done ..].
    rewrite (IH (m ∪ set)), (IH m).
    destruct (expandDependencies_loop roots ∅) as [n | | |]; cbn; [| done ..].
    by rewrite (assoc_L (∪)).
Qed.

Lemma expandDependencies_loop_app l1 l2 set :
  expandDependencies_loop (l1 ++ l2) set
  = (set1 ← expandDependencies_loop l1 set; expandDependencies_loop l2 set1).
Proof.
  revert set. induction l1 as [|r l1 IH]; intros set; cbn [app expandDependencies_loop].
  - done.
  - destruct (addDependency set r None) as [m | | |]; cbn; [| done ..]. apply IH.
Qed.

(** X7.  The aggregator only adds to the set it is given: the result of
    [addDependency] on a set is its result on the empty set laid over that
    set, with the same error, panic or blocking otherwise, so that what it
    adds does not depend on what the set held; and no key of the set is
    lost. *)
Theorem addDependency_frame :
  forall (from : option Resource) (res : Resource) (deps : gmap URN Resource),
    addDependency deps res from
    = (added ← addDependency ∅ res from; mret (added ∪ deps))
    /\ forall deps', addDependency deps res from = Ok deps' -> dom deps ⊆ dom deps'.
Proof.
  intros from res deps.
  pose proof (addDependency_frame_at from res deps) as Hframe.
  split; [exact Hframe |]. intros deps'. rewrite Hframe.
  destruct (addDependency ∅ res from) as [added | | |]; cbn; [| done ..].
  intros [= <-]. rewrite dom_union. apply union_subseteq_r.
Qed.

(** X8.  [expandDependencies] of a concatenation is the union of the
    expansions of the parts, the entries of the later part winning on a
    shared URN, and it fails as the first failing part does; so expanding a
    list of roots followed by itself gives the expansion of the list. *)
Theorem expandDependencies_app :
  forall l1 l2 : list Resource,
    expandDependencies (l1 ++ l2)
    = (set1 ← expandDependencies l1; set2 ← expandDependencies l2; mret (set2 ∪ set1))
    /\ expandDependencies (l1 ++ l1) = expandDependencies l1.
Proof.
  assert (Happ : forall l1 l2,
    expandDependencies (l1 ++ l2)
    = (set1 ← expandDependencies l1; set2 ← expandDependencies l2; mret (set2 ∪ set1))).
  { intros l1 l2. unfold expandDependencies. rewrite expandDependencies_loop_app.
    destruct (expandDependencies_loop l1 ∅) as [m | | |]; cbn; [| done ..].
    apply expandDependencies_loop_frame. }
  intros l1 l2. split; [apply Happ |]. rewrite Happ.
  destruct (expandDependencies l1) as [m | | |]; cbn; [| done ..].
  by rewrite (idemp_L (∪)).
Qed.

(** X9.  Every entry of the set that [expandDependencies] returns is keyed
    by the URN that its resource resolved to, the resource was visited from
    one of the roots, and it is a custom resource or one that keeps its
    dependency: a local component is never an entry. *)
Theorem expandDependencies_entries :
  forall (roots : list Resource) (set : gmap URN Resource),
    expandDependencies roots = Ok set ->
    forall urn r, set !! urn = Some r ->
      (exists root, In root roots /\ visited None root r)
      /\ (exists known secret, res_urn r = Settled urn known secret)
      /\ isCustomResource r || keepDependency r = true
      /\ res_kind r <> LocalComponent.
Proof.
  intros roots set Hset urn r Hr.
  assert (Hentry : exists root, In root roots /\ addedBy None root urn r).
  { revert Hset Hr. unfold expandDependencies.
    assert (Hgen : forall roots set0 set,
      expandDependencies_loop roots set0 = Ok set ->
      set !! urn = Some r ->
      set0 !! urn = Some r \/ exists root, In root roots /\ addedBy None root urn r).
    { clear. induction roots as [|root roots IH]; intros set0 set.
      - cbn. intros [= <-] ?. by left.
      - cbn [expandDependencies_loop].
        destruct (addDependency set0 root None) as [s1 | | |] eqn:Hs1; cbn; [| done ..].
        intros Hrest Hr. destruct (IH s1 set Hrest Hr) as [Hr1 | (root' & Hin & Ha)].
        + destruct (addDependency_added None root set0 s1 Hs1 urn r Hr1) as [? | Ha];
            [by left | right]. exists root. split; [by left | done].
        + right. exists root'. split; [by right | done]. }
    intros Hset Hr. destruct (Hgen roots ∅ set Hset Hr) as [He | ?]; [| done].
    by rewrite lookup_empty in He. }
  destruct Hentry as (root & Hin & Hv & Hs & Hk).
  split; [by exists root |]. split; [done |]. split; [done |].
  intros Hlocal. unfold isCustomResource, keepDependency in Hk. rewrite Hlocal in Hk.
  done.
Qed.

Lemma expandDependencies_entries_witness :
  expandDependencies [resC]
  = Ok {[ "urn:A" := resA; "urn:B" := resB; "urn:E" := resE ]}
  /\ (exists root, In root [resC] /\ visited None root resB)
  /\ (exists known secret, res_urn resB = Settled "urn:B" known secret)
  /\ isCustomResource resB || keepDependency resB = true
  /\ res_kind resB <> LocalComponent.
Proof.
  assert (Hset : expandDependencies [resC]
                 = Ok {[ "urn:A" := resA; "urn:B" := resB; "urn:E" := resE ]}).
  { vm_compute. reflexivity. }
  split; [exact Hset |].
  apply (expandDependencies_entries [resC] _ Hset "urn:B" resB).
  by vm_compute.
Defined.

(** X10.  [expandDependencies] never panics.  It returns a set exactly
    when every URN that the walk awaits settles; an error it returns is the
    error that the URN of a visited resource was rejected with, and it
    blocks only on the URN of a visited resource that never settles.  IDs
    are not awaited. *)
Theorem expandDependencies_outcome :
  forall roots : list Resource,
    ((exists set, expandDependencies roots = Ok set) <->
     forallb (awaitedSettle None) roots = true)
    /\ (forall e, expandDependencies roots = Err e ->
          exists root r, In root roots /\ visited None root r /\ res_urn r = Failed e)
    /\ (expandDependencies roots = Blocked ->
          exists root r, In root roots /\ visited None root r /\ res_urn r = NeverSettles)
    /\ (forall msg, expandDependencies roots <> Panic msg).
Proof.
  intros roots. unfold expandDependencies. generalize (∅ : gmap URN Resource).
  induction roots as [|root roots IH]; intros set0.
  - cbn. split; [split; [done | by eexists] |]. by repeat split.
  - cbn [expandDependencies_loop forallb].
    pose proof (addDependency_outcome None root set0) as Hroot.
    destruct (addDependency set0 root None) as [s1 | e | msg |]; cbn in Hroot |- *.
    + rewrite Hroot. cbn [andb]. destruct (IH s1) as (Hok & Herr & Hblk & Hpanic).
      split; [done |]. split; [| split; [| done]].
      * intros e He. destruct (Herr e He) as (root' & r & Hin & Hv & Hr).
        exists root', r. split; [by right | done].
      * intros Hb. destruct (Hblk Hb) as (root' & r & Hin & Hv & Hr).
        exists root', r. split; [by right | done].
    + destruct Hroot as [-> (r & Hv & Hr)]. cbn [andb].
      split; [split; [by intros [? ?] | done] |]. split; [| done].
      intros e' [= <-]. exists root, r. split; [by left | done].
    + done.
    + destruct Hroot as [-> (r & Hv & Hr)]. cbn [andb].
      split; [split; [by intros [? ?] | done] |]. split; [done |]. split; [| done].
      intros _. exists root, r. split; [by left | done].
Qed.

(** ** Slices and maps *)

Section ContainerFacts.
Context {reflection : Reflection}.
Variable opts : option marshalOptions.

Lemma marshalElems_Ok destElem elems : forall arr deps pv deps',
  marshalElems opts destElem elems arr deps = Ok (pv, deps') <->
  exists results,
    Forall2 (fun v r => marshalInputOptions v destElem opts = Ok r) elems results
    /\ pv = PVArray (arr ++ results.*1) /\ deps' = deps ++ concat (results.*2).
Proof.
  induction elems as [|x xs IH]; intros arr deps pv deps'.
  - cbn. split.
    + intros [= <- <-]. exists []. split; [constructor |]. cbn. by rewrite !app_nil_r.
    + intros (results & HF & -> & ->). inversion HF; subst. cbn. by rewrite !app_nil_r.
  - cbn [marshalElems].
    change (marshalLoop opts x destElem false []) with (marshalInputOptions x destElem opts).
    destruct (marshalInputOptions x destElem opts) as [[e d] | | |] eqn:Hx; cbn.
    + rewrite IH. split.
      * intros (results & HF & -> & ->). exists ((e, d) :: results).
        split; [by constructor |]. cbn. by rewrite <- !app_assoc.
      * intros (results & HF & -> & ->).
        inversion HF as [| ? r ? results' Hr HF']; subst.
        rewrite Hx in Hr. injection Hr as <-. exists results'. split; [done |]. cbn.
        by rewrite <- !app_assoc.
    + split; [done |]. intros (results & HF & _). inversion HF; subst. congruence.
    + split; [done |]. intros (results & HF & _). inversion HF; subst. congruence.
    + split; [done |]. intros (results & HF & _). inversion HF; subst. congruence.
Qed.

Lemma marshalMapEntries_Ok destElem entries : forall obj deps results,
  Forall2 (fun kv r => marshalInputOptions kv.2 destElem opts = Ok r) entries results ->
  marshalMapEntries opts destElem entries obj deps
  = Ok (PVObject (fold_left putField (zip (entries.*1) (results.*1)) obj),
        deps ++ concat (results.*2)).
Proof.
  induction entries as [|[k x] xs IH]; intros obj deps results HF.
  - inversion HF; subst. cbn. by rewrite app_nil_r.
  - inversion HF as [| ? [e d] ? results' Hr HF']; subst. cbn [marshalMapEntries].
    change (marshalLoop opts x destElem false []) with (marshalInputOptions x destElem opts).
    cbn [snd] in Hr. rewrite Hr. cbn. rewrite (IH _ _ results' HF').
    by rewrite <- app_assoc.
Qed.

Lemma marshalLoop_slice name elem elems destType deps :
  marshalLoop opts (VPlain (DSlice name elem (Some elems))) destType false deps
  = match Elem (settledDest (TSlice name elem) destType) with
    | None => Panic "reflect: Elem of invalid type"
    | Some destElem => marshalElems opts destElem elems [] deps
    end.
Proof.
  rewrite marshalLoop_plain. cbn [marshalData typeOfData kindOf].
  rewrite (bool_decide_eq_false_2 (KSlice = KInterface)) by done. rewrite andb_false_r.
  reflexivity.
Qed.

Lemma marshalLoop_map name key elem entries destType deps :
  marshalLoop opts (VPlain (DMap name key elem entries)) destType false deps
  = if bool_decide (kindOf key ≠ KString) then Err (ErrMapKeys key)
    else match entries with
         | None => Ok (PVNull, deps)
         | Some entries =>
             match Elem (settledDest (TMap name key elem) destType) with
             | None => Panic "reflect: Elem of invalid type"
             | Some destElem => marshalMapEntries opts destElem entries ∅ deps
             end
         end.
Proof.
  rewrite marshalLoop_plain. cbn [marshalData typeOfData kindOf].
  rewrite (bool_decide_eq_false_2 (KMap = KInterface)) by done. rewrite andb_false_r.
  reflexivity.
Qed.

Lemma marshalLoop_map_Ok name key elem entries destType destElem results :
  kindOf key = KString ->
  Elem (settledDest (TMap name key elem) destType) = Some destElem ->
  NoDup (entries.*1) ->
  Forall2 (fun kv r => marshalInputOptions kv.2 destElem opts = Ok r) entries results ->
  exists obj,
    marshalInputOptions (VPlain (DMap name key elem (Some entries))) destType opts
    = Ok (PVObject obj, concat (results.*2))
    /\ forall k pv,
         obj !! k = Some pv <->
         IsNull pv = false
         /\ exists v deps, In (k, v) entries
              /\ marshalInputOptions v destElem opts = Ok (pv, deps).
Proof.
  intros Hkey HElem Hnd HF.
  exists (fold_left putField (zip (entries.*1) (results.*1)) ∅). split.
  - unfold marshalInputOptions at 1, marshalInputOptionsImpl.
    rewrite marshalLoop_map, HElem.
    rewrite bool_decide_eq_false_2 by (by intros ?).
    by rewrite (marshalMapEntries_Ok destElem entries ∅ [] results HF).
  - intros k pv.
    assert (Hlen : length (entries.*1) = length (results.*1)).
    { rewrite !length_fmap. by eapply Forall2_length. }
    rewrite putField_lookup; [| by rewrite fst_zip by lia | by rewrite dom_empty_L].
    assert (Hzip : In (k, pv) (zip (entries.*1) (results.*1)) <->
                   exists v deps, In (k, v) entries
                     /\ marshalInputOptions v destElem opts = Ok (pv, deps)).
    { clear -HF. induction HF as [| [k' v'] [e d] entries results Hr _ IH]; cbn.
      - split; [done | by intros (? & ? & [] & _)].
      - cbn [snd] in Hr. rewrite IH. split.
        + intros [[= <- <-] | (v & deps & Hin & Hv)].
          * exists v', d. split; [by left | done].
          * exists v, deps. split; [by right | done].
        + intros (v & deps & [[= <- <-] | Hin] & Hv).
          * left. rewrite Hr in Hv. by injection Hv as <- <-.
          * right. by exists v, deps. }
    rewrite Hzip. tauto.
Qed.

End ContainerFacts.




(** ** The options and the marshaled value *)

Lemma sameValue_cases (r1 r2 : Outcome (PropertyValue * list Resource)) :
  valueOf r1 = valueOf r2 ->
  (exists pv d1 d2, r1 = Ok (pv, d1) /\ r2 = Ok (pv, d2))
  \/ (exists e, r1 = Err e /\ r2 = Err e)
  \/ (exists msg, r1 = Panic msg /\ r2 = Panic msg)
  \/ (r1 = Blocked /\ r2 = Blocked).
Proof.
  unfold valueOf.
  destruct r1 as [[pv1 d1] | e1 | m1 |], r2 as [[pv2 d2] | e2 | m2 |]; cbn; try done.
  - intros [= <-]. left. by exists pv1, d1, d2.
  - intros [= <-]. right. left. by exists e1.
  - intros [= <-]. right. right. left. by exists m1.
  - intros _. by repeat right.
Qed.

Ltac same_cases H :=
  let pv := fresh "pv" in
  let d1 := fresh "d" in
  let d2 := fresh "d" in
  let e := fresh "e" in
  let msg := fresh "msg" in
  destruct (sameValue_cases _ _ H)
    as [(pv & d1 & d2 & -> & ->) | [(e & -> & ->) | [(msg & -> & ->) | [-> ->]]]].

Lemma marshalData_archive `{Reflection} opts invalid assets path uri valueType destType deps :
  marshalData opts (DArchive invalid assets path uri) valueType destType deps
  = if invalid then Err ErrInvalidArchive
    else
      assets ← match assets with
               | None => mret None
               | Some entries => m ← marshalAssets opts entries ∅; mret (Some m)
               end;
      mret (PVArchive assets path uri, deps).
Proof. done. Qed.

Section Independence.
Context {reflection : Reflection}.
Variables opts1 opts2 : option marshalOptions.
Hypothesis Hsame : errorOnOutput opts1 = errorOnOutput opts2.

#[local] Abbreviation sameValue := (sameValueUnder opts1 opts2).
#[local] Abbreviation sameData := (sameDataUnder opts1 opts2).

Lemma awaitOutput_same outputType output destType :
  onResolved sameValue output ->
  valueOf (awaitOutput opts1 outputType output destType)
  = valueOf (awaitOutput opts2 outputType output destType).
Proof.
  unfold awaitOutput. rewrite Hsame. destruct (errorOnOutput opts2); [done |].
  destruct output as [ov known secret outputDeps | err |]; [| done ..].
  cbn [onResolved]. intros IH. destruct known; [| done].
  pose proof (IH destType true [] []) as Hov. same_cases Hov; done.
Qed.

Lemma marshalElems_same destElem elems :
  Forall sameValue elems ->
  forall arr deps1 deps2,
    valueOf (marshalElems opts1 destElem elems arr deps1)
    = valueOf (marshalElems opts2 destElem elems arr deps2).
Proof.
  induction 1 as [|x xs Hx _ IH]; intros arr deps1 deps2; [done |].
  cbn [marshalElems]. pose proof (Hx destElem false [] []) as Hhead.
  same_cases Hhead; cbn; [apply IH | done ..].
Qed.

Lemma marshalMapEntries_same destElem entries :
  Forall (fun kv => sameValue kv.2) entries ->
  forall obj deps1 deps2,
    valueOf (marshalMapEntries opts1 destElem entries obj deps1)
    = valueOf (marshalMapEntries opts2 destElem entries obj deps2).
Proof.
  induction 1 as [|[k x] xs Hx _ IH]; intros obj deps1 deps2; [done |].
  cbn [marshalMapEntries]. pose proof (Hx destElem false [] []) as Hhead.
  cbn [snd] in Hhead. same_cases Hhead; cbn; [apply IH | done ..].
Qed.

Lemma marshalStructFields_same getMappedField fields :
  Forall (fun fv => sameValue fv.2) fields ->
  forall i obj deps1 deps2,
    valueOf (marshalStructFields opts1 getMappedField i fields obj deps1)
    = valueOf (marshalStructFields opts2 getMappedField i fields obj deps2).
Proof.
  induction 1 as [|[f x] xs Hx _ IH]; intros i obj deps1 deps2; [done |].
  cbn [marshalStructFields]. destruct (getMappedField i) as [destField|]; [| done].
  cbn zeta. case_bool_decide; [apply IH |].
  destruct (negb (IsExported (fieldName f))); [done |].
  pose proof (Hx (fieldType destField) false [] []) as Hhead.
  cbn [snd] in Hhead. same_cases Hhead; cbn; [apply IH | done ..].
Qed.

Lemma marshalAssets_same entries :
  Forall (fun kv => sameValue kv.2) entries ->
  forall assets, marshalAssets opts1 entries assets = marshalAssets opts2 entries assets.
Proof.
  induction 1 as [|[k x] xs Hx _ IH]; intros assets; [done |].
  cbn [marshalAssets]. pose proof (Hx anyType false [] []) as Hhead.
  cbn [snd] in Hhead. same_cases Hhead; cbn; [apply IH | done ..].
Qed.

Lemma marshal_same_value : forall v, sameValue v.
Proof.
  apply (Value_tree_ind sameValue sameData); unfold sameValueUnder, sameDataUnder.
  - done.
  - intros d IH destType skip deps1 deps2. rewrite !marshalLoop_plain. apply IH.
  - intros elementType toOutput asOutput d Hconv Hout IH destType skip deps1 deps2.
    destruct skip; [cbn [marshalLoop]; apply IH |].
    destruct (isNilPtr d) eqn:Hnil; [cbn [marshalLoop]; by rewrite Hnil |].
    rewrite !marshalLoop_input by done.
    destruct (inputCheck elementType toOutput destType)
      as [destType' newType newOutput | destType' | destType'] eqn:Hcheck.
    + apply awaitOutput_same.
      assert (toOutput destType' = Some (newType, newOutput)) as Hto.
      { unfold inputCheck in Hcheck.
        destruct (bool_decide (elementType ≠ adjustDest elementType destType)
                  && bool_decide (adjustDest elementType destType ≠ anyType)); [| done].
        destruct (toOutput (adjustDest elementType destType)) as [[ty st]|] eqn:Hto.
        - by injection Hcheck as <- <- <-.
        - by destruct (negb (AssignableTo _ _)). }
      exact (Hconv _ _ _ Hto).
    + destruct asOutput as [output|]; [| apply IH].
      apply awaitOutput_same. exact (Hout _ eq_refl).
    + done.
  - intros name b vt dt deps1 deps2. cbn [marshalData]. by destruct (Assertf _ _).
  - intros name b vt dt deps1 deps2. cbn [marshalData]. by destruct (Assertf _ _).
  - intros name b vt dt deps1 deps2. cbn [marshalData]. by destruct (Assertf _ _).
  - intros name b vt dt deps1 deps2. cbn [marshalData]. by destruct (Assertf _ _).
  - intros name b vt dt deps1 deps2. cbn [marshalData]. by destruct (Assertf _ _).
  - intros name vt dt deps1 deps2. cbn [marshalData]. by destruct (Assertf _ _).
  - intros elem p IH vt dt deps1 deps2. destruct p as [p|]; [| done]. cbn [marshalData].
    destruct (Assertf _ _); cbn; [| done ..]. apply (IH p eq_refl).
  - intros name elem elems IH vt dt deps1 deps2. destruct elems as [elems|]; [| done].
    cbn [marshalData]. cbn [mbind Outcome_bind mret Outcome_ret].
    destruct (Elem _) as [destElem|]; [| done].
    fold (marshalElems opts1 destElem) (marshalElems opts2 destElem).
    apply marshalElems_same. by apply IH.
  - done.
  - intros name key elem entries IH vt dt deps1 deps2. cbn [marshalData].
    cbn [mbind Outcome_bind mret Outcome_ret].
    case_bool_decide; [done |]. destruct entries as [entries|]; [| done].
    destruct (Elem _) as [destElem|]; [| done].
    fold (marshalMapEntries opts1 destElem) (marshalMapEntries opts2 destElem).
    apply marshalMapEntries_same. by apply IH.
  - intros name fields IH vt dt deps1 deps2. cbn [marshalData].
    destruct (Assertf _ _); cbn [mbind Outcome_bind]; [| done ..].
    destruct (MapStructTypes _ _) as [g|]; [| done].
    fold (marshalStructFields opts1 g) (marshalStructFields opts2 g).
    apply marshalStructFields_same. exact IH.
  - intros a vt dt deps1 deps2. cbn [marshalData]. by destruct (asset_invalid a).
  - intros invalid assets path uri IH vt dt deps1 deps2. rewrite !marshalData_archive.
    destruct invalid; [done |]. destruct assets as [assets|]; [| done].
    rewrite (marshalAssets_same assets (IH _ eq_refl) ∅).
    by destruct (marshalAssets opts2 assets ∅).
  - intros name r fields _ vt dt deps1 deps2. rewrite !marshalData_resource.
    destruct (awaitURN r) as [[[urn known] secretURN] | | |]; cbn; [| done ..].
    destruct (Assertf known _); cbn; [| done ..].
    destruct (Assertf (negb secretURN) _); cbn; [| done ..].
    destruct (isCustomResource r); [| done].
    destruct (awaitID r) as [[[id knownID] secretID] | | |]; cbn; [| done ..].
    by destruct (Assertf (negb secretID) _).
Qed.

End Independence.

(** X13.  The property value that marshaling yields, or the error, panic
    or blocking it ends in, depends on the options only through
    [ErrorOnOutput]: [ExcludeResourceRefsFromDeps] changes the dependency
    list that is returned and nothing else. *)
Theorem marshal_value_independent_of_dependency_option :
  forall (R : Reflection) (opts1 opts2 : option marshalOptions) (v : Value)
         (destType : GoType),
    errorOnOutput opts1 = errorOnOutput opts2 ->
    valueOf (marshalInputOptions v destType opts1)
    = valueOf (marshalInputOptions v destType opts2).
Proof.
  intros R opts1 opts2 v destType Hsame.
  apply (marshal_same_value opts1 opts2 Hsame v destType false [] []).
Qed.

Lemma marshal_value_independent_of_dependency_option_witness :
  marshalInputOptions (reflection := exampleReflection)
    (VPlain (DResource "Bucket" resA [])) anyType withoutResourceRefs
  = Ok (MakeCustomResourceReference "urn:A" "id" "", [])
  /\ marshalInputOptions (reflection := exampleReflection)
       (VPlain (DResource "Bucket" resA [])) anyType None
     = Ok (MakeCustomResourceReference "urn:A" "id" "", [resA])
  /\ valueOf (marshalInputOptions (reflection := exampleReflection)
                (VPlain (DResource "Bucket" resA [])) anyType withoutResourceRefs)
     = valueOf (marshalInputOptions (reflection := exampleReflection)
                  (VPlain (DResource "Bucket" resA [])) anyType None).
Proof.
  split; [reflexivity |]. split; [reflexivity |].
  apply (marshal_value_independent_of_dependency_option exampleReflection
           withoutResourceRefs None). reflexivity.
Defined.
(** ** The shape of marshaled values *)

Section Shape.
Context {reflection : Reflection}.
Variable opts : option marshalOptions.

#[local] Abbreviation shaped := (marshalsOutputValued opts).
#[local] Abbreviation shapedData := (dataMarshalsOutputValued opts).

Lemma wrapOutput_shape element known secret outputDeps pv deps :
  outputValued element ->
  wrapOutput element known secret outputDeps = Ok (pv, deps) -> outputValued pv.
Proof.
  intros He. unfold wrapOutput.
  destruct (known && negb secret && bool_decide (length outputDeps = 0%nat)).
  - by intros [= <- <-].
  - intros ([depSet] & _ & [= <- <-])%bind_Ok. by constructor.
Qed.

Lemma awaitOutput_shape outputType output destType pv deps :
  onResolved shaped output ->
  awaitOutput opts outputType output destType = Ok (pv, deps) -> outputValued pv.
Proof.
  unfold awaitOutput. destruct (errorOnOutput opts); [done |].
  destruct output as [ov known secret outputDeps | err |]; [| done ..].
  cbn [onResolved]. intros IH. destruct known.
  - intros ([element ds] & Hov & Hw)%bind_Ok.
    eapply wrapOutput_shape; [| exact Hw]. by eapply IH.
  - apply wrapOutput_shape. constructor.
Qed.

Lemma marshalElems_shape destElem elems :
  Forall shaped elems ->
  forall arr deps pv deps',
    Forall outputValued arr ->
    marshalElems opts destElem elems arr deps = Ok (pv, deps') -> outputValued pv.
Proof.
  induction 1 as [|x xs Hx _ IH]; intros arr deps pv deps' Harr.
  - cbn. intros [= <- <-]. by constructor.
  - cbn [marshalElems]. intros ([e d] & Hhead & Hrest)%bind_Ok.
    eapply IH; [| exact Hrest]. apply Forall_app. split; [done |].
    constructor; [| constructor]. by eapply Hx.
Qed.

Lemma putField_shape (obj : gmap string PropertyValue) key mv :
  (forall k e, obj !! k = Some e -> outputValued e) -> outputValued mv ->
  forall k e, (if negb (IsNull mv) then <[key := mv]> obj else obj) !! k = Some e ->
    outputValued e.
Proof.
  intros Hobj Hmv k e. destruct (negb (IsNull mv)); [| apply Hobj].
  destruct (decide (key = k)) as [<- | Hne].
  - rewrite lookup_insert_eq. by intros [= <-].
  - rewrite lookup_insert_ne by done. apply Hobj.
Qed.

Lemma marshalMapEntries_shape destElem entries :
  Forall (fun kv => shaped kv.2) entries ->
  forall obj deps pv deps',
    (forall k e, obj !! k = Some e -> outputValued e) ->
    marshalMapEntries opts destElem entries obj deps = Ok (pv, deps') -> outputValued pv.
Proof.
  induction 1 as [|[k x] xs Hx _ IH]; intros obj deps pv deps' Hobj.
  - cbn. intros [= <- <-]. by constructor.
  - cbn [marshalMapEntries]. intros ([mv d] & Hhead & Hrest)%bind_Ok.
    eapply IH; [| exact Hrest]. apply putField_shape; [done |]. by eapply Hx.
Qed.

Lemma marshalStructFields_shape getMappedField fields :
  Forall (fun fv => shaped fv.2) fields ->
  forall i obj deps pv deps',
    (forall k e, obj !! k = Some e -> outputValued e) ->
    marshalStructFields opts getMappedField i fields obj deps = Ok (pv, deps') ->
    outputValued pv.
Proof.
  induction 1 as [|[f x] xs Hx _ IH]; intros i obj deps pv deps' Hobj.
  - cbn. intros [= <- <-]. by constructor.
  - cbn [marshalStructFields]. destruct (getMappedField i) as [destField|]; [| done].
    cbn zeta. case_bool_decide; [by apply IH |].
    destruct (negb (IsExported (fieldName f))); [done |].
    intros ([fv d] & Hhead & Hrest)%bind_Ok.
    eapply IH; [| exact Hrest]. apply putField_shape; [done |]. by eapply Hx.
Qed.

Lemma marshalAssets_shape entries :
  Forall (fun kv => shaped kv.2) entries ->
  forall assets m,
    (forall k e, assets !! k = Some e -> outputValued e) ->
    marshalAssets opts entries assets = Ok m ->
    forall k e, m !! k = Some e -> outputValued e.
Proof.
  induction 1 as [|[k x] xs Hx _ IH]; intros assets m Hassets.
  - cbn. by intros [= <-].
  - cbn [marshalAssets]. intros ([aa d] & Hhead & Hrest)%bind_Ok.
    eapply IH; [| exact Hrest]. intros k' e.
    destruct (decide (k = k')) as [<- | Hne].
    + rewrite lookup_insert_eq. intros [= <-]. by eapply Hx.
    + rewrite lookup_insert_ne by done. apply Hassets.
Qed.

Lemma marshal_shape : forall v, shaped v.
Proof.
  apply (Value_tree_ind shaped shapedData);
    unfold marshalsOutputValued, dataMarshalsOutputValued.
  - intros destType skip deps pv deps'. cbn. intros [= <- <-]. constructor.
  - intros d IH destType skip deps pv deps'. rewrite marshalLoop_plain. apply IH.
  - intros elementType toOutput asOutput d Hconv Hout IH destType skip deps pv deps'.
    destruct skip; [cbn [marshalLoop]; apply IH |].
    destruct (isNilPtr d) eqn:Hnil.
    { cbn [marshalLoop]. rewrite Hnil. intros [= <- <-]. constructor. }
    rewrite marshalLoop_input by done.
    destruct (inputCheck elementType toOutput destType)
      as [destType' newType newOutput | destType' | destType'] eqn:Hcheck.
    + apply awaitOutput_shape.
      assert (toOutput destType' = Some (newType, newOutput)) as Hto.
      { unfold inputCheck in Hcheck.
        destruct (bool_decide (elementType ≠ adjustDest elementType destType)
                  && bool_decide (adjustDest elementType destType ≠ anyType)); [| done].
        destruct (toOutput (adjustDest elementType destType)) as [[ty st]|] eqn:Hto.
        - by injection Hcheck as <- <- <-.
        - by destruct (negb (AssignableTo _ _)). }
      exact (Hconv _ _ _ Hto).
    + destruct asOutput as [output|]; [| apply IH].
      apply awaitOutput_shape. exact (Hout _ eq_refl).
    + done.
  - intros name b vt dt deps pv deps'. cbn [marshalData].
    intros (? & _ & [= <- <-])%bind_Ok. constructor.
  - intros name b vt dt deps pv deps'. cbn [marshalData].
    intros (? & _ & [= <- <-])%bind_Ok. constructor.
  - intros name b vt dt deps pv deps'. cbn [marshalData].
    intros (? & _ & [= <- <-])%bind_Ok. constructor.
  - intros name b vt dt deps pv deps'. cbn [marshalData].
    intros (? & _ & [= <- <-])%bind_Ok. constructor.
  - intros name b vt dt deps pv deps'. cbn [marshalData].
    intros (? & _ & [= <- <-])%bind_Ok. constructor.
  - intros name vt dt deps pv deps'. cbn [marshalData]. by intros (? & _ & ?)%bind_Ok.
  - intros elem p IH vt dt deps pv deps'. destruct p as [p|].
    + cbn [marshalData]. intros (? & _ & Hp)%bind_Ok. by eapply (IH p eq_refl).
    + cbn [marshalData]. intros [= <- <-]. constructor.
  - intros name elem elems IH vt dt deps pv deps'. destruct elems as [elems|].
    + cbn [marshalData]. cbn [mbind Outcome_bind mret Outcome_ret].
      destruct (Elem _) as [destElem|]; [| done].
      fold (marshalElems opts destElem). apply marshalElems_shape; [by apply IH | constructor].
    + cbn [marshalData]. cbn. intros [= <- <-]. constructor.
  - done.
  - intros name key elem entries IH vt dt deps pv deps'. cbn [marshalData].
    cbn [mbind Outcome_bind mret Outcome_ret].
    case_bool_decide; [done |]. destruct entries as [entries|].
    + destruct (Elem _) as [destElem|]; [| done].
      fold (marshalMapEntries opts destElem).
      apply marshalMapEntries_shape; [by apply IH |]. intros k e. by rewrite lookup_empty.
    + intros [= <- <-]. constructor.
  - intros name fields IH vt dt deps pv deps'. cbn [marshalData].
    intros (? & _ & Hs)%bind_Ok. revert Hs.
    destruct (MapStructTypes _ _) as [g|]; [| done].
    fold (marshalStructFields opts g).
    apply marshalStructFields_shape; [exact IH |]. intros k e. by rewrite lookup_empty.
  - intros a vt dt deps pv deps'. cbn [marshalData].
    destruct (asset_invalid a); [done |]. intros [= <- <-]. constructor.
  - intros invalid assets path uri IH vt dt deps pv deps'. rewrite marshalData_archive.
    destruct invalid; [done |]. intros (assets' & Ha & [= <- <-])%bind_Ok.
    constructor. intros m k e -> Hk. destruct assets as [entries|].
    + apply bind_Ok in Ha as (m' & Hm' & [= <-]).
      eapply (marshalAssets_shape entries (IH _ eq_refl) ∅); [| exact Hm' | exact Hk].
      intros k' e'. by rewrite lookup_empty.
    + done.
  - intros name r fields _ vt dt deps pv deps'. rewrite marshalData_resource.
    intros ([[urn known] secretURN] & _ & He)%bind_Ok.
    apply bind_Ok in He as (? & _ & He). apply bind_Ok in He as (? & _ & He).
    destruct (isCustomResource r).
    + apply bind_Ok in He as ([[id knownID] secretID] & _ & He).
      apply bind_Ok in He as (? & _ & [= <- <-]). constructor.
    + injection He as <- <-. constructor.
Qed.

(** A property of the state that holds at the start and that
    [marshalProperty] keeps holds of what [marshalInputsOptions]
    returns. *)
Section Invariant.
Variable I : MarshalState -> Prop.
Hypothesis Hstart : I (mkMarshalState ∅ ∅ ∅).
Hypothesis Hstep : forall pname pv pt st st',
  I st -> marshalProperty opts pname pv pt st = Ok st' -> I st'.

Lemma marshalFields_invariant getMappedField fields : forall i st st',
  I st -> marshalFields opts getMappedField i fields st = Ok st' -> I st'.
Proof.
  induction fields as [|[f x] xs IH]; intros i st st' Hst.
  - cbn. by intros [= <-].
  - cbn [marshalFields]. destruct (getMappedField i) as [destField|]; [| done].
    cbn zeta. case_bool_decide; [by apply IH |].
    destruct (negb (IsExported (fieldName f))); [done |].
    intros (st1 & H1 & Hrest)%bind_Ok. eapply IH; [| exact Hrest]. by eapply Hstep.
Qed.

Lemma marshalEntries_invariant keyType elemType entries : forall st st',
  I st -> marshalEntries opts keyType elemType entries st = Ok st' -> I st'.
Proof.
  induction entries as [|[k x] xs IH]; intros st st' Hst.
  - cbn. by intros [= <-].
  - cbn [marshalEntries]. case_bool_decide; [done |].
    intros (st1 & H1 & Hrest)%bind_Ok. eapply IH; [| exact Hrest]. by eapply Hstep.
Qed.

Lemma marshalInputsOptions_invariant props pmap0 pdeps0 urns :
  marshalInputsOptions props opts = Ok (pmap0, pdeps0, urns) ->
  exists st, I st /\ pmap0 = pmap st /\ pdeps0 = pdeps st /\ urns = elements (deps st).
Proof.
  assert (Hnil : forall r,
    r = (Ok (∅, ∅, []) : Outcome (gmap string PropertyValue * gmap string (list URN)
                                  * list URN)) ->
    r = Ok (pmap0, pdeps0, urns) ->
    exists st, I st /\ pmap0 = pmap st /\ pdeps0 = pdeps st /\ urns = elements (deps st)).
  { intros r -> [= <- <- <-]. exists (mkMarshalState ∅ ∅ ∅).
    split; [done |]. cbn. by rewrite elements_empty. }
  unfold marshalInputsOptions.
  destruct props as [| d | elementType toOutput asOutput d]; [by apply Hnil | done |].
  destruct (topElem d) as [| pv | t]; [by apply Hnil | | done].
  destruct pv; try done.
  - intros (st & Hrun & [= <- <- <-])%bind_Ok. exists st. split; [| done].
    destruct (Key _) as [ktype|]; [| done]. destruct (Elem _) as [elemType|]; [| done].
    apply bind_Ok in Hrun as (? & _ & Hrun). by eapply marshalEntries_invariant.
  - intros (st & Hrun & [= <- <- <-])%bind_Ok. exists st. split; [| done].
    apply bind_Ok in Hrun as (? & _ & Hrun).
    destruct (MapStructTypes _ _) as [g|]; [| done]. by eapply marshalFields_invariant.
Qed.

End Invariant.

Lemma marshalProperty_Ok pname pv pt st st' :
  marshalProperty opts pname pv pt st = Ok st' ->
  exists v resourceDeps allDeps,
    marshalInputOptions pv pt opts = Ok (v, resourceDeps)
    /\ expandDependencies resourceDeps = Ok allDeps
    /\ deps st' = deps st ∪ dom allDeps
    /\ ((IsNull v = true /\ allDeps = ∅ /\ pmap st' = pmap st /\ pdeps st' = pdeps st)
        \/ (pmap st' = <[pname := v]> (pmap st)
            /\ pdeps st' = <[pname := mapKeys allDeps]> (pdeps st))).
Proof.
  intros Hrun. pose proof Hrun as Hrun'. unfold marshalProperty in Hrun'.
  destruct (marshalInputOptions pv pt opts) as [[v resourceDeps] | | |] eqn:Hm; [| done ..].
  apply bind_Ok in Hrun' as (allDeps & He & _).
  destruct (marshalProperty_step opts pname pv pt st v resourceDeps allDeps Hm He)
    as (st1 & Hst1 & Hd & Hskip & Hkeep).
  rewrite Hrun in Hst1. injection Hst1 as <-.
  exists v, resourceDeps, allDeps. split; [done |]. split; [done |]. split; [done |].
  destruct (IsNull v) eqn:Hnull.
  - destruct (decide (allDeps = ∅)) as [-> | Hne].
    + left. destruct Hskip as [? ?]; done.
    + right. apply Hkeep. by right.
  - right. apply Hkeep. by left.
Qed.

Lemma marshalProperty_consistent pname pv pt st st' :
  consistentState st -> marshalProperty opts pname pv pt st = Ok st' -> consistentState st'.
Proof.
  intros [Hdom Hlists] (v & rd & allDeps & _ & _ & Hd & Hcase)%marshalProperty_Ok.
  assert (Hold : forall k urns, pdeps st !! k = Some urns ->
            NoDup urns /\ forall u, u ∈ urns -> u ∈ deps st').
  { intros k urns Hk. destruct (Hlists k urns Hk) as [Hnd Hin]. split; [done |].
    intros u Hu. rewrite Hd. apply elem_of_union_l. by apply Hin. }
  destruct Hcase as [(_ & _ & Hp & Hq) | [Hp Hq]]; split.
  - by rewrite Hp, Hq.
  - rewrite Hq. exact Hold.
  - by rewrite Hp, Hq, !dom_insert_L, Hdom.
  - rewrite Hq. intros k urns. destruct (decide (pname = k)) as [<- | Hne].
    + rewrite lookup_insert_eq. intros [= <-]. split; [apply NoDup_fst_map_to_list |].
      intros u Hu. rewrite Hd. apply elem_of_union_r. unfold mapKeys in Hu.
      apply list_elem_of_fmap in Hu as ([u' r] & -> & Hin).
      apply elem_of_map_to_list in Hin. by apply elem_of_dom_2 in Hin.
    + rewrite lookup_insert_ne by done. apply Hold.
Qed.

Lemma marshalProperty_shape pname pv pt st st' :
  (forall k e, pmap st !! k = Some e -> outputValued e) ->
  marshalProperty opts pname pv pt st = Ok st' ->
  forall k e, pmap st' !! k = Some e -> outputValued e.
Proof.
  intros Hst (v & rd & allDeps & Hm & _ & _ & Hcase)%marshalProperty_Ok.
  destruct Hcase as [(_ & _ & -> & _) | [-> _]]; [done |].
  intros k e. destruct (decide (pname = k)) as [<- | Hne].
  - rewrite lookup_insert_eq. intros [= <-]. by eapply (marshal_shape pv).
  - rewrite lookup_insert_ne by done. apply Hst.
Qed.

End Shape.

(** X14.  The marshaler itself writes secrets and unknowns as [Output]
    values only: a value it returns is no [Secret] and no [Computed] value
    and holds none as an element, an entry, an asset or the element of an
    output, at any depth, and so it is with the properties that
    [marshalInputsOptions] returns.  The inside of a resource reference is
    left aside: its ID property is built by the library, not by the
    marshaler. *)
Theorem marshal_emits_output_values :
  forall (R : Reflection) (opts : option marshalOptions),
    (forall v destType pv deps,
       marshalInputOptions v destType opts = Ok (pv, deps) -> outputValued pv)
    /\ (forall props pmap pdeps urns,
          marshalInputsOptions props opts = Ok (pmap, pdeps, urns) ->
          forall k pv, pmap !! k = Some pv -> outputValued pv).
Proof.
  intros R opts. split.
  - intros v destType pv deps. apply marshal_shape.
  - intros props pmap0 pdeps0 urns Hrun.
    destruct (marshalInputsOptions_invariant opts
                (fun st => forall k e, pmap st !! k = Some e -> outputValued e)
                ltac:(cbn; intros k e; by rewrite lookup_empty)
                (marshalProperty_shape opts) props pmap0 pdeps0 urns Hrun)
      as (st & Hst & -> & _). exact Hst.
Qed.

Lemma marshal_emits_output_values_witness :
  marshalInputOptions (reflection := exampleReflection) exampleSecretOutput stringType None
  = Ok (PVOutput (PVString "hunter2") true true ["urn:A"; "urn:B"; "urn:E"], [resC])
  /\ outputValued (PVOutput (PVString "hunter2") true true ["urn:A"; "urn:B"; "urn:E"]).
Proof.
  assert (Hrun : marshalInputOptions (reflection := exampleReflection) exampleSecretOutput
                   stringType None
    = Ok (PVOutput (PVString "hunter2") true true ["urn:A"; "urn:B"; "urn:E"], [resC])).
  { vm_compute. reflexivity. }
  split; [exact Hrun |].
  exact (proj1 (marshal_emits_output_values exampleReflection None) _ _ _ _ Hrun).
Defined.

(** X15.  What [marshalInputsOptions] returns is consistent: the property
    map and the dependency map have the same keys, the list of URNs is free
    of duplicates, and every list of the dependency map is free of
    duplicates and holds URNs of the returned list only. *)
Theorem marshalInputsOptions_consistent :
  forall (R : Reflection) (opts : option marshalOptions) (props : Value)
         (pmap : gmap string PropertyValue) (pdeps : gmap string (list URN))
         (urns : list URN),
    marshalInputsOptions props opts = Ok (pmap, pdeps, urns) ->
    dom pmap = dom pdeps
    /\ NoDup urns
    /\ forall k l, pdeps !! k = Some l -> NoDup l /\ forall u, u ∈ l -> u ∈ urns.
Proof.
  intros R opts props pmap0 pdeps0 urns Hrun.
  destruct (marshalInputsOptions_invariant opts consistentState
              ltac:(unfold consistentState; cbn; split; [by rewrite !dom_empty_L | intros k l; by rewrite lookup_empty])
              (marshalProperty_consistent opts) props pmap0 pdeps0 urns Hrun)
    as (st & [Hdom Hlists] & -> & -> & ->).
  split; [done |]. split; [apply NoDup_elements |].
  intros k l Hk. destruct (Hlists k l Hk) as [Hnd Hin]. split; [done |].
  intros u Hu. apply elem_of_elements. by apply Hin.
Qed.
Lemma marshalInputsOptions_consistent_witness :
  marshalInputsOptions (reflection := exampleReflection) bucketArgs None
  = Ok ({[ "bucket" := MakeCustomResourceReference "urn:A" "id" "";
           "name" := PVOutput (PVString "hunter2") true true ["urn:A"; "urn:B"; "urn:E"] ]},
        {[ "bucket" := ["urn:A"]; "name" := ["urn:E"; "urn:A"; "urn:B"] ]},
        ["urn:E"; "urn:A"; "urn:B"])
  /\ NoDup ["urn:E"; "urn:A"; "urn:B"].
Proof.
  assert (Hrun : marshalInputsOptions (reflection := exampleReflection) bucketArgs None
    = Ok ({[ "bucket" := MakeCustomResourceReference "urn:A" "id" "";
             "name" := PVOutput (PVString "hunter2") true true
                         ["urn:A"; "urn:B"; "urn:E"] ]},
          {[ "bucket" := ["urn:A"]; "name" := ["urn:E"; "urn:A"; "urn:B"] ]},
          ["urn:E"; "urn:A"; "urn:B"])).
  { vm_compute. reflexivity. }
  split; [exact Hrun |].
  exact (proj1 (proj2 (marshalInputsOptions_consistent exampleReflection None _ _ _ _ Hrun))).
Defined.

(** ** Induction on wire values *)

Lemma pv_size_entry (m : gmap string PropertyValue) k e :
  m !! k = Some e -> (pv_size e <= map_fold (fun _ e acc => pv_size e + acc) 0 m)%nat.
Proof.
  revert k e.
  apply (map_fold_weak_ind
           (fun r (m : gmap string PropertyValue) =>
              forall k e, m !! k = Some e -> (pv_size e <= r)%nat)).
  - intros k e. by rewrite lookup_empty.
  - intros i x m' r Hi IH k e. destruct (decide (i = k)) as [<- | Hne].
    + rewrite lookup_insert_eq. intros [= <-]. lia.
    + rewrite lookup_insert_ne by done. intros Hk. specialize (IH k e Hk). lia.
Qed.

Lemma pv_size_elem (l : list PropertyValue) e :
  In e l -> (pv_size e <= foldr (fun e acc => pv_size e + acc) 0 l)%nat.
Proof.
  induction l as [|x l IH]; [done |]. cbn [foldr]. intros [-> | Hin]; [lia |].
  specialize (IH Hin). lia.
Qed.

Lemma PropertyValue_tree_ind (P : PropertyValue -> Prop) :
  P PVNull -> (forall b, P (PVBool b)) -> (forall n, P (PVNumber n)) ->
  (forall s, P (PVString s)) ->
  (forall elems, Forall P elems -> P (PVArray elems)) ->
  (forall props, (forall k e, props !! k = Some e -> P e) -> P (PVObject props)) ->
  (forall a, P (PVAsset a)) ->
  (forall assets path uri,
     (forall m k e, assets = Some m -> m !! k = Some e -> P e) ->
     P (PVArchive assets path uri)) ->
  (forall element, P element -> P (PVSecret element)) ->
  (forall element known secret dependencies,
     P element -> P (PVOutput element known secret dependencies)) ->
  P PVComputed -> (forall ref, P (PVResourceReference ref)) ->
  forall v, P v.
Proof.
  intros HNull HBool HNumber HString HArray HObject HAsset HArchive HSecret HOutput
    HComputed HRef v.
  remember (pv_size v) as n eqn:Hn. revert v Hn.
  induction n as [n IH] using lt_wf_ind. intros v ->.
  destruct v as [| b | x | s | elems | props | a | assets path uri | element
                 | element known secret dependencies | | ref].
  - exact HNull.
  - apply HBool.
  - apply HNumber.
  - apply HString.
  - apply HArray. apply List.Forall_forall. intros e He.
    apply (IH (pv_size e)); [| done]. pose proof (pv_size_elem elems e He). cbn. lia.
  - apply HObject. intros k e He.
    apply (IH (pv_size e)); [| done]. pose proof (pv_size_entry props k e He). cbn. lia.
  - apply HAsset.
  - apply HArchive. intros m k e -> He.
    apply (IH (pv_size e)); [| done]. pose proof (pv_size_entry m k e He). cbn. lia.
  - apply HSecret. apply (IH (pv_size element)); [cbn; lia | done].
  - apply HOutput. apply (IH (pv_size element)); [cbn; lia | done].
  - exact HComputed.
  - apply HRef.
Qed.

(** ** The loops of the unmarshaler *)

Section LoopFacts.
Context {A B : Type}.
Variable f : A -> Outcome (B * bool).

Lemma unmarshalElements_Ok arr : forall rv secret l s,
  unmarshalElements f arr rv secret = Ok (l, s) <->
  exists results,
    Forall2 (fun e r => f e = Ok r) arr results
    /\ l = rv ++ results.*1 /\ s = secret || existsb snd results.
Proof.
  induction arr as [|x xs IH]; intros rv secret l s.
  - cbn. split.
    + intros [= <- <-]. exists []. split; [constructor |]. cbn.
      by rewrite app_nil_r, orb_false_r.
    + intros (results & HF & -> & ->). inversion HF; subst. cbn.
      by rewrite app_nil_r, orb_false_r.
  - cbn [unmarshalElements]. destruct (f x) as [[ev es] | | |] eqn:Hx; cbn.
    + rewrite IH. split.
      * intros (results & HF & -> & ->). exists ((ev, es) :: results).
        split; [by constructor |]. cbn. by rewrite <- app_assoc, orb_assoc.
      * intros (results & HF & -> & ->).
        inversion HF as [| ? r ? results' Hr HF']; subst.
        rewrite Hx in Hr. injection Hr as <-. exists results'. split; [done |]. cbn.
        by rewrite <- app_assoc, orb_assoc.
    + split; [done |]. intros (results & HF & _). inversion HF; subst. congruence.
    + split; [done |]. intros (results & HF & _). inversion HF; subst. congruence.
    + split; [done |]. intros (results & HF & _). inversion HF; subst. congruence.
Qed.

Lemma unmarshalEntries_result props : entriesResult f props (unmarshalEntries f props).
Proof.
  unfold unmarshalEntries.
  apply (map_fold_weak_ind (fun r m => entriesResult f m r)).
  - cbn. split; [by rewrite !dom_empty_L |]. split.
    + intros k e. by rewrite lookup_empty.
    + split; [done |]. intros (k & e & ev & Hk & _). by rewrite lookup_empty in Hk.
  - intros i x m r Hi IH.
    assert (Hfail : (exists k e, m !! k = Some e /\ forall x, f e <> Ok x) ->
                    exists k e, <[i := x]> m !! k = Some e /\ forall x, f e <> Ok x).
    { intros (k & e & Hk & He). exists k, e. split; [| done].
      rewrite lookup_insert_ne; [done |]. intros <-. congruence. }
    destruct r as [[m0 secret] | err | msg |]; cbn in IH |- *; try by apply Hfail.
    destruct IH as (Hdom & Hpoint & Hsecret).
    destruct (f x) as [[ev es] | err | msg |] eqn:Hx; cbn;
      try (exists i, x; split; [by rewrite lookup_insert_eq | intros y; congruence]).
    split; [by rewrite !dom_insert_L, Hdom |]. split.
    + intros k e. destruct (decide (i = k)) as [<- | Hne].
      * rewrite lookup_insert_eq. intros [= <-]. exists ev, es.
        by rewrite lookup_insert_eq.
      * rewrite !lookup_insert_ne by done. apply Hpoint.
    + split.
      * intros [Hs | ->]%orb_prop.
        -- destruct (proj1 Hsecret Hs) as (k & e & ev' & Hk & He).
           exists k, e, ev'. split; [| done].
           rewrite lookup_insert_ne; [done |]. intros <-. congruence.
        -- exists i, x, ev. by rewrite lookup_insert_eq.
      * intros (k & e & ev' & Hk & He). destruct (decide (i = k)) as [<- | Hne].
        -- rewrite lookup_insert_eq in Hk. injection Hk as <-.
           rewrite Hx in He. injection He as _ Hes. subst es. apply orb_true_r.
        -- rewrite lookup_insert_ne in Hk by done.
           rewrite (proj2 Hsecret); [done |]. by exists k, e, ev'.
Qed.

End LoopFacts.

Section UnmarshalValueFacts.
Context {runtime : Runtime}.
Variable resourcePackages : versionedMap ResourcePackage.
Variable resourceModules : versionedMap ResourceModule.

#[local] Abbreviation unmarshalValue :=
  (unmarshalPropertyValue resourcePackages resourceModules).

Lemma unmarshalPropertyValue_array arr :
  unmarshalValue (PVArray arr)
  = ('(l, secret) ← unmarshalElements unmarshalValue arr [] false;
     mret (RSlice l, secret)).
Proof.
  assert (Hgen : forall rv secret,
    (fix each (arr : list PropertyValue) (rv : list RuntimeValue) (secret : bool)
       : Outcome (RuntimeValue * bool) :=
       match arr with
       | [] => mret (RSlice rv, secret)
       | e :: rest =>
           '(ev, esecret) ← unmarshalValue e;
           each rest (rv ++ [ev]) (secret || esecret)
       end) arr rv secret
    = ('(l, secret) ← unmarshalElements unmarshalValue arr rv secret;
       mret (RSlice l, secret))).
  { induction arr as [|e rest IH]; intros rv secret; [done |].
    cbn [unmarshalElements].
    destruct (unmarshalValue e) as [[ev es] | | |]; cbn; [| done ..]. apply IH. }
  apply (Hgen [] false).
Qed.

Lemma unmarshalPropertyValue_object props :
  unmarshalValue (PVObject props)
  = ('(m, secret) ← unmarshalEntries unmarshalValue props; mret (RMap m, secret)).
Proof. done. Qed.

Lemma unmarshalPropertyValue_archive assets path uri :
  unmarshalValue (PVArchive (Some assets) path uri)
  = ('(m, secret) ← unmarshalEntries unmarshalValue assets;
     mret (RNewAssetArchive m, secret)).
Proof. done. Qed.

End UnmarshalValueFacts.

(** X16.  [unmarshalPropertyValue] keeps the shape of arrays and objects.
    It returns for an array exactly when it returns for every element: a
    slice of the results in order, flagged secret when one of them is.  What
    it returns for an object is a map with the keys of the object, [Null]
    entries included, that binds each key to the result for its entry,
    flagged secret exactly when the result for one of the entries is. *)
Theorem unmarshalPropertyValue_containers :
  forall (runtime : Runtime) (resourcePackages : versionedMap ResourcePackage)
         (resourceModules : versionedMap ResourceModule),
    let unmarshal := unmarshalPropertyValue resourcePackages resourceModules in
    (forall arr rv secret,
       unmarshal (PVArray arr) = Ok (rv, secret) <->
       exists results,
         Forall2 (fun e r => unmarshal e = Ok r) arr results
         /\ rv = RSlice (results.*1) /\ secret = existsb snd results)
    /\ (forall props rv secret,
          unmarshal (PVObject props) = Ok (rv, secret) ->
          exists m,
            rv = RMap m /\ dom m = dom props
            /\ (forall k e, props !! k = Some e ->
                  exists ev es, unmarshal e = Ok (ev, es) /\ m !! k = Some ev)
            /\ (secret = true <->
                exists k e ev, props !! k = Some e /\ unmarshal e = Ok (ev, true))).
Proof.
  intros runtime rp rm unmarshal. split.
  - intros arr rv secret. unfold unmarshal. rewrite unmarshalPropertyValue_array.
    fold unmarshal. split.
    + intros ([l s] & Hl & [= <- <-])%bind_Ok.
      apply unmarshalElements_Ok in Hl as (results & HF & -> & ->). by exists results.
    + intros (results & HF & -> & ->).
      assert (Hl : unmarshalElements unmarshal arr [] false
                   = Ok (results.*1, existsb snd results)).
      { apply unmarshalElements_Ok. by exists results. }
      by rewrite Hl.
  - intros props rv secret. unfold unmarshal. rewrite unmarshalPropertyValue_object.
    fold unmarshal. intros ([m s] & Hm & [= <- <-])%bind_Ok.
    pose proof (unmarshalEntries_result unmarshal props) as Hres.
    rewrite Hm in Hres. by exists m.
Qed.

(** X17.  The secret flag that [unmarshalPropertyValue] returns is true
    exactly when the value is a [Secret], an [Output] with the secret flag,
    or an array, an object or an archive holding such a value as an element,
    an entry or an asset, at any depth of such containers.  A secret under
    an [Output] that is not flagged secret itself is not reported. *)
Theorem unmarshalPropertyValue_secret :
  forall (runtime : Runtime) (resourcePackages : versionedMap ResourcePackage)
         (resourceModules : versionedMap ResourceModule)
         (v : PropertyValue) (rv : RuntimeValue) (secret : bool),
    unmarshalPropertyValue resourcePackages resourceModules v = Ok (rv, secret) ->
    (secret = true <-> exposesSecret v).
Proof.
  intros runtime rp rm.
  induction v as [| b | x | s | elems IH | props IH | a | assets path uri IH | element IH
                  | element known secret0 dependencies IH | | ref]
    using PropertyValue_tree_ind; intros rv secret.
  - cbn. intros [= <- <-]. split; [done | inversion 1].
  - cbn. intros [= <- <-]. split; [done | inversion 1].
  - cbn. intros [= <- <-]. split; [done | inversion 1].
  - cbn. intros [= <- <-]. split; [done | inversion 1].
  - rewrite (unmarshalPropertyValue_array rp rm).
    intros ([l s] & Hl & [= <- <-])%bind_Ok.
    apply unmarshalElements_Ok in Hl as (results & HF & -> & ->). cbn [orb].
    clear -HF IH. induction HF as [| e [ev es] elems results He _ IHF]; cbn.
    + split; [done |]. intros Hx. inversion Hx as [| | ? e' Hin He' | |]; subst.
      destruct Hin.
    + apply Forall_cons in IH as [IHe IHs]. specialize (IHF IHs).
      split.
      * intros [Hes | Hrest]%orb_prop.
        -- cbn in Hes. subst es. eapply exposes_array; [by left |].
           by apply (IHe ev true He).
        -- apply IHF in Hrest. inversion Hrest as [| | ? e' Hin He' | |]; subst.
           eapply exposes_array; [by right | done].
      * intros Hx. inversion Hx as [| | ? e' Hin He' | |]; subst.
        destruct Hin as [<- | Hin].
        -- apply (IHe ev es He) in He'. cbn. by rewrite He'.
        -- apply orb_true_intro. right. apply IHF. by eapply exposes_array.
  - rewrite (unmarshalPropertyValue_object rp rm).
    intros ([m s] & Hm & [= <- <-])%bind_Ok.
    pose proof (unmarshalEntries_result (unmarshalPropertyValue rp rm) props) as Hres.
    rewrite Hm in Hres. destruct Hres as (_ & Hpoint & Hsecret). rewrite Hsecret. split.
    + intros (k & e & ev & Hk & He). eapply exposes_object; [exact Hk |].
      by apply (IH k e Hk ev true He).
    + inversion 1 as [| | | ? k e Hk He |]; subst.
      destruct (Hpoint k e Hk) as (ev & es & Hev & _).
      apply (IH k e Hk ev es Hev) in He. subst es. by exists k, e, ev.
  - cbn [unmarshalPropertyValue]. destruct (populated _); [intros [= <- <-] |];
      [split; [done | inversion 1] |].
    destruct (populated _); [intros [= <- <-] |]; [split; [done | inversion 1] |].
    destruct (populated _); [intros [= <- <-] | done]. split; [done | inversion 1].
  - destruct assets as [assets|].
    + rewrite (unmarshalPropertyValue_archive rp rm).
      intros ([m s] & Hm & [= <- <-])%bind_Ok.
      pose proof (unmarshalEntries_result (unmarshalPropertyValue rp rm) assets) as Hres.
      rewrite Hm in Hres. destruct Hres as (_ & Hpoint & Hsecret). rewrite Hsecret. split.
      * intros (k & e & ev & Hk & He). eapply exposes_archive; [exact Hk |].
        by apply (IH assets k e eq_refl Hk ev true He).
      * inversion 1 as [| | | | ? ? ? k e Hk He]; subst.
        destruct (Hpoint k e Hk) as (ev & es & Hev & _).
        apply (IH assets k e eq_refl Hk ev es Hev) in He. subst es. by exists k, e, ev.
    + cbn [unmarshalPropertyValue]. destruct (populated _); [intros [= <- <-] |];
        [split; [done | inversion 1] |].
      destruct (populated _); [intros [= <- <-] | done]. split; [done | inversion 1].
  - cbn [unmarshalPropertyValue]. intros ([sv ?] & _ & [= <- <-])%bind_Ok.
    split; [constructor | done].
  - cbn [unmarshalPropertyValue]. destruct known; cbn [negb].
    + intros ([ov ?] & _ & [= <- <-])%bind_Ok. split; [intros ->; constructor |].
      by inversion 1.
    + intros [= <- <-]. split; [intros ->; constructor |]. by inversion 1.
  - cbn. intros [= <- <-]. split; [done | inversion 1].
  - cbn [unmarshalPropertyValue]. intros (r & _ & [= <- <-])%bind_Ok.
    split; [done | inversion 1].
Qed.

Lemma unmarshalPropertyValue_secret_witness :
  unmarshalPropertyValue (runtime := exampleRuntime) noPackages noModules secretObject
  = Ok (RMap {[ "password" := RString "hunter2"; "none" := RNil ]}, true)
  /\ (true = true <-> exposesSecret secretObject)
  /\ unmarshalPropertyValue (runtime := exampleRuntime) noPackages noModules wrappedSecret
     = Ok (RString "hunter2", false)
  /\ (false = true <-> exposesSecret wrappedSecret).
Proof.
  assert (H1 : unmarshalPropertyValue (runtime := exampleRuntime) noPackages noModules
                 secretObject
               = Ok (RMap {[ "password" := RString "hunter2"; "none" := RNil ]}, true)).
  { vm_compute. reflexivity. }
  assert (H2 : unmarshalPropertyValue (runtime := exampleRuntime) noPackages noModules
                 wrappedSecret
               = Ok (RString "hunter2", false)).
  { vm_compute. reflexivity. }
  split; [exact H1 |].
  split; [exact (unmarshalPropertyValue_secret exampleRuntime _ _ _ _ _ H1) |].
  split; [exact H2 |].
  exact (unmarshalPropertyValue_secret exampleRuntime _ _ _ _ _ H2).
Defined.

(** X18.  For [unmarshalOutput] a pointer destination is as good as what
    it points to: the secret flag or the error the function returns is the
    same for a destination of the type [*T] as for one of the type [T]. *)
Theorem unmarshalOutput_pointer_destination :
  forall (reflection : Reflection) (runtime : Runtime)
         (resourcePackages : versionedMap ResourcePackage)
         (resourceModules : versionedMap ResourceModule)
         (v : PropertyValue) (destType : GoType),
    unmarshalOutput resourcePackages resourceModules v (TPtr destType)
    = unmarshalOutput resourcePackages resourceModules v destType.
Proof.
  intros reflection runtime rp rm v destType.
  destruct v; cbn [unmarshalOutput allocate fst];
    destruct (allocate destType) as [dest allocated]; cbn [fst]; try reflexivity.
  destruct (unmarshalResourceReference rp rm ref) as [res | | |]; cbn; [| done ..].
  destruct (resourceType res); try done.
  destruct allocated; cbn [negb andb]; [done |].
  destruct (bool_decide (kindOf dest = KInterface)); cbn [andb]; [| done].
  by destruct (AssignableTo _ dest).
Qed.

(** ** The round trip through the wire *)

Lemma option_bind_Some {A B : Type} (m : option A) (f : A -> option B) (b : B) :
  m ≫= f = Some b -> exists a, m = Some a /\ f a = Some b.
Proof. destruct m as [a|]; cbn; [by exists a | done]. Qed.

Lemma asEntries_spec asValue (m : gmap string RuntimeValue) :
  (forall k rv, m !! k = Some rv -> is_Some (asValue rv)) ->
  exists entries,
    asEntries asValue m = Some entries
    /\ NoDup (entries.*1)
    /\ forall k v, In (k, v) entries <-> exists rv, m !! k = Some rv /\ asValue rv = Some v.
Proof.
  unfold asEntries.
  apply (map_fold_weak_ind
    (fun r (m : gmap string RuntimeValue) =>
       (forall k rv, m !! k = Some rv -> is_Some (asValue rv)) ->
       exists entries,
         r = Some entries /\ NoDup (entries.*1)
         /\ forall k v, In (k, v) entries <->
              exists rv, m !! k = Some rv /\ asValue rv = Some v)).
  - intros _. exists []. split; [done |]. split; [constructor |].
    intros k v. split; [done |]. intros (rv & Hk & _). by rewrite lookup_empty in Hk.
  - intros i x m' r Hi IH Hall.
    destruct IH as (entries & -> & Hnd & Hin).
    { intros k rv Hk. apply (Hall k rv). rewrite lookup_insert_ne; [done |].
      intros <-. congruence. }
    destruct (Hall i x) as [v Hv]; [by rewrite lookup_insert_eq |].
    exists ((i, v) :: entries). cbn. rewrite Hv. cbn. split; [done |]. split.
    + apply NoDup_cons. split; [| done]. intros Hi'.
      apply list_elem_of_fmap in Hi' as ([k' v'] & -> & Hkv).
      apply list_elem_of_In, Hin in Hkv as (rv & Hk & _). cbn in Hi. congruence.
    + intros k v0. rewrite Hin. split.
      * intros [[= <- <-] | (rv & Hk & Hrv)].
        -- exists x. by rewrite lookup_insert_eq.
        -- exists rv. split; [| done]. rewrite lookup_insert_ne; [done |].
           intros <-. congruence.
      * intros (rv & Hk & Hrv). destruct (decide (i = k)) as [<- | Hne].
        -- rewrite lookup_insert_eq in Hk. injection Hk as <-. left. congruence.
        -- rewrite lookup_insert_ne in Hk by done. right. by exists rv.
Qed.

Section RoundTrip.
Context {reflection : Reflection} {runtime : Runtime}.
Variable resourcePackages : versionedMap ResourcePackage.
Variable resourceModules : versionedMap ResourceModule.
Hypothesis Hreflexive : forall t, AssignableTo t t = true.

#[local] Abbreviation unmarshalValue :=
  (unmarshalPropertyValue resourcePackages resourceModules).
#[local] Abbreviation trips := (roundTrips resourcePackages resourceModules).

Lemma roundTrips_scalar pv rv d :
  unmarshalValue pv = Ok (rv, false) ->
  asValue rv = Some (VPlain d) ->
  (forall destType,
     marshalData None d (typeOfData d) destType []
     = (_ ← Assertf (assignable (settleTypes d (typeOfData d) destType).1
                                (settleTypes d (typeOfData d) destType).2)
                    "cannot assign value to destination type";
        mret (pv, []))) ->
  trips pv.
Proof.
  intros Hu Ha Hm. exists rv, (VPlain d). split; [done |]. split; [done |].
  unfold marshalInput, marshalInputOptions, marshalInputOptionsImpl.
  rewrite marshalLoop_plain, Hm. unfold assignable, settleTypes. cbn [fst snd kindOf anyType].
  rewrite (bool_decide_eq_true_2 (KInterface = KInterface)) by done.
  by rewrite Hreflexive.
Qed.

Lemma roundTrips_elems elems :
  Forall trips elems ->
  exists rvs vs,
    Forall2 (fun e r => unmarshalValue e = Ok r) elems ((fun rv => (rv, false)) <$> rvs)
    /\ asValues asValue rvs = Some vs
    /\ Forall2 (fun v r => marshalInputOptions v anyType None = Ok r) vs
               ((fun e => (e, [])) <$> elems).
Proof.
  induction 1 as [|e elems (rv & v & Hu & Ha & Hm) _ (rvs & vs & HU & HA & HM)].
  - exists [], []. by repeat constructor.
  - exists (rv :: rvs), (v :: vs). split; [by constructor |]. split.
    + cbn. rewrite Ha. cbn. by rewrite HA.
    + by constructor.
Qed.

Lemma roundTrips_array elems : Forall trips elems -> trips (PVArray elems).
Proof.
  intros (rvs & vs & HU & HA & HM)%roundTrips_elems.
  exists (RSlice rvs), (VPlain (DSlice "" anyType (Some vs))). split; [| split].
  - rewrite unmarshalPropertyValue_array.
    assert (Hl : unmarshalElements unmarshalValue elems [] false = Ok (rvs, false)).
    { apply unmarshalElements_Ok. exists ((fun rv => (rv, false)) <$> rvs).
      split; [done |]. split.
      - cbn. rewrite <- list_fmap_compose. by rewrite list_fmap_id.
      - cbn. clear. by induction rvs. }
    by rewrite Hl.
  - cbn [asValue]. by rewrite HA.
  - unfold marshalInput, marshalInputOptions at 1, marshalInputOptionsImpl.
    rewrite marshalLoop_slice.
    change (Elem (settledDest (TSlice "" anyType) anyType)) with (Some anyType).
    apply marshalElems_Ok. exists ((fun e => (e, [])) <$> elems).
    split; [done |]. split.
    + cbn. rewrite <- list_fmap_compose. by rewrite list_fmap_id.
    + cbn. clear. by induction elems.
Qed.

Lemma roundTrips_object props :
  (forall k e, props !! k = Some e -> trips e /\ IsNull e = false) ->
  trips (PVObject props).
Proof.
  intros Hall.
  pose proof (unmarshalEntries_result unmarshalValue props) as Hres.
  destruct (unmarshalEntries unmarshalValue props) as [[m secret] | err | msg |] eqn:Hm;
    cbn in Hres;
    try (destruct Hres as (k & e & Hk & Hno);
         destruct (Hall k e Hk) as [(rv & v & Hu & _) _]; by destruct (Hno (rv, false))).
  destruct Hres as (Hdom & Hpoint & Hsecret).
  assert (secret = false) as ->.
  { destruct secret; [| done]. destruct (proj1 Hsecret eq_refl) as (k & e & ev & Hk & He).
    destruct (Hall k e Hk) as [(rv & v & Hu & _) _]. congruence. }
  assert (Hentry : forall k rv, m !! k = Some rv ->
            exists e v, props !! k = Some e /\ unmarshalValue e = Ok (rv, false)
              /\ asValue rv = Some v /\ marshalInputOptions v anyType None = Ok (e, [])
              /\ IsNull e = false).
  { intros k rv Hk.
    assert (is_Some (props !! k)) as [e He].
    { apply elem_of_dom. rewrite <- Hdom. by apply elem_of_dom_2 in Hk. }
    destruct (Hpoint k e He) as (ev & es & Hev & Hmk).
    destruct (Hall k e He) as [(rv' & v & Hu & Ha & Hmv) Hnn].
    assert (rv' = rv) as -> by congruence. by exists e, v. }
  destruct (asEntries_spec asValue m) as (entries & Hentries & Hnd & Hin).
  { intros k rv Hk. destruct (Hentry k rv Hk) as (e & v & _ & _ & Hv & _). by exists v. }
  assert (Hresults : exists results,
    Forall2 (fun kv r => marshalInputOptions kv.2 anyType None = Ok r) entries results
    /\ concat (results.*2) = []).
  { assert (Hok : forall k v, In (k, v) entries ->
              exists e, marshalInputOptions v anyType None = Ok (e, [])).
    { intros k v (rv & Hk & Hv)%Hin.
      destruct (Hentry k rv Hk) as (e & v' & _ & _ & Hv' & Hmv & _).
      exists e. congruence. }
    clear -Hok. induction entries as [|[k v] entries IH].
    - exists []. split; [constructor | done].
    - destruct IH as (results & HF & Hc).
      { intros k' v' Hin. apply (Hok k' v'). by right. }
      destruct (Hok k v) as [e He]; [by left |].
      exists ((e, []) :: results). split; [by constructor |]. cbn. exact Hc. }
  destruct Hresults as (results & HF & Hdeps).
  destruct (marshalLoop_map_Ok None "" stringType anyType entries anyType anyType results
              eq_refl eq_refl Hnd HF) as (obj & Hobj & Hlook).
  assert (obj = props) as ->.
  { apply map_eq. intros k. apply option_eq. intros pv. rewrite Hlook. split.
    - intros (Hnn & v & deps & (rv & Hk & Hv)%Hin & Hmv).
      destruct (Hentry k rv Hk) as (e & v' & He & _ & Hv' & Hmv' & _).
      assert (v' = v) as -> by congruence. congruence.
    - intros He. destruct (Hall k pv He) as [(rv & v & Hu & Ha & Hmv) Hnn].
      split; [done |]. exists v, []. split; [| done]. apply Hin. exists rv.
      split; [| done]. destruct (Hpoint k pv He) as (ev & es & Hev & Hmk). congruence. }
  exists (RMap m), (VPlain (DMap "" stringType anyType (Some entries))).
  split; [| split].
  - rewrite unmarshalPropertyValue_object, Hm. reflexivity.
  - cbn [asValue]. by rewrite Hentries.
  - unfold marshalInput. by rewrite Hobj, Hdeps.
Qed.

Lemma plainWire_roundTrips pv : plainWire pv -> trips pv.
Proof.
  induction pv as [| b | x | s | elems IH | props IH | a | assets path uri IH | element IH
                   | element known secret0 dependencies IH | | ref]
    using PropertyValue_tree_ind; intros Hplain; try by inversion Hplain.
  - by exists RNil, VNil.
  - by apply (roundTrips_scalar _ (RBool b) (DBool "bool" b)).
  - by apply (roundTrips_scalar _ (RNumber x) (DFloat "float64" x)).
  - by apply (roundTrips_scalar _ (RString s) (DString "string" s)).
  - apply roundTrips_array. inversion Hplain as [| | | | ? Hall |]; subst.
    rewrite List.Forall_forall in *. intros e He. apply IH; [done | by apply Hall].
  - apply roundTrips_object. inversion Hplain as [| | | | | ? Hall]; subst.
    intros k e Hk. destruct (Hall k e Hk) as [Hp Hnn]. split; [| done]. by eapply IH.
Qed.

End RoundTrip.

(** X19.  The plain fragment of the wire format survives a round trip.  A
    wire value made of [Null], booleans, numbers, strings, arrays and
    objects without [Null] entries is unmarshaled by
    [unmarshalPropertyValue] to a value that is not secret, and
    [marshalInput] of that value for the destination type [interface{}]
    returns the wire value again, with no dependencies.  (The [reflect]
    package makes every type assignable to itself.) *)
Theorem unmarshal_marshal_roundtrip :
  forall (reflection : Reflection) (runtime : Runtime)
         (resourcePackages : versionedMap ResourcePackage)
         (resourceModules : versionedMap ResourceModule) (pv : PropertyValue),
    (forall t, AssignableTo t t = true) ->
    plainWire pv ->
    exists rv v,
      unmarshalPropertyValue resourcePackages resourceModules pv = Ok (rv, false)
      /\ asValue rv = Some v
      /\ marshalInput v anyType = Ok (pv, []).
Proof.
  intros reflection runtime rp rm pv Hrefl Hplain.
  exact (plainWire_roundTrips rp rm Hrefl pv Hplain).
Qed.

Lemma unmarshal_marshal_roundtrip_witness :
  exists rv v,
    unmarshalPropertyValue (runtime := exampleRuntime) noPackages noModules plainObject
    = Ok (rv, false)
    /\ asValue rv = Some v
    /\ marshalInput (reflection := exampleReflection) v anyType = Ok (plainObject, []).
Proof.
  apply (unmarshal_marshal_roundtrip exampleReflection exampleRuntime noPackages noModules
           plainObject).
  - intros t. cbn. by rewrite bool_decide_eq_true_2.
  - constructor. intros k e Hk.
    destruct (decide (k = "name")) as [-> | Hname].
    { vm_compute in Hk. injection Hk as <-. split; [constructor | done]. }
    destruct (decide (k = "tags")) as [-> | Htags].
    { vm_compute in Hk. injection Hk as <-. split; [| done].
      constructor. repeat constructor. }
    exfalso. unfold plainObject in Hk.
    rewrite lookup_insert_ne in Hk by done.
    rewrite lookup_singleton_ne in Hk by done. discriminate Hk.
Defined.

(** ** [unmarshalPropertyMap] *)

Section MapLoopFacts.
Context {A B : Type}.
Variable f : A -> Outcome B.

Lemma unmarshalMapEntries_result (v : gmap string A) :
  match unmarshalMapEntries f v with
  | Ok m => dom m = dom v
            /\ forall k e, v !! k = Some e -> exists uv, f e = Ok uv /\ m !! k = Some uv
  | _ => exists k e, v !! k = Some e /\ forall x, f e <> Ok x
  end.
Proof.
  unfold unmarshalMapEntries.
  apply (map_fold_weak_ind
    (fun r (v : gmap string A) =>
       match r with
       | Ok m => dom m = dom v
                 /\ forall k e, v !! k = Some e ->
                      exists uv, f e = Ok uv /\ m !! k = Some uv
       | _ => exists k e, v !! k = Some e /\ forall x, f e <> Ok x
       end)).
  - cbn. split; [by rewrite !dom_empty_L |]. intros k e. by rewrite lookup_empty.
  - intros i x v' r Hi IH.
    assert (Hfail : (exists k e, v' !! k = Some e /\ forall x, f e <> Ok x) ->
                    exists k e, <[i := x]> v' !! k = Some e /\ forall x, f e <> Ok x).
    { intros (k & e & Hk & He). exists k, e. split; [| done].
      rewrite lookup_insert_ne; [done |]. intros <-. congruence. }
    destruct r as [m | err | msg |]; cbn in IH |- *; try by apply Hfail.
    destruct IH as (Hdom & Hpoint).
    destruct (f x) as [uv | err | msg |] eqn:Hx; cbn;
      try (exists i, x; split; [by rewrite lookup_insert_eq | intros y; congruence]).
    split; [by rewrite !dom_insert_L, Hdom |].
    intros k e. destruct (decide (i = k)) as [<- | Hne].
    + rewrite lookup_insert_eq. intros [= <-]. exists uv. by rewrite lookup_insert_eq.
    + rewrite !lookup_insert_ne by done. apply Hpoint.
Qed.

End MapLoopFacts.

(** X20.  [unmarshalPropertyMap] returns the nil map for the nil map.  For
    a map it unmarshals every entry on its own: it returns a map exactly
    when the closure [unmarshal] returns for each entry, and that map has
    the keys of the argument, [Null] entries included, each bound to what
    [unmarshal] returned for its entry. *)
Theorem unmarshalPropertyMap_entries :
  forall (runtime : Runtime) (outputs : OutputRuntime)
         (resourcePackages : versionedMap ResourcePackage)
         (resourceModules : versionedMap ResourceModule),
    unmarshalPropertyMap resourcePackages resourceModules None = Ok None
    /\ forall (v : gmap string PropertyValue),
         ((exists m, unmarshalPropertyMap resourcePackages resourceModules (Some v) = Ok m)
          <-> forall k e, v !! k = Some e ->
                exists uv, unmarshal resourcePackages resourceModules e = Ok uv)
         /\ forall m,
              unmarshalPropertyMap resourcePackages resourceModules (Some v) = Ok m ->
              exists entries,
                m = Some entries /\ dom entries = dom v
                /\ forall k e, v !! k = Some e ->
                     exists uv, unmarshal resourcePackages resourceModules e = Ok uv
                                /\ entries !! k = Some uv.
Proof.
  intros runtime outputs rp rm. split; [done |]. intros v.
  pose proof (unmarshalMapEntries_result (unmarshal rp rm) v) as Hres.
  unfold unmarshalPropertyMap. fold (unmarshalMapEntries (unmarshal rp rm) v).
  destruct (unmarshalMapEntries (unmarshal rp rm) v) as [m | err | msg |]; cbn.
  - destruct Hres as [Hdom Hpoint]. split.
    + split; [| by eexists]. intros _ k e Hk.
      destruct (Hpoint k e Hk) as (uv & Hu & _). by exists uv.
    + intros ? [= <-]. by exists m.
  - destruct Hres as (k & e & Hk & Hno). split; [| done]. split; [by intros [? ?] |].
    intros Hall. destruct (Hall k e Hk) as [uv Hu]. by destruct (Hno uv).
  - destruct Hres as (k & e & Hk & Hno). split; [| done]. split; [by intros [? ?] |].
    intros Hall. destruct (Hall k e Hk) as [uv Hu]. by destruct (Hno uv).
  - destruct Hres as (k & e & Hk & Hno). split; [| done]. split; [by intros [? ?] |].
    intros Hall. destruct (Hall k e Hk) as [uv Hu]. by destruct (Hno uv).
Qed.

(** X21.  [unmarshalPropertyMap] keeps what an output that is not known
    carries: an entry that is an [Output] with [Known] false becomes an
    output of the type [anyOutputType] that is resolved with no value, not
    known, with the secret flag of the wire value and a dependency resource
    for each of its dependencies; the element of the wire value is not
    looked at. *)
Theorem unmarshalPropertyMap_unknown_output :
  forall (runtime : Runtime) (outputs : OutputRuntime)
         (resourcePackages : versionedMap ResourcePackage)
         (resourceModules : versionedMap ResourceModule)
         (v : gmap string PropertyValue) (m : gmap string InputValue)
         (k : string) (element : PropertyValue) (secret : bool) (dependencies : list URN),
    v !! k = Some (PVOutput element false secret dependencies) ->
    unmarshalPropertyMap resourcePackages resourceModules (Some v) = Ok (Some m) ->
    m !! k = Some (IOutput anyOutputType ResNil false secret
                     (newDependencyResource <$> dependencies)).
Proof.
  intros runtime outputs rp rm v m k element secret dependencies Hk.
  pose proof (unmarshalMapEntries_result (unmarshal rp rm) v) as Hres.
  unfold unmarshalPropertyMap. fold (unmarshalMapEntries (unmarshal rp rm) v).
  destruct (unmarshalMapEntries (unmarshal rp rm) v) as [m' | err | msg |]; cbn; [| done ..].
  intros [= <-]. destruct Hres as [_ Hpoint].
  destruct (Hpoint k _ Hk) as (uv & Hu & Hm). cbn in Hu. by injection Hu as <-.
Qed.

Lemma unmarshalPropertyMap_unknown_output_witness :
  unmarshalPropertyMap (runtime := exampleRuntime) (outputs := exampleOutputs)
    noPackages noModules (Some previewOutputs)
  = Ok (Some {[ "name" := IString "b";
                "password" := IOutput (TStruct "pulumi.AnyOutput" []) ResNil false true
                                [dependencyResource DependencyOnly "urn:A"
                                   (Settled "" false false)] ]})
  /\ ({[ "name" := IString "b";
         "password" := IOutput (TStruct "pulumi.AnyOutput" []) ResNil false true
                         [dependencyResource DependencyOnly "urn:A"
                            (Settled "" false false)] ]} : gmap string InputValue)
     !! "password"
     = Some (IOutput (TStruct "pulumi.AnyOutput" []) ResNil false true
               [dependencyResource DependencyOnly "urn:A" (Settled "" false false)]).
Proof.
  assert (Hrun : unmarshalPropertyMap (runtime := exampleRuntime) (outputs := exampleOutputs)
                   noPackages noModules (Some previewOutputs)
    = Ok (Some {[ "name" := IString "b";
                  "password" := IOutput (TStruct "pulumi.AnyOutput" []) ResNil false true
                                  [dependencyResource DependencyOnly "urn:A"
                                     (Settled "" false false)] ]})).
  { vm_compute. reflexivity. }
  split; [exact Hrun |].
  exact (unmarshalPropertyMap_unknown_output exampleRuntime exampleOutputs noPackages
           noModules previewOutputs _ "password" PVNull true ["urn:A"] eq_refl Hrun).
Defined.

(** ** [unmarshalOutput] *)

Section UnmarshalOutputFacts.
Context {reflection : Reflection} {runtime : Runtime}.
Variable resourcePackages : versionedMap ResourcePackage.
Variable resourceModules : versionedMap ResourceModule.

#[local] Abbreviation unmarshalInto :=
  (unmarshalOutput resourcePackages resourceModules).

Lemma unmarshalOutput_slice arr name elemType :
  unmarshalInto (PVArray arr) (TSlice name elemType)
  = unmarshalSliceElements (fun e => unmarshalInto e elemType) arr false.
Proof. done. Qed.

Lemma unmarshalOutput_struct obj name fields :
  unmarshalInto (PVObject obj) (TStruct name fields)
  = unmarshalStructFields unmarshalInto obj fields false.
Proof. done. Qed.

Lemma unmarshalSliceElements_Ok f arr : forall secret s,
  unmarshalSliceElements f arr secret = Ok s <->
  exists flags, Forall2 (fun e b => f e = Ok b) arr flags
                /\ s = secret || existsb id flags.
Proof.
  induction arr as [|x xs IH]; intros secret s.
  - cbn. split.
    + intros [= <-]. exists []. split; [constructor |]. cbn. by rewrite orb_false_r.
    + intros (flags & HF & ->). inversion HF; subst. cbn. by rewrite orb_false_r.
  - cbn [unmarshalSliceElements]. destruct (f x) as [b | | |] eqn:Hx; cbn.
    + rewrite IH. split.
      * intros (flags & HF & ->). exists (b :: flags). split; [by constructor |].
        cbn. by rewrite orb_assoc.
      * intros (flags & HF & ->). inversion HF as [| ? b' ? flags' Hb HF']; subst.
        rewrite Hx in Hb. injection Hb as <-. exists flags'. split; [done |].
        cbn. by rewrite orb_assoc.
    + split; [done |]. intros (flags & HF & _). inversion HF; subst. congruence.
    + split; [done |]. intros (flags & HF & _). inversion HF; subst. congruence.
    + split; [done |]. intros (flags & HF & _). inversion HF; subst. congruence.
Qed.

Lemma unmarshalStructFields_agree f obj obj' fields :
  (forall field, In field fields -> settableField field ->
     obj !! tagName (fieldTag field) = obj' !! tagName (fieldTag field)) ->
  forall secret,
    unmarshalStructFields f obj fields secret = unmarshalStructFields f obj' fields secret.
Proof.
  induction fields as [|field rest IH]; intros Hagree secret; [done |].
  cbn [unmarshalStructFields].
  assert (Hrest : forall s, unmarshalStructFields f obj rest s
                            = unmarshalStructFields f obj' rest s).
  { apply IH. intros fld Hin. apply Hagree. by right. }
  destruct (IsExported (fieldName field)) eqn:Hexp; cbn [negb]; [| apply Hrest].
  cbn zeta. case_bool_decide as Htag; [apply Hrest |].
  rewrite !lookupWith_lookup, (Hagree field); [| by left | by split].
  destruct (obj' !! tagName (fieldTag field)) as [e|]; cbn; [| apply Hrest].
  destruct (f e (fieldType field)); cbn; [apply Hrest | done ..].
Qed.

Lemma unmarshalStructFields_empty f fields : forall secret,
  unmarshalStructFields f ∅ fields secret = Ok secret.
Proof.
  induction fields as [|field rest IH]; intros secret; [done |].
  cbn [unmarshalStructFields]. destruct (negb (IsExported (fieldName field))); [apply IH |].
  cbn zeta. case_bool_decide; [apply IH |].
  rewrite lookupWith_lookup, lookup_empty. apply IH.
Qed.

End UnmarshalOutputFacts.

(** X22.  [unmarshalOutput] into [interface{}] and
    [unmarshalPropertyValue] agree on errors and, but for an output that is
    not known, on the secret flag: for a value that is not an [Output] with
    [Known] false, [unmarshalOutput] returns the flag or the error that
    [unmarshalPropertyValue] returns, and for such an output it returns
    false where [unmarshalPropertyValue] returns the secret flag of the
    output.  (Every type is assignable to [interface{}] and implements it,
    and a resource value is a pointer.) *)
Theorem unmarshalOutput_agrees_with_unmarshalPropertyValue :
  forall (reflection : Reflection) (runtime : Runtime)
         (resourcePackages : versionedMap ResourcePackage)
         (resourceModules : versionedMap ResourceModule),
    (forall t, AssignableTo t anyType = true) ->
    Implements anyType anyType = true ->
    (forall r, kindOf (resourceType r) = KPtr) ->
    forall v,
      unmarshalOutput resourcePackages resourceModules v anyType
      = ('(_, secret) ← unmarshalPropertyValue resourcePackages resourceModules v;
         mret (knownOutput v && secret)).
Proof.
  intros reflection runtime rp rm Hassign Himpl Hptr.
  induction v as [| b | x | s | elems IH | props IH | a | assets path uri IH | element IH
                  | element known secret0 dependencies IH | | ref]
    using PropertyValue_tree_ind;
    try (cbn [unmarshalOutput allocate anyType]; change (TInterface "") with anyType;
         rewrite ?Himpl, ?Hassign; cbn [negb];
         destruct (bool_decide (anyType = assetType) || bool_decide (anyType = archiveType));
         match goal with
         | |- context [unmarshalPropertyValue rp rm ?v] =>
             destruct (unmarshalPropertyValue rp rm v) as [[rv flag] | | |]; done
         end).
  - done.
  - cbn [unmarshalOutput allocate anyType unmarshalPropertyValue knownOutput].
    change (TInterface "") with anyType. rewrite IH.
    destruct (unmarshalPropertyValue rp rm element) as [[rv flag] | | |]; done.
  - rewrite unmarshalOutput_output, unmarshalPropertyValue_output.
    destruct known; cbn [negb knownOutput allocate fst anyType].
    + change (TInterface "") with anyType. rewrite IH.
      destruct (unmarshalPropertyValue rp rm element) as [[rv flag] | | |]; done.
    + done.
  - done.
  - cbn [unmarshalOutput allocate anyType unmarshalPropertyValue knownOutput].
    destruct (unmarshalResourceReference rp rm ref) as [res | | |]; cbn; [| done ..].
    specialize (Hptr res).
    destruct (resourceType res) as [? k | | resElem | | | |]; cbn in Hptr; try done;
      [by destruct k |].
    change (TInterface "") with anyType. rewrite Hassign. done.
Qed.

Lemma unmarshalOutput_agrees_with_unmarshalPropertyValue_witness :
  unmarshalOutput (reflection := exampleReflection) (runtime := exampleRuntime)
    noPackages noModules secretObject anyType
  = Ok true
  /\ unmarshalOutput (reflection := exampleReflection) (runtime := exampleRuntime)
       noPackages noModules unknownSecret anyType
     = Ok false.
Proof.
  assert (Hagree := unmarshalOutput_agrees_with_unmarshalPropertyValue exampleReflection
                      exampleRuntime noPackages noModules).
  split.
  - rewrite Hagree.
    + vm_compute. reflexivity.
    + intros t. cbn. rewrite (bool_decide_eq_true_2 (anyType = anyType)) by done.
      apply orb_true_r.
    + reflexivity.
    + intros r. reflexivity.
  - rewrite Hagree.
    + reflexivity.
    + intros t. cbn. rewrite (bool_decide_eq_true_2 (anyType = anyType)) by done.
      apply orb_true_r.
    + reflexivity.
    + intros r. reflexivity.
Defined.

(** X23.  [unmarshalOutput] into a slice takes an array element by
    element: it returns exactly when it returns for every element and the
    element type of the slice, with the disjunction of the secret flags of
    the elements; a value that is neither an array nor one of the values
    handled before the destination is looked at is refused with the
    "expected ..., got ..." error. *)
Theorem unmarshalOutput_slice_elementwise :
  forall (reflection : Reflection) (runtime : Runtime)
         (resourcePackages : versionedMap ResourcePackage)
         (resourceModules : versionedMap ResourceModule)
         (name : string) (elemType : GoType),
    let unmarshalInto := unmarshalOutput resourcePackages resourceModules in
    (forall arr secret,
       unmarshalInto (PVArray arr) (TSlice name elemType) = Ok secret <->
       exists flags,
         Forall2 (fun e b => unmarshalInto e elemType = Ok b) arr flags
         /\ secret = existsb id flags)
    /\ (forall b, unmarshalInto (PVBool b) (TSlice name elemType)
                  = Err (ErrExpected (TSlice name elemType) "bool"))
    /\ (forall n, unmarshalInto (PVNumber n) (TSlice name elemType)
                  = Err (ErrExpected (TSlice name elemType) "number"))
    /\ (forall s, unmarshalInto (PVString s) (TSlice name elemType)
                  = Err (ErrExpected (TSlice name elemType) "string"))
    /\ (forall props, unmarshalInto (PVObject props) (TSlice name elemType)
                      = Err (ErrExpected (TSlice name elemType) "object")).
Proof.
  intros reflection runtime rp rm name elemType unmarshalInto.
  split; [| by repeat split].
  intros arr secret. unfold unmarshalInto. rewrite unmarshalOutput_slice.
  rewrite unmarshalSliceElements_Ok. by cbn [orb].
Qed.

(** X24.  [unmarshalOutput] into a struct looks only at the keys of the
    object that the [pulumi] tags of the exported fields of the struct
    name: two objects that agree on these keys give the same result, so
    that an entry under any other key is never unmarshaled, and an object
    that has none of these keys leaves the struct as it is, with secret =
    false. *)
Theorem unmarshalOutput_struct_keys :
  forall (reflection : Reflection) (runtime : Runtime)
         (resourcePackages : versionedMap ResourcePackage)
         (resourceModules : versionedMap ResourceModule)
         (name : string) (fields : list StructField),
    let unmarshalInto := unmarshalOutput resourcePackages resourceModules in
    (forall obj obj' : gmap string PropertyValue,
       (forall field, In field fields -> settableField field ->
          obj !! tagName (fieldTag field) = obj' !! tagName (fieldTag field)) ->
       unmarshalInto (PVObject obj) (TStruct name fields)
       = unmarshalInto (PVObject obj') (TStruct name fields))
    /\ (forall obj : gmap string PropertyValue,
          (forall field, In field fields -> settableField field ->
             obj !! tagName (fieldTag field) = None) ->
          unmarshalInto (PVObject obj) (TStruct name fields) = Ok false).
Proof.
  intros reflection runtime rp rm name fields unmarshalInto.
  assert (Hagree : forall obj obj' : gmap string PropertyValue,
    (forall field, In field fields -> settableField field ->
       obj !! tagName (fieldTag field) = obj' !! tagName (fieldTag field)) ->
    unmarshalInto (PVObject obj) (TStruct name fields)
    = unmarshalInto (PVObject obj') (TStruct name fields)).
  { intros obj obj' Hkeys. unfold unmarshalInto. rewrite !unmarshalOutput_struct.
    by apply unmarshalStructFields_agree. }
  split; [exact Hagree |].
  intros obj Hnone. rewrite (Hagree obj ∅).
  - unfold unmarshalInto. rewrite unmarshalOutput_struct.
    apply unmarshalStructFields_empty.
  - intros field Hin Hset. rewrite lookup_empty. by apply Hnone.
Qed.

Lemma unmarshalOutput_struct_keys_witness :
  unmarshalOutput (reflection := exampleReflection) (runtime := exampleRuntime)
    noPackages noModules (PVObject bucketStateObjectMore) bucketStateType
  = unmarshalOutput (reflection := exampleReflection) (runtime := exampleRuntime)
      noPackages noModules (PVObject bucketStateObject) bucketStateType
  /\ unmarshalOutput (reflection := exampleReflection) (runtime := exampleRuntime)
       noPackages noModules (PVObject bucketStateObject) bucketStateType
     = Ok true.
Proof.
  split; [| vm_compute; reflexivity].
  apply (proj1 (unmarshalOutput_struct_keys exampleReflection exampleRuntime noPackages
                  noModules "BucketState"
                  [("Name", "name", stringType); ("Extra", "", stringType);
                   ("hidden", "hidden", intType)])).
  intros field [<- | [<- | [<- | []]]] [Hexp Htag].
  - vm_compute. reflexivity.
  - exfalso. apply Htag. reflexivity.
  - discriminate Hexp.
Defined.
Lemma unmarshalMapElements_result skip f props :
  mapElementsResult skip f props (unmarshalMapElements skip f props).
Proof.
  unfold unmarshalMapElements.
  apply (map_fold_weak_ind (fun r m => mapElementsResult skip f m r)).
  - cbn. split.
    + intros k e. by rewrite lookup_empty.
    + split; [done |]. intros (k & e & Hk & _). by rewrite lookup_empty in Hk.
  - intros i x m r Hi IH.
    assert (Hfail : (exists k e, m !! k = Some e /\ skip k = false /\ forall b, f e <> Ok b)
              -> exists k e, <[i := x]> m !! k = Some e /\ skip k = false
                             /\ forall b, f e <> Ok b).
    { intros (k & e & Hk & Hs & He). exists k, e. split; [| done].
      rewrite lookup_insert_ne; [done |]. intros <-. congruence. }
    destruct r as [secret | err | msg |]; cbn in IH |- *; try by apply Hfail.
    destruct IH as (Hpoint & Hsecret).
    assert (Hkeep : forall k e, m !! k = Some e -> <[i := x]> m !! k = Some e).
    { intros k e Hk. rewrite lookup_insert_ne; [done |]. intros <-. congruence. }
    destruct (skip i) eqn:Hskip; cbn.
    { split.
      - intros k e. destruct (decide (i = k)) as [<- | Hne]; [congruence |].
        rewrite lookup_insert_ne by done. apply Hpoint.
      - rewrite Hsecret. split.
        + intros (k & e & Hk & Hs & He). exists k, e. split; [by apply Hkeep | done].
        + intros (k & e & Hk & Hs & He). destruct (decide (i = k)) as [<- | Hne];
            [congruence |]. rewrite lookup_insert_ne in Hk by done. by exists k, e. }
    destruct (f x) as [b | err | msg |] eqn:Hx; cbn;
      try (exists i, x; split; [by rewrite lookup_insert_eq |];
           split; [done | intros y; congruence]).
    split.
    + intros k e. destruct (decide (i = k)) as [<- | Hne].
      * rewrite lookup_insert_eq. intros [= <-] _. by exists b.
      * rewrite lookup_insert_ne by done. apply Hpoint.
    + split.
      * intros [Hs | ->]%orb_prop.
        -- destruct (proj1 Hsecret Hs) as (k & e & Hk & Hsk & He).
           exists k, e. split; [by apply Hkeep | done].
        -- exists i, x. by rewrite lookup_insert_eq.
      * intros (k & e & Hk & Hsk & He). destruct (decide (i = k)) as [<- | Hne].
        -- rewrite lookup_insert_eq in Hk. injection Hk as <-.
           rewrite Hx in He. injection He as ->. apply orb_true_r.
        -- rewrite lookup_insert_ne in Hk by done.
           rewrite (proj2 Hsecret); [done |]. by exists k, e.
Qed.

(** X25.  [unmarshalOutput] of an object into a map: a key type that is
    not of string kind is refused with the "map keys must be assignable
    from type string" error.  Otherwise the entries whose key is an internal
    property key are passed over without being unmarshaled; the function
    returns exactly when it returns for every other entry and the element
    type of the map, and the secret flag is that of one of these entries. *)
Theorem unmarshalOutput_map_entries :
  forall (reflection : Reflection) (runtime : Runtime)
         (resourcePackages : versionedMap ResourcePackage)
         (resourceModules : versionedMap ResourceModule)
         (name : string) (keyType elemType : GoType) (props : gmap string PropertyValue),
    let unmarshalInto := unmarshalOutput resourcePackages resourceModules in
    (kindOf keyType <> KString ->
     unmarshalInto (PVObject props) (TMap name keyType elemType) = Err ErrMapKeysNotString)
    /\ (kindOf keyType = KString ->
        ((exists secret,
            unmarshalInto (PVObject props) (TMap name keyType elemType) = Ok secret)
         <-> forall k e, props !! k = Some e -> IsInternalPropertyKey k = false ->
               exists b, unmarshalInto e elemType = Ok b)
        /\ forall secret,
             unmarshalInto (PVObject props) (TMap name keyType elemType) = Ok secret ->
             (secret = true <->
              exists k e, props !! k = Some e /\ IsInternalPropertyKey k = false
                          /\ unmarshalInto e elemType = Ok true)).
Proof.
  intros reflection runtime rp rm name keyType elemType props unmarshalInto.
  assert (Hunfold : unmarshalInto (PVObject props) (TMap name keyType elemType)
    = if bool_decide (kindOf keyType ≠ KString) then Err ErrMapKeysNotString
      else unmarshalMapElements IsInternalPropertyKey (fun e => unmarshalInto e elemType)
             props) by done.
  rewrite Hunfold. split.
  - intros Hkey. by rewrite bool_decide_eq_true_2.
  - intros Hkey. rewrite bool_decide_eq_false_2 by (by intros ?).
    pose proof (unmarshalMapElements_result IsInternalPropertyKey
                  (fun e => unmarshalInto e elemType) props) as Hres.
    destruct (unmarshalMapElements _ _ props) as [secret | err | msg |]; cbn in Hres.
    + destruct Hres as [Hpoint Hsecret]. split.
      * split; [by intros _ | intros _; by eexists].
      * by intros ? [= <-].
    + destruct Hres as (k & e & Hk & Hs & Hno). split; [| done].
      split; [by intros [? ?] |]. intros Hall.
      destruct (Hall k e Hk Hs) as [b Hb]. by destruct (Hno b).
    + destruct Hres as (k & e & Hk & Hs & Hno). split; [| done].
      split; [by intros [? ?] |]. intros Hall.
      destruct (Hall k e Hk Hs) as [b Hb]. by destruct (Hno b).
    + destruct Hres as (k & e & Hk & Hs & Hno). split; [| done].
      split; [by intros [? ?] |]. intros Hall.
      destruct (Hall k e Hk Hs) as [b Hb]. by destruct (Hno b).
Qed.
